(** * Control-plane orchestration core: execution store, stale reaper,
    health monitor, presence leases and dashboard builders.

  A shallow embedding of the Go sources (package [storage]:
  [CreateExecutionRecord], [GetExecutionRecord], [UpdateExecutionRecord],
  [MarkStaleExecutions], [scanExecution] and the statement text of
  [QueryExecutionRecords]; package [services]:
  [HealthMonitor.RegisterAgent], [UnregisterAgent], [checkActiveAgents],
  [checkAgentHealth] and the [PresenceManager]; package [ui]:
  [computeMedian], [maxTime], [buildIncidentItems],
  [buildAgentHealthSummary], [getAgentsSummary] and the response
  caches) together with the properties the specification states about
  them and further properties read off the code. *)

From Stdlib Require Import ZArith QArith Lia.
From stdpp Require Import base option list sorting gmap strings.

Local Open Scope Z_scope.

(** ** Go numerics *)

Module Go.

(** [int64] values are integers in [[-2^63, 2^63)]; arithmetic wraps. *)
Definition minInt64 : Z := - 2 ^ 63.
Definition maxInt64 : Z := 2 ^ 63 - 1.

Definition wrap64 (z : Z) : Z := (z + 2 ^ 63) mod 2 ^ 64 - 2 ^ 63.

Definition inInt64 (z : Z) : Prop := minInt64 <= z <= maxInt64.

(** [n / d] rounded to the nearest integer, ties to even ([d > 0]). *)
Definition roundHalfEven (n d : Z) : Z :=
  let q := n / d in
  let r := n mod d in
  if 2 * r <? d then q
  else if d <? 2 * r then q + 1
  else if Z.even q then q else q + 1.

(** The conversion [float64(x)] of an [int64]: the nearest number with a
    53-bit significand, ties to even.  The result is always an integer,
    so it is given as one. *)
Definition float64_of_int64 (x : Z) : Z :=
  let a := Z.abs x in
  if a <? 2 ^ 53 then x
  else
    let e := Z.log2 a - 52 in
    Z.sgn x * (roundHalfEven a (2 ^ e) * 2 ^ e).

(** [time.Time] as nanoseconds on one time line; [time.Duration] is an
    [int64] count of nanoseconds. *)
Definition Time := Z.
Definition Duration := Z.

Definition Nanosecond : Duration := 1.
Definition Millisecond : Duration := 1000000.
Definition Second : Duration := 1000000000.
Definition Minute : Duration := 60 * Second.

(** A [time.Time] also carries a zone.  Of the code modelled here only
    the database driver reads it, when it writes a time as text, so it
    is kept where a time is on its way into a column the database
    compares: the offset east of UTC, in whole minutes. *)
Definition Zone := Z.
Definition UTC : Zone := 0.

(** The zero [time.Time], January 1, year 1, relative to the Unix epoch. *)
Definition zeroTime : Time := - 62135596800 * Second.

(** [t.Sub(u)]: the difference, saturated to the [Duration] range. *)
Definition Sub (t u : Time) : Duration :=
  Z.max minInt64 (Z.min maxInt64 (t - u)).

(** [t.Add(d)]. *)
Definition Add (t : Time) (d : Duration) : Time := t + d.

(** [d.Milliseconds()]: integer division truncating toward zero. *)
Definition Milliseconds (d : Duration) : Z := Z.quot d Millisecond.

End Go.

(** ** Dashboard: median of the duration samples *)

Module Dashboard.

(** [sort.Slice(values, func(i, j) bool { return values[i] < values[j] })]:
    the slice ends up in ascending order. *)
Definition sortSlice (values : list Z) : list Z := merge_sort Z.le values.

(** [values[i]]; every index used below is in range. *)
Definition index (values : list Z) (i : nat) : Z := default 0 (values !! i).

Definition computeMedian (values : list Z) : Q :=
  if (length values =? 0)%nat then 0%Q
  else
    let values := sortSlice values in
    let mid := (length values / 2)%nat in
    if (length values mod 2 =? 1)%nat then
      inject_Z (Go.float64_of_int64 (index values mid))
    else
      (inject_Z (Go.float64_of_int64
                   (Go.wrap64 (index values (mid - 1) + index values mid))) / 2)%Q.

(** The median as the specification words it, over the samples in
    ascending order: 0 for no sample, the middle element for an odd
    count, the arithmetic mean of the two middle elements for an even
    count. *)
Definition statisticalMedian (ascending : list Z) : Q :=
  match ascending with
  | [] => 0%Q
  | _ =>
      let mid := (length ascending / 2)%nat in
      if Nat.odd (length ascending) then inject_Z (index ascending mid)
      else ((inject_Z (index ascending (mid - 1)) + inject_Z (index ascending mid)) / 2)%Q
  end.

(** Samples for which neither the [int64] sum of two of them nor the
    conversion to [float64] loses anything. *)
Definition exactSample (v : Z) : Prop := - 2 ^ 52 <= v <= 2 ^ 52.

End Dashboard.

(** ** Package storage: the executions table *)

Module Storage.

Import Go.

(** A Go [(value, error)] pair. *)
Inductive Result (A : Type) : Type :=
| Ok (a : A)
| Err (msg : string).
Global Arguments Ok {A} a.
Global Arguments Err {A} msg.

(** One row of table [executions]; nullable columns are options.
    [started_at_zone] is no column of its own: it is the zone offset in
    the text stored in [started_at], the one time column the statements
    below compare. *)
Record Row := {
  execution_id : string;
  run_id : string;
  parent_execution_id : option string;
  agent_node_id : string;
  reasoner_id : string;
  node_id : string;
  status : string;
  input_payload : option (list Byte.byte);
  result_payload : option (list Byte.byte);
  error_message : option string;
  input_uri : option string;
  result_uri : option string;
  session_id : option string;
  actor_id : option string;
  started_at : Time;
  started_at_zone : Zone;
  completed_at : option Time;
  duration_ms : option Z;
  created_at : Time;
  updated_at : Time
}.

Abbreviation Table := (list Row).

(** Modelled from the spec: the webhook delivery record of
    [types.ExecutionWebhookEvent], whose declaration is not part of the
    sources at hand (status, HTTP code if any, error, timestamp). *)
Record WebhookEvent := {
  EventStatus : string;
  HTTPStatus : option Z;
  EventError : option string;
  EventAt : Time
}.

(** [types.Execution], with the fields [scanExecution] and
    [enrichExecutionWebhook] fill; [StartedAtZone] is the zone of
    [StartedAt]. *)
Record Execution := {
  ExecutionID : string;
  RunID : string;
  ParentExecutionID : option string;
  AgentNodeID : string;
  ReasonerID : string;
  NodeID : string;
  Status : string;
  InputPayload : list Byte.byte;
  ResultPayload : list Byte.byte;
  ErrorMessage : option string;
  InputURI : option string;
  ResultURI : option string;
  SessionID : option string;
  ActorID : option string;
  StartedAt : Time;
  StartedAtZone : Zone;
  CompletedAt : option Time;
  DurationMS : option Z;
  CreatedAt : Time;
  UpdatedAt : Time;
  WebhookRegistered : bool;
  WebhookEvents : list WebhookEvent
}.

(** Modelled from the spec: the status constants of package [types]
    (pending/queued/running/succeeded/failed/cancelled/timeout); the
    three non-terminal ones are also spelled out in the SQL text. *)
Definition ExecutionStatusPending : string := "pending".
Definition ExecutionStatusQueued : string := "queued".
Definition ExecutionStatusRunning : string := "running".
Definition ExecutionStatusSucceeded : string := "succeeded".
Definition ExecutionStatusFailed : string := "failed".
Definition ExecutionStatusCancelled : string := "cancelled".
Definition ExecutionStatusTimeout : string := "timeout".

Definition terminalStatus (s : string) : Prop :=
  s = ExecutionStatusSucceeded \/ s = ExecutionStatusFailed \/
  s = ExecutionStatusCancelled \/ s = ExecutionStatusTimeout.

(** [status IN ('running', 'pending', 'queued')]. *)
Definition statusInFlight (s : string) : bool :=
  bool_decide (s ∈ ["running"; "pending"; "queued"]).

(** *** The database connection *)

(** The driver calls whose error result the code checks. *)
Inductive DbCall :=
| CtxErr | BeginTx | Query | Scan | RowsErr | Prepare | Exec | RowsAffected | Commit.

(** [drv c i]: the [i]-th use of call [c] inside one storage function
    reports an error. *)
Definition Driver := DbCall -> nat -> bool.

Definition healthy : Driver := fun _ _ => false.

(** The statements the two mutation paths send. *)
Inductive Stmt :=
| SelectExecution (executionID : string)
| UpdateExecution (updated : Execution)
| SelectStale (cutoff : Time) (limit : Z)
| UpdateStale (newStatus : string) (message : string) (completedAt : Time)
    (durationMS : Z) (updatedAt : Time) (id : string)
| Begin
| CommitTx
| Rollback.

(** [committed] is the table as every connection sees it, [pending] the
    view of the transaction this call has open, [issued] what was sent. *)
Record Conn := {
  committed : Table;
  pending : option Table;
  issued : list Stmt
}.

Definition connect (db : Table) : Conn :=
  {| committed := db; pending := None; issued := [] |}.

(** The table a statement of this call reads and writes. *)
Definition view (c : Conn) : Table := default (committed c) (pending c).

(** Computations on the connection that may return an error. *)
Definition M (A : Type) : Type := Conn -> Result A * Conn.

Definition ret {A} (a : A) : M A := fun c => (Ok a, c).
Definition fail {A} (msg : string) : M A := fun c => (Err msg, c).
Definition bind {A B} (m : M A) (k : A -> M B) : M B :=
  fun c => match m c with
           | (Ok a, c') => k a c'
           | (Err e, c') => (Err e, c')
           end.

Notation "x <- m ;; k" := (bind m (fun x => k))
  (at level 100, m at next level, right associativity).
Notation "m ;;; k" := (bind m (fun _ => k))
  (at level 100, right associativity).

Definition send (s : Stmt) : M unit :=
  fun c => (Ok tt, {| committed := committed c; pending := pending c;
                      issued := issued c ++ [s] |}).

Definition write (t : Table) : M unit :=
  fun c => (Ok tt,
            match pending c with
            | Some _ => {| committed := committed c; pending := Some t; issued := issued c |}
            | None => {| committed := t; pending := None; issued := issued c |}
            end).

Definition read : M Table := fun c => (Ok (view c), c).

(** [if err := call(); err != nil { return ..., fmt.Errorf(msg, err) }]. *)
Definition check (drv : Driver) (call : DbCall) (i : nat) (msg : string) : M unit :=
  if drv call i then fail msg else ret tt.

(** [db.BeginTx]. *)
Definition beginTx (drv : Driver) (msg : string) : M unit :=
  check drv BeginTx 0 msg ;;;
  send Begin ;;;
  fun c => (Ok tt, {| committed := committed c; pending := Some (committed c);
                      issued := issued c |}).

(** [tx.Commit]. *)
Definition commit (drv : Driver) (msg : string) : M unit :=
  check drv Commit 0 msg ;;;
  send CommitTx ;;;
  fun c => (Ok tt, {| committed := view c; pending := None; issued := issued c |}).

(** [defer tx.Rollback()]: when the function leaves with the
    transaction still open, its writes are dropped. *)
Definition deferRollback {A} (body : M A) : M A :=
  fun c => match body c with
           | (r, c') =>
               (r, match pending c' with
                   | Some _ => {| committed := committed c'; pending := None;
                                  issued := issued c' ++ [Rollback] |}
                   | None => c'
                   end)
           end.

(** Writes another connection commits while this call is between two
    statements outside a transaction. *)
Definition yield (others : Table -> Table) : M unit :=
  fun c => (Ok tt, {| committed := others (committed c); pending := pending c;
                      issued := issued c |}).

(** *** Rows and structs *)

(** The assignments of [scanExecution] once [Scan] has filled its
    destinations: a NULL payload scans as an empty slice, and a time
    is parsed with the offset of its text. *)
Definition scanRow (r : Row) : Execution :=
  {| ExecutionID := execution_id r;
     RunID := run_id r;
     ParentExecutionID := parent_execution_id r;
     AgentNodeID := agent_node_id r;
     ReasonerID := reasoner_id r;
     NodeID := node_id r;
     Status := status r;
     InputPayload := default [] (input_payload r);
     ResultPayload := default [] (result_payload r);
     ErrorMessage := error_message r;
     InputURI := input_uri r;
     ResultURI := result_uri r;
     SessionID := session_id r;
     ActorID := actor_id r;
     StartedAt := started_at r;
     StartedAtZone := started_at_zone r;
     CompletedAt := completed_at r;
     DurationMS := duration_ms r;
     CreatedAt := created_at r;
     UpdatedAt := updated_at r;
     WebhookRegistered := false;
     WebhookEvents := [] |}.

(** [scanExecution]: [sql.ErrNoRows] gives [(nil, nil)], any other
    scan error is returned. *)
Definition scanExecution (drv : Driver) (row : option Row) : M (option Execution) :=
  if drv Scan 0%nat then fail "scan execution"
  else ret (scanRow <$> row).

Definition bytesOrNil (raw : list Byte.byte) : option (list Byte.byte) :=
  if (length raw =? 0)%nat then None else Some raw.

Definition setUpdatedAt (now : Time) (e : Execution) : Execution :=
  {| ExecutionID := ExecutionID e; RunID := RunID e;
     ParentExecutionID := ParentExecutionID e; AgentNodeID := AgentNodeID e;
     ReasonerID := ReasonerID e; NodeID := NodeID e; Status := Status e;
     InputPayload := InputPayload e; ResultPayload := ResultPayload e;
     ErrorMessage := ErrorMessage e; InputURI := InputURI e;
     ResultURI := ResultURI e; SessionID := SessionID e; ActorID := ActorID e;
     StartedAt := StartedAt e; StartedAtZone := StartedAtZone e;
     CompletedAt := CompletedAt e;
     DurationMS := DurationMS e; CreatedAt := CreatedAt e;
     UpdatedAt := now;
     WebhookRegistered := WebhookRegistered e;
     WebhookEvents := WebhookEvents e |}.

Definition setWebhook (registered : bool) (events : list WebhookEvent)
    (e : Execution) : Execution :=
  {| ExecutionID := ExecutionID e; RunID := RunID e;
     ParentExecutionID := ParentExecutionID e; AgentNodeID := AgentNodeID e;
     ReasonerID := ReasonerID e; NodeID := NodeID e; Status := Status e;
     InputPayload := InputPayload e; ResultPayload := ResultPayload e;
     ErrorMessage := ErrorMessage e; InputURI := InputURI e;
     ResultURI := ResultURI e; SessionID := SessionID e; ActorID := ActorID e;
     StartedAt := StartedAt e; StartedAtZone := StartedAtZone e;
     CompletedAt := CompletedAt e;
     DurationMS := DurationMS e; CreatedAt := CreatedAt e;
     UpdatedAt := UpdatedAt e;
     WebhookRegistered := registered;
     WebhookEvents := events |}.

(** *** What the two UPDATE statements do to a row *)

(** [UPDATE executions SET run_id = ?, ..., updated_at = ?]: every
    column but [execution_id] and [created_at]. *)
Definition updateRow (u : Execution) (r : Row) : Row :=
  {| execution_id := execution_id r;
     run_id := RunID u;
     parent_execution_id := ParentExecutionID u;
     agent_node_id := AgentNodeID u;
     reasoner_id := ReasonerID u;
     node_id := NodeID u;
     status := Status u;
     input_payload := bytesOrNil (InputPayload u);
     result_payload := bytesOrNil (ResultPayload u);
     error_message := ErrorMessage u;
     input_uri := InputURI u;
     result_uri := ResultURI u;
     session_id := SessionID u;
     actor_id := ActorID u;
     started_at := StartedAt u;
     started_at_zone := StartedAtZone u;
     completed_at := CompletedAt u;
     duration_ms := DurationMS u;
     created_at := created_at r;
     updated_at := UpdatedAt u |}.

(** [SET status = ?, error_message = ?, completed_at = ?,
    duration_ms = ?, updated_at = ?]. *)
Definition timeoutRow (newStatus message : string) (completedAt : Time)
    (durationMS : Z) (updatedAt : Time) (r : Row) : Row :=
  {| execution_id := execution_id r;
     run_id := run_id r;
     parent_execution_id := parent_execution_id r;
     agent_node_id := agent_node_id r;
     reasoner_id := reasoner_id r;
     node_id := node_id r;
     status := newStatus;
     input_payload := input_payload r;
     result_payload := result_payload r;
     error_message := Some message;
     input_uri := input_uri r;
     result_uri := result_uri r;
     session_id := session_id r;
     actor_id := actor_id r;
     started_at := started_at r;
     started_at_zone := started_at_zone r;
     completed_at := Some completedAt;
     duration_ms := Some durationMS;
     created_at := created_at r;
     updated_at := updatedAt |}.

(** [WHERE execution_id = ?]. *)
Definition hasID (id : string) (r : Row) : bool :=
  bool_decide (execution_id r = id).

(** [WHERE execution_id = ? AND status IN ('running', 'pending', 'queued')]. *)
Definition staleUpdateApplies (id : string) (r : Row) : bool :=
  hasID id r && statusInFlight (status r).

(** The rows a statement leaves behind, and how many it changed. *)
Definition applyStmt (s : Stmt) (t : Table) : Table :=
  match s with
  | UpdateExecution u =>
      (fun r => if hasID (ExecutionID u) r then updateRow u r else r) <$> t
  | UpdateStale newStatus message completedAt durationMS updatedAt id =>
      (fun r => if staleUpdateApplies id r
                then timeoutRow newStatus message completedAt durationMS updatedAt r
                else r) <$> t
  | _ => t
  end.

Definition affected (s : Stmt) (t : Table) : Z :=
  match s with
  | UpdateExecution u => Z.of_nat (length (filter (fun r => hasID (ExecutionID u) r) t))
  | UpdateStale _ _ _ _ _ id => Z.of_nat (length (filter (fun r => staleUpdateApplies id r) t))
  | _ => 0
  end.

(** [tx.ExecContext] / [stmt.ExecContext]; the result is [RowsAffected]. *)
Definition exec (drv : Driver) (i : nat) (s : Stmt) (msg : string) : M Z :=
  check drv Exec i msg ;;;
  send s ;;;
  t <- read ;;
  write (applyStmt s t) ;;;
  ret (affected s t).

(** [QueryRowContext ... WHERE execution_id = ?]: the first such row. *)
Definition queryRow (executionID : string) : M (option Row) :=
  send (SelectExecution executionID) ;;;
  t <- read ;;
  ret (List.find (hasID executionID) t).

(** *** Webhook enrichment *)

(** The receiver: the driver underneath and the two webhook queries,
    which live in another file of the package. *)
Record LocalStorage := {
  driver : Driver;
  HasExecutionWebhook : string -> Result bool;
  ListExecutionWebhookEvents : string -> Result (list WebhookEvent)
}.

Definition enrichExecutionWebhook (ls : LocalStorage) (exec : option Execution)
    (includeEvents : bool) : option Execution :=
  match exec with
  | None => None
  | Some exec =>
      Some
        match HasExecutionWebhook ls (ExecutionID exec) with
        | Err _ => exec
        | Ok registered =>
            let exec := setWebhook registered (WebhookEvents exec) exec in
            if negb registered || negb includeEvents then exec
            else
              match ListExecutionWebhookEvents ls (ExecutionID exec) with
              | Err _ => exec
              | Ok events => setWebhook (WebhookRegistered exec) events exec
              end
        end
  end.

(** *** UpdateExecutionRecord *)

(** What the callback hands back.  It is given a pointer to the struct
    just scanned, so when it returns [(nil, nil)] the struct behind
    that pointer is what the callback's own writes, [written], made of
    it (the identity for a callback that writes nothing). *)
Inductive UpdaterResult :=
| UpdaterErr (err : string)
| UpdaterNil (written : Execution -> Execution)
| UpdaterOk (updated : Execution).

Definition Updater := option Execution -> UpdaterResult.

Definition UpdateExecutionRecord (ls : LocalStorage) (now : Time)
    (executionID : string) (updater : option Updater) : M (option Execution) :=
  match updater with
  | None => fail "nil updater"
  | Some updater =>
      deferRollback
        (beginTx (driver ls) "begin transaction" ;;;
         row <- queryRow executionID ;;
         current <- scanExecution (driver ls) row ;;
         match updater current with
         | UpdaterErr err => fail err
         | UpdaterNil written =>
             commit (driver ls) "commit execution update" ;;;
             ret (enrichExecutionWebhook ls (written <$> current) true)
         | UpdaterOk updated =>
             let updated := setUpdatedAt now updated in
             _ <- exec (driver ls) 0 (UpdateExecution updated) "update execution" ;;
             commit (driver ls) "commit execution update" ;;;
             ret (enrichExecutionWebhook ls (Some updated) true)
         end)
  end.

(** *** MarkStaleExecutions *)

Record staleRecord := { id : string; startedAt : Time }.

(** [rows.Scan(&rec.id, &rec.startedAt)]. *)
Definition toStale (r : Row) : staleRecord :=
  {| id := execution_id r; startedAt := started_at r |}.

(** The driver writes a [time.Time] into a column as the text
    "2006-01-02 15:04:05.999999999-07:00": the wall clock of its zone,
    then the offset.  The database compares two such texts byte by
    byte, which (for years 0 to 9999) orders them by wall clock first
    and by the offset text second, where "+hh:mm" sorts before
    "-hh:mm" and each of the two by its digits. *)
Definition wallClock (t : Time) (zone : Zone) : Z := t + zone * Minute.

Definition offsetTextLe (z1 z2 : Zone) : bool :=
  if z1 <? 0 then (z2 <? 0) && (z2 <=? z1)
  else (z2 <? 0) || (z1 <=? z2).

Definition textLe (t1 : Time) (z1 : Zone) (t2 : Time) (z2 : Zone) : bool :=
  (wallClock t1 z1 <? wallClock t2 z2)
  || ((wallClock t1 z1 =? wallClock t2 z2) && offsetTextLe z1 z2).

(** [WHERE status IN ('running', 'pending', 'queued') AND started_at <= ?],
    the bound value being [cutoff], a UTC time. *)
Definition isStale (cutoff : Time) (r : Row) : bool :=
  statusInFlight (status r)
  && textLe (started_at r) (started_at_zone r) cutoff UTC.

(** [ORDER BY started_at ASC]. *)
Definition startedNoLater (r1 r2 : Row) : Prop :=
  textLe (started_at r1) (started_at_zone r1) (started_at r2) (started_at_zone r2)
  = true.

Global Instance startedNoLater_dec r1 r2 : Decision (startedNoLater r1 r2).
Proof. unfold startedNoLater. apply _. Defined.

(** The rows the SELECT returns: [... ORDER BY started_at ASC LIMIT ?]. *)
Definition selectStale (cutoff : Time) (limit : Z) (t : Table) : list Row :=
  take (Z.to_nat limit)
    (merge_sort startedNoLater (filter (fun r => isStale cutoff r) t)).

(** [for rows.Next() { rows.Scan(&rec.id, &rec.startedAt) ... }]. *)
Fixpoint scanStale (drv : Driver) (i : nat) (rows : list Row) : M (list staleRecord) :=
  match rows with
  | [] => ret []
  | r :: rows =>
      check drv Scan i "scan stale execution" ;;;
      stale <- scanStale drv (S i) rows ;;
      ret (toStale r :: stale)
  end.

(** The duration written for one stale record. *)
Definition staleDurationMS (now : Time) (rec : staleRecord) : Z :=
  let duration := Sub now (startedAt rec) in
  let duration := if duration <? 0 then 0 else duration in
  let durationMS := Milliseconds duration in
  if durationMS <? 0 then 0 else durationMS.

Definition timeoutMessage : string := "execution timed out".

Definition staleUpdate (now : Time) (rec : staleRecord) : Stmt :=
  UpdateStale ExecutionStatusTimeout timeoutMessage now
    (staleDurationMS now rec) now (id rec).

(** [for _, rec := range stale { ... }]. *)
Fixpoint reapLoop (drv : Driver) (now : Time) (i : nat) (stale : list staleRecord)
    (updated : Z) : M Z :=
  match stale with
  | [] => ret updated
  | rec :: stale =>
      rowsAffected <- exec drv i (staleUpdate now rec)
                        ("update stale execution " +:+ id rec) ;;
      check drv RowsAffected i ("rows affected for execution " +:+ id rec) ;;;
      reapLoop drv now (S i) stale
        (if 0 <? rowsAffected then updated + 1 else updated)
  end.

(** [now1] and [now2] are the two readings of [time.Now().UTC()];
    [others] is what other connections commit between the SELECT and
    the batch transaction (the identity when the sweep runs alone). *)
Definition MarkStaleExecutions (ls : LocalStorage) (now1 now2 : Time)
    (others : Table -> Table) (staleAfter : Duration) (limit : Z) : M Z :=
  if limit <=? 0 then ret 0
  else
    check (driver ls) CtxErr 0 "context cancelled before marking stale executions" ;;;
    let cutoff := Add now1 (wrap64 (- staleAfter)) in
    check (driver ls) Query 0 "query stale executions" ;;;
    send (SelectStale cutoff limit) ;;;
    t <- read ;;
    stale <- scanStale (driver ls) 0 (selectStale cutoff limit t) ;;
    check (driver ls) RowsErr 0 "iterate stale executions" ;;;
    if (length stale =? 0)%nat then ret 0
    else
      yield others ;;;
      deferRollback
        (beginTx (driver ls) "begin stale execution transaction" ;;;
         check (driver ls) Prepare 0 "prepare stale execution update" ;;;
         updated <- reapLoop (driver ls) now2 0 stale 0 ;;
         commit (driver ls) "commit stale execution transaction" ;;;
         ret updated).

(** *** The net effect of one batch on a row *)

(** The first stale record carrying the row's id decides: later ones
    find the row already timed out. *)
Definition reapRow (now : Time) (stale : list staleRecord) (r : Row) : Row :=
  if statusInFlight (status r) then
    match List.find (fun rec => bool_decide (id rec = execution_id r)) stale with
    | Some rec =>
        timeoutRow ExecutionStatusTimeout timeoutMessage now
          (staleDurationMS now rec) now r
    | None => r
    end
  else r.

(** The statements a sweep may send: everything but the general UPDATE. *)
Definition reaperStmt (s : Stmt) : Prop :=
  match s with
  | UpdateExecution _ => False
  | UpdateStale newStatus message _ _ _ _ =>
      newStatus = ExecutionStatusTimeout /\ message = timeoutMessage
  | _ => True
  end.


(** *** Assertions on the connection *)

(** [triple P m Q]: from a connection satisfying [P], [m] ends in one
    satisfying [Q], whether it fails or not. *)
Definition triple {A} (P : Conn -> Prop) (m : M A) (Q : Conn -> Prop) : Prop :=
  forall c r c', m c = (r, c') -> P c -> Q c'.

(** The rows of [t0] that are not in flight sit unchanged in both views
    of the connection, and only reaper statements were sent. *)
Definition kept (t0 : Table) (c : Conn) : Prop :=
  Forall reaperStmt (issued c) /\
  forall i row, t0 !! i = Some row -> statusInFlight (status row) = false ->
    committed c !! i = Some row /\
    (forall t, pending c = Some t -> t !! i = Some row).

(** [r'] is [r] after the reaper's UPDATE at [now]: the five columns of
    its SET clause hold the values bound, every other column is [r]'s. *)
Definition timedOut (now : Time) (durationMS : Z) (r r' : Row) : Prop :=
  status r' = "timeout" /\
  error_message r' = Some "execution timed out" /\
  completed_at r' = Some now /\
  duration_ms r' = Some durationMS /\
  updated_at r' = now /\
  execution_id r' = execution_id r /\
  run_id r' = run_id r /\
  parent_execution_id r' = parent_execution_id r /\
  agent_node_id r' = agent_node_id r /\
  reasoner_id r' = reasoner_id r /\
  node_id r' = node_id r /\
  input_payload r' = input_payload r /\
  result_payload r' = result_payload r /\
  input_uri r' = input_uri r /\
  result_uri r' = result_uri r /\
  session_id r' = session_id r /\
  actor_id r' = actor_id r /\
  started_at r' = started_at r /\
  started_at_zone r' = started_at_zone r /\
  created_at r' = created_at r.

(** Nothing was written at all. *)
Definition untouched (t0 : Table) (c : Conn) : Prop :=
  Forall reaperStmt (issued c) /\ committed c = t0 /\ pending c = None.

(** A connection with no transaction open. *)
Definition closed (db : Table) (stmts : list Stmt) : Conn :=
  {| committed := db; pending := None; issued := stmts |}.

End Storage.

(** ** Package types: agent status vocabulary *)

Module Types.

Import Go.

(** Modelled from the spec: the coarse health status of package [types]
    (active/inactive/unknown), whose declaration is not part of the
    sources at hand. *)
Inductive HealthStatus :=
| HealthStatusActive
| HealthStatusInactive
| HealthStatusUnknown.

Global Instance HealthStatus_eq_dec : EqDecision HealthStatus.
Proof. solve_decision. Defined.

(** Modelled from the spec: the snapshot states
    (active/inactive/starting/stopping/error). *)
Inductive AgentState :=
| AgentStateActive
| AgentStateInactive
| AgentStateStarting
| AgentStateStopping
| AgentStateError.

(** Modelled from the spec: the update sources
    (heartbeat/health-check/presence/reconcile/manual). *)
Inductive StatusSource :=
| StatusSourceHeartbeat
| StatusSourceHealthCheck
| StatusSourcePresence
| StatusSourceReconcile
| StatusSourceManual.

(** [types.AgentStatusUpdate] as the two services build it. *)
Record AgentStatusUpdate := {
  State : option AgentState;
  HealthScore : option Z;
  Source : StatusSource;
  Reason : string
}.

(** Modelled from the spec: the part of [types.AgentNode] the events carry. *)
Record AgentNode := {
  ID : string;
  AgentBaseURL : string;
  AgentHealthStatus : HealthStatus;
  LastHeartbeat : Time
}.

(** [StatusManager.UpdateAgentStatus], which lives in another file: the
    error it returns, if any. *)
Definition StatusManager := string -> AgentStatusUpdate -> option string.

(** What a service does to its collaborators, in order. *)
Inductive Effect :=
| UpdateAgentStatus (nodeID : string) (update : AgentStatusUpdate)
| UpdateAgentHealth (nodeID : string) (status : HealthStatus)
| CheckMCPHealthForNode (nodeID : string)
| PublishNodeOnline (nodeID : string) (agent : AgentNode)
| PublishNodeOffline (nodeID : string) (agent : AgentNode)
| PublishNodeHealthChanged (nodeID : string) (status : HealthStatus) (agent : AgentNode)
| OnNodeStatusChanged (agent : AgentNode)
| ExpireCallback (nodeID : string).

End Types.

(** ** Package services: presence leases *)

Module Presence.

Import Go Types.

Record PresenceManagerConfig := {
  HeartbeatTTL : Duration;
  SweepInterval : Duration;
  HardEvictTTL : Duration
}.

Record presenceLease := {
  LastSeen : Time;
  LastExpired : Time;
  MarkedOffline : bool
}.

(** [expireCallback] only says whether a callback is set: calling it is
    recorded as an effect. *)
Record PresenceManager := {
  statusManager : option StatusManager;
  config : PresenceManagerConfig;
  leases : gmap string presenceLease;
  expireCallback : bool
}.

Definition setLeases (l : gmap string presenceLease) (pm : PresenceManager)
    : PresenceManager :=
  {| statusManager := statusManager pm; config := config pm;
     leases := l; expireCallback := expireCallback pm |}.

Definition NewPresenceManager (statusManager : option StatusManager)
    (config : PresenceManagerConfig) : PresenceManager :=
  let heartbeatTTL :=
    if HeartbeatTTL config =? 0 then 15 * Second else HeartbeatTTL config in
  let sweepInterval :=
    if SweepInterval config =? 0 then
      let s := Z.quot heartbeatTTL 3 in
      if s <? Second then Second else s
    else SweepInterval config in
  let hardEvictTTL :=
    if HardEvictTTL config =? 0 then 5 * Minute else HardEvictTTL config in
  {| statusManager := statusManager;
     config := {| HeartbeatTTL := heartbeatTTL; SweepInterval := sweepInterval;
                  HardEvictTTL := hardEvictTTL |};
     leases := ∅;
     expireCallback := false |}.

(** [&presenceLease{}]. *)
Definition zeroLease : presenceLease :=
  {| LastSeen := zeroTime; LastExpired := zeroTime; MarkedOffline := false |}.

Definition Touch (nodeID : string) (seenAt : Time) (pm : PresenceManager)
    : PresenceManager :=
  let lease := default zeroLease (leases pm !! nodeID) in
  setLeases
    (<[nodeID := {| LastSeen := seenAt; LastExpired := LastExpired lease;
                    MarkedOffline := false |}]> (leases pm))
    pm.

Definition Forget (nodeID : string) (pm : PresenceManager) : PresenceManager :=
  setLeases (delete nodeID (leases pm)) pm.

Definition HasLease (nodeID : string) (pm : PresenceManager) : bool :=
  bool_decide (is_Some (leases pm !! nodeID)).

Definition SetExpireCallback (set : bool) (pm : PresenceManager) : PresenceManager :=
  {| statusManager := statusManager pm; config := config pm;
     leases := leases pm; expireCallback := set |}.

(** What the body of the sweep loop decides for one lease. *)
Inductive Verdict :=
| Keep
| SoftExpire
| HardEvict.

Definition verdict (cfg : PresenceManagerConfig) (now : Time) (lease : presenceLease)
    : Verdict :=
  if HeartbeatTTL cfg <=? Sub now (LastSeen lease) then
    if negb (MarkedOffline lease) then SoftExpire
    else if (0 <? HardEvictTTL cfg) && (HardEvictTTL cfg <=? Sub now (LastSeen lease))
         then HardEvict
         else Keep
  else Keep.

(** The lease after the loop body; [None] when it was deleted. *)
Definition sweepLease (cfg : PresenceManagerConfig) (now : Time) (lease : presenceLease)
    : option presenceLease :=
  match verdict cfg now lease with
  | Keep => Some lease
  | SoftExpire =>
      Some {| LastSeen := LastSeen lease; LastExpired := now; MarkedOffline := true |}
  | HardEvict => None
  end.

(** The node ids appended to [expired].  Go ranges over the map in no
    fixed order; the order of the map's listing stands for it. *)
Definition expiredNodes (cfg : PresenceManagerConfig) (now : Time)
    (l : gmap string presenceLease) : list string :=
  (map_to_list l) ≫= (fun kv =>
     match verdict cfg now kv.2 with
     | SoftExpire => [kv.1]
     | _ => []
     end).

Definition inactiveUpdate : AgentStatusUpdate :=
  {| State := Some AgentStateInactive; HealthScore := Some 0;
     Source := StatusSourcePresence; Reason := "presence lease expired" |}.

Definition markInactive (pm : PresenceManager) (nodeID : string) : list Effect :=
  match statusManager pm with
  | None => []
  | Some updateAgentStatus =>
      UpdateAgentStatus nodeID inactiveUpdate ::
      match updateAgentStatus nodeID inactiveUpdate with
      | Some _ => []
      | None => if expireCallback pm then [ExpireCallback nodeID] else []
      end
  end.

Definition checkExpirations (now : Time) (pm : PresenceManager)
    : PresenceManager * list Effect :=
  let expired := expiredNodes (config pm) now (leases pm) in
  let pm' := setLeases (omap (sweepLease (config pm) now) (leases pm)) pm in
  (pm', expired ≫= markInactive pm').

(** Consecutive sweeps at the given times, with nothing in between. *)
Fixpoint sweeps (times : list Time) (pm : PresenceManager)
    : PresenceManager * list Effect :=
  match times with
  | [] => (pm, [])
  | now :: times =>
      let '(pm1, e1) := checkExpirations now pm in
      let '(pm2, e2) := sweeps times pm1 in
      (pm2, e1 ++ e2)
  end.

(** The node ids the successive sweeps append to [expired]. *)
Fixpoint softExpiries (times : list Time) (pm : PresenceManager) : list string :=
  match times with
  | [] => []
  | now :: times =>
      expiredNodes (config pm) now (leases pm) ++
      softExpiries times (checkExpirations now pm).1
  end.

Definition countNode (nodeID : string) (nodes : list string) : nat :=
  length (List.filter (fun n => bool_decide (n = nodeID)) nodes).

(** Whether some sweep time finds the lease untouched for the TTL. *)
Definition overdue (cfg : PresenceManagerConfig) (lease : presenceLease)
    (times : list Time) : bool :=
  existsb (fun now => HeartbeatTTL cfg <=? Sub now (LastSeen lease)) times.

(** The Status Manager updates among the effects that mark [nodeID] inactive. *)
Definition marksInactive (nodeID : string) (e : Effect) : bool :=
  match e with
  | UpdateAgentStatus n u =>
      bool_decide (n = nodeID) &&
      match State u with Some AgentStateInactive => true | _ => false end
  | _ => false
  end.

Definition inactiveUpdates (nodeID : string) (es : list Effect) : nat :=
  length (List.filter (marksInactive nodeID) es).

End Presence.

(** ** Package services: the health monitor *)

Module Health.

Import Go Types.

Record ActiveAgent := {
  NodeID : string;
  BaseURL : string;
  LastStatus : HealthStatus;
  LastChecked : Time
}.

Definition setLastChecked (t : Time) (a : ActiveAgent) : ActiveAgent :=
  {| NodeID := NodeID a; BaseURL := BaseURL a;
     LastStatus := LastStatus a; LastChecked := t |}.

Definition setLastStatus (s : HealthStatus) (a : ActiveAgent) : ActiveAgent :=
  {| NodeID := NodeID a; BaseURL := BaseURL a;
     LastStatus := s; LastChecked := LastChecked a |}.

(** The legacy store calls of [storage.StorageProvider]: the error of
    [UpdateAgentHealth], if any, and the result of [GetAgent]. *)
Record StorageProvider := {
  updateAgentHealth : string -> HealthStatus -> option string;
  getAgent : string -> Storage.Result AgentNode
}.

Record HealthMonitor := {
  storage : StorageProvider;
  uiService : bool;
  statusManager : option StatusManager;
  presence : option Presence.PresenceManager;
  activeAgents : gmap string ActiveAgent
}.

Definition setActiveAgents (m : gmap string ActiveAgent) (hm : HealthMonitor)
    : HealthMonitor :=
  {| storage := storage hm; uiService := uiService hm;
     statusManager := statusManager hm; presence := presence hm;
     activeAgents := m |}.

Definition setPresence (p : option Presence.PresenceManager) (hm : HealthMonitor)
    : HealthMonitor :=
  {| storage := storage hm; uiService := uiService hm;
     statusManager := statusManager hm; presence := p;
     activeAgents := activeAgents hm |}.

(** [hm.presence.Touch(nodeID, seenAt)] behind its nil check. *)
Definition touchPresence (nodeID : string) (seenAt : Time) (hm : HealthMonitor)
    : HealthMonitor :=
  setPresence (Presence.Touch nodeID seenAt <$> presence hm) hm.

Definition RegisterAgent (nodeID baseURL : string) (seenAt : Time)
    (hm : HealthMonitor) : HealthMonitor :=
  touchPresence nodeID seenAt
    (setActiveAgents
       (<[nodeID := {| NodeID := nodeID; BaseURL := baseURL;
                       LastStatus := HealthStatusUnknown;
                       LastChecked := seenAt |}]> (activeAgents hm))
       hm).

(** What one call of [checkAgentHealth] meets outside the monitor: the
    answer of [agentClient.GetAgentStatus] (the [Status] field, or an
    error) and the successive readings of the clock. *)
Record Poll := {
  probe : Storage.Result string;
  checkedAt : Time;   (* [time.Now()] under the lock *)
  failedAt : Time;    (* [time.Now()] in the inactive branch *)
  sinceAt : Time;     (* the [time.Now()] of [time.Since] *)
  touchedAt : Time    (* [time.Now()] handed to [presence.Touch] *)
}.

(** The mapping of the probe outcome. *)
Definition probeStatus (p : Storage.Result string) : HealthStatus :=
  match p with
  | Storage.Err _ => HealthStatusInactive
  | Storage.Ok status =>
      if bool_decide (status = "running") then HealthStatusActive
      else HealthStatusInactive
  end.

(** The [switch newStatus] that picks state and score. *)
Definition stateAndScore (newStatus : HealthStatus) : AgentState * Z :=
  match newStatus with
  | HealthStatusActive => (AgentStateActive, 75)
  | HealthStatusInactive => (AgentStateInactive, 0)
  | _ => (AgentStateInactive, 0)
  end.

Definition healthCheckUpdate (newStatus : HealthStatus) : AgentStatusUpdate :=
  {| State := Some (stateAndScore newStatus).1;
     HealthScore := Some (stateAndScore newStatus).2;
     Source := StatusSourceHealthCheck;
     Reason := "HTTP health check result" |}.

Definition isActive (s : HealthStatus) : bool :=
  bool_decide (s = HealthStatusActive).

(** The branch taken when a status manager is there. *)
Definition pushUnified (updateAgentStatus : StatusManager) (hm : HealthMonitor)
    (p : Poll) (nodeID : string) (newStatus : HealthStatus)
    : HealthMonitor * list Effect :=
  let update := healthCheckUpdate newStatus in
  let '(hm, es) :=
    match updateAgentStatus nodeID update with
    | Some _ =>
        (hm, [UpdateAgentStatus nodeID update; UpdateAgentHealth nodeID newStatus])
    | None =>
        (if isActive newStatus then touchPresence nodeID (touchedAt p) hm else hm,
         [UpdateAgentStatus nodeID update])
    end in
  (hm, es ++ if isActive newStatus then [CheckMCPHealthForNode nodeID] else []).

(** The legacy branch. *)
Definition pushLegacy (hm : HealthMonitor) (p : Poll) (nodeID : string)
    (newStatus : HealthStatus) : HealthMonitor * list Effect :=
  match updateAgentHealth (storage hm) nodeID newStatus with
  | Some _ => (hm, [UpdateAgentHealth nodeID newStatus])
  | None =>
      match getAgent (storage hm) nodeID with
      | Storage.Err _ => (hm, [UpdateAgentHealth nodeID newStatus])
      | Storage.Ok updatedAgent =>
          (if isActive newStatus then touchPresence nodeID (touchedAt p) hm else hm,
           [UpdateAgentHealth nodeID newStatus] ++
           (if isActive newStatus then [PublishNodeOnline nodeID updatedAgent]
            else [PublishNodeOffline nodeID updatedAgent]) ++
           [PublishNodeHealthChanged nodeID newStatus updatedAgent] ++
           (if uiService hm then [OnNodeStatusChanged updatedAgent] else []) ++
           (if isActive newStatus then [CheckMCPHealthForNode nodeID] else []))
      end
  end.

Definition checkAgentHealth (hm : HealthMonitor) (p : Poll) (nodeID : string)
    : HealthMonitor * list Effect :=
  match activeAgents hm !! nodeID with
  | None => (hm, [])
  | Some _ =>
      let newStatus := probeStatus (probe p) in
      match activeAgents hm !! nodeID with
      | None => (hm, [])
      | Some activeAgent =>
          let activeAgent := setLastChecked (checkedAt p) activeAgent in
          let statusChanged := bool_decide (LastStatus activeAgent <> newStatus) in
          let activeAgent := setLastStatus newStatus activeAgent in
          if statusChanged then
            let '(activeAgent, tooSoon) :=
              if bool_decide (newStatus = HealthStatusInactive) then
                (setLastChecked (failedAt p) activeAgent, false)
              else if bool_decide (newStatus = HealthStatusActive)
                      && bool_decide (LastStatus activeAgent = HealthStatusInactive)
              then (activeAgent,
                    Sub (sinceAt p) (LastChecked activeAgent) <? 30 * Second)
              else (activeAgent, false) in
            let hm := setActiveAgents (<[nodeID := activeAgent]> (activeAgents hm)) hm in
            if tooSoon then (hm, [])
            else
              match statusManager hm with
              | Some updateAgentStatus =>
                  pushUnified updateAgentStatus hm p nodeID newStatus
              | None => pushLegacy hm p nodeID newStatus
              end
          else
            (setActiveAgents (<[nodeID := activeAgent]> (activeAgents hm)) hm, [])
      end
  end.

(** Whether an effect is a Status Manager update for [nodeID]. *)
Definition pushesStatus (nodeID : string) (e : Effect) : bool :=
  match e with
  | UpdateAgentStatus n _ => bool_decide (n = nodeID)
  | _ => false
  end.

(** Whether an effect is a Status Manager update setting [nodeID] active. *)
Definition pushesActive (nodeID : string) (e : Effect) : bool :=
  match e with
  | UpdateAgentStatus n u =>
      bool_decide (n = nodeID) &&
      match State u with Some AgentStateActive => true | _ => false end
  | _ => false
  end.

(** The agent record as the poll leaves it. *)
Definition polled (p : Poll) (agent : ActiveAgent) : ActiveAgent :=
  let newStatus := probeStatus (probe p) in
  {| NodeID := NodeID agent; BaseURL := BaseURL agent;
     LastStatus := newStatus;
     LastChecked :=
       if bool_decide (LastStatus agent <> newStatus)
          && bool_decide (newStatus = HealthStatusInactive)
       then failedAt p else checkedAt p |}.

End Health.

(** ** Sample data *)

Module Scenario.

Import Go Storage.

(** An execution of [node-1.reasoner-a] as the dispatcher creates it,
    its start time stored in UTC. *)
Definition execution (executionID st : string) (startedAt : Time) : Row :=
  {| execution_id := executionID; run_id := "run-1"; parent_execution_id := None;
     agent_node_id := "node-1"; reasoner_id := "reasoner-a"; node_id := "node-1";
     status := st; input_payload := None; result_payload := None;
     error_message := None; input_uri := None; result_uri := None;
     session_id := None; actor_id := None;
     started_at := startedAt; started_at_zone := UTC;
     completed_at := None; duration_ms := None;
     created_at := startedAt; updated_at := startedAt |}.

(** A store on a working driver, with no webhook registered. *)
Definition localStorage : LocalStorage :=
  {| driver := healthy;
     HasExecutionWebhook := fun _ => Ok false;
     ListExecutionWebhookEvents := fun _ => Ok [] |}.

(** A callback that marks the execution failed, whatever its status. *)
Definition markFailed : Updater :=
  fun current =>
    match current with
    | None => UpdaterErr "execution not found"
    | Some e =>
        UpdaterOk
          {| ExecutionID := ExecutionID e; RunID := RunID e;
             ParentExecutionID := ParentExecutionID e;
             AgentNodeID := AgentNodeID e; ReasonerID := ReasonerID e;
             NodeID := NodeID e; Status := ExecutionStatusFailed;
             InputPayload := InputPayload e; ResultPayload := ResultPayload e;
             ErrorMessage := Some "agent unreachable";
             InputURI := InputURI e; ResultURI := ResultURI e;
             SessionID := SessionID e; ActorID := ActorID e;
             StartedAt := StartedAt e; StartedAtZone := StartedAtZone e;
     CompletedAt := CompletedAt e;
             DurationMS := DurationMS e; CreatedAt := CreatedAt e;
             UpdatedAt := UpdatedAt e;
             WebhookRegistered := WebhookRegistered e;
             WebhookEvents := WebhookEvents e |}
    end.

(** A callback that changes nothing: it returns [(nil, nil)]. *)
Definition leaveAlone : Updater := fun _ => UpdaterNil (fun e => e).


(** The execution as a caller hands it to [CreateExecutionRecord], its
    start time in a zone [zone] minutes east of UTC. *)
Definition dispatched (executionID st : string) (startedAt : Time) (zone : Zone)
    : Execution :=
  {| ExecutionID := executionID; RunID := "run-1"; ParentExecutionID := None;
     AgentNodeID := "node-1"; ReasonerID := "reasoner-a"; NodeID := "node-1";
     Status := st; InputPayload := []; ResultPayload := [];
     ErrorMessage := None; InputURI := None; ResultURI := None;
     SessionID := None; ActorID := None;
     StartedAt := startedAt; StartedAtZone := zone;
     CompletedAt := None; DurationMS := None;
     CreatedAt := zeroTime; UpdatedAt := zeroTime;
     WebhookRegistered := false; WebhookEvents := [] |}.

(** A status manager that accepts every update. *)
Definition statusManager : Types.StatusManager := fun _ _ => None.

(** A presence manager on the default configuration. *)
Definition presenceManager : Presence.PresenceManager :=
  Presence.NewPresenceManager (Some statusManager)
    {| Presence.HeartbeatTTL := 0; Presence.SweepInterval := 0;
       Presence.HardEvictTTL := 0 |}.

Definition provider : Health.StorageProvider :=
  {| Health.updateAgentHealth := fun _ _ => None;
     Health.getAgent := fun nodeID =>
       Ok {| Types.ID := nodeID; Types.AgentBaseURL := "http://node-1:8001";
             Types.AgentHealthStatus := Types.HealthStatusUnknown;
             Types.LastHeartbeat := 0 |} |}.

(** A health monitor on the unified status system, nothing registered. *)
Definition healthMonitor : Health.HealthMonitor :=
  {| Health.storage := provider; Health.uiService := false;
     Health.statusManager := Some statusManager;
     Health.presence := None; Health.activeAgents := ∅ |}.

(** A poll at instant [at] with the given probe outcome. *)
Definition poll (probe : Result string) (at_ : Time) : Health.Poll :=
  {| Health.probe := probe; Health.checkedAt := at_; Health.failedAt := at_;
     Health.sinceAt := at_; Health.touchedAt := at_ |}.

End Scenario.

(** ** Package storage: creating and reading execution records *)

Module Records.

Import Go Storage.

(** [t.IsZero()]. *)
Definition IsZero (t : Time) : bool := bool_decide (t = zeroTime).

(** The three timestamps [CreateExecutionRecord] writes into the struct
    it is handed. *)
Definition stamp (now : Time) (e : Execution) : Execution :=
  {| ExecutionID := ExecutionID e; RunID := RunID e;
     ParentExecutionID := ParentExecutionID e; AgentNodeID := AgentNodeID e;
     ReasonerID := ReasonerID e; NodeID := NodeID e; Status := Status e;
     InputPayload := InputPayload e; ResultPayload := ResultPayload e;
     ErrorMessage := ErrorMessage e; InputURI := InputURI e;
     ResultURI := ResultURI e; SessionID := SessionID e; ActorID := ActorID e;
     StartedAt := if IsZero (StartedAt e) then now else StartedAt e;
     StartedAtZone := if IsZero (StartedAt e) then UTC else StartedAtZone e;
     CompletedAt := CompletedAt e; DurationMS := DurationMS e;
     CreatedAt := now; UpdatedAt := now;
     WebhookRegistered := WebhookRegistered e;
     WebhookEvents := WebhookEvents e |}.

(** The row of [INSERT INTO executions (...) VALUES (?, ..., ?)]. *)
Definition insertRow (e : Execution) : Row :=
  {| execution_id := ExecutionID e;
     run_id := RunID e;
     parent_execution_id := ParentExecutionID e;
     agent_node_id := AgentNodeID e;
     reasoner_id := ReasonerID e;
     node_id := NodeID e;
     status := Status e;
     input_payload := bytesOrNil (InputPayload e);
     result_payload := bytesOrNil (ResultPayload e);
     error_message := ErrorMessage e;
     input_uri := InputURI e;
     result_uri := ResultURI e;
     session_id := SessionID e;
     actor_id := ActorID e;
     started_at := StartedAt e;
     started_at_zone := StartedAtZone e;
     completed_at := CompletedAt e;
     duration_ms := DurationMS e;
     created_at := CreatedAt e;
     updated_at := UpdatedAt e |}.

(** [CreateExecutionRecord]: the result is the struct as the call leaves
    it.  The INSERT shows in the table only: [issued] lists the
    statements of the read and update paths.  A constraint the schema
    may put on the table is an error of the driver. *)
Definition CreateExecutionRecord (ls : LocalStorage) (now : Time)
    (exec : option Execution) : M Execution :=
  match exec with
  | None => fail "nil execution payload"
  | Some exec =>
      let exec := stamp now exec in
      check (driver ls) Exec 0 "insert execution" ;;;
      t <- read ;;
      write (t ++ [insertRow exec]) ;;;
      ret exec
  end.

(** [GetExecutionRecord]. *)
Definition GetExecutionRecord (ls : LocalStorage) (executionID : string)
    : M (option Execution) :=
  row <- queryRow executionID ;;
  exec <- scanExecution (driver ls) row ;;
  match exec with
  | None => ret None
  | Some _ => ret (enrichExecutionWebhook ls exec true)
  end.

(** The struct with the creation time of the stored row. *)
Definition setCreatedAt (createdAt : Time) (e : Execution) : Execution :=
  {| ExecutionID := ExecutionID e; RunID := RunID e;
     ParentExecutionID := ParentExecutionID e; AgentNodeID := AgentNodeID e;
     ReasonerID := ReasonerID e; NodeID := NodeID e; Status := Status e;
     InputPayload := InputPayload e; ResultPayload := ResultPayload e;
     ErrorMessage := ErrorMessage e; InputURI := InputURI e;
     ResultURI := ResultURI e; SessionID := SessionID e; ActorID := ActorID e;
     StartedAt := StartedAt e; StartedAtZone := StartedAtZone e;
     CompletedAt := CompletedAt e;
     DurationMS := DurationMS e; CreatedAt := createdAt;
     UpdatedAt := UpdatedAt e;
     WebhookRegistered := WebhookRegistered e;
     WebhookEvents := WebhookEvents e |}.

(** A row as a sweep may leave it: as it was, or, if it was in flight,
    timed out at [now] with some duration. *)
Definition sweptRow (now : Time) (r r' : Row) : Prop :=
  r' = r \/
  (statusInFlight (status r) = true /\
   exists durationMS, 0 <= durationMS /\ timedOut now durationMS r r').

(** Both views of the connection hold the rows of [t0], each as a sweep
    at [now] may leave it. *)
Definition swept (now : Time) (t0 : Table) (c : Conn) : Prop :=
  Forall2 (sweptRow now) t0 (committed c) /\
  (forall t, pending c = Some t -> Forall2 (sweptRow now) t0 t).

(** The number of stale records whose UPDATE changes a row, the
    updates applied one after the other. *)
Fixpoint reapCount (now : Time) (stale : list staleRecord) (t : Table) : Z :=
  match stale with
  | [] => 0
  | rec :: stale =>
      (if 0 <? affected (staleUpdate now rec) t then 1 else 0) +
      reapCount now stale (applyStmt (staleUpdate now rec) t)
  end.

(** [rtriple P m Q]: from a connection satisfying [P], [m] ends with a
    result and a connection related by [Q]. *)
Definition rtriple {A} (P : Conn -> Prop) (m : M A)
    (Q : Result A -> Conn -> Prop) : Prop :=
  forall c r c', m c = (r, c') -> P c -> Q r c'.

(** A transaction is open on the table [t0] as committed. *)
Definition inTx (t0 : Table) (c : Conn) : Prop :=
  committed c = t0 /\ is_Some (pending c).

Global Instance startedNoLater_trans : Transitive startedNoLater.
Proof.
  intros x y z. unfold startedNoLater, textLe, offsetTextLe.
  set (wx := wallClock (started_at x) (started_at_zone x)).
  set (wy := wallClock (started_at y) (started_at_zone y)).
  set (wz := wallClock (started_at z) (started_at_zone z)).
  destruct (Z.ltb_spec wx wy), (Z.eqb_spec wx wy), (Z.ltb_spec wy wz),
    (Z.eqb_spec wy wz), (Z.ltb_spec wx wz), (Z.eqb_spec wx wz);
    cbn [orb andb]; try done; try lia;
    destruct (Z.ltb_spec (started_at_zone x) 0), (Z.ltb_spec (started_at_zone y) 0),
      (Z.ltb_spec (started_at_zone z) 0);
    cbn [orb andb]; try done; rewrite ?Z.leb_le; lia.
Qed.

Global Instance startedNoLater_total : Total startedNoLater.
Proof.
  intros x y. unfold startedNoLater, textLe, offsetTextLe.
  set (wx := wallClock (started_at x) (started_at_zone x)).
  set (wy := wallClock (started_at y) (started_at_zone y)).
  destruct (Z.ltb_spec wx wy), (Z.eqb_spec wx wy), (Z.ltb_spec wy wx),
    (Z.eqb_spec wy wx); cbn [orb andb]; try (by left); try (by right); try lia;
    destruct (Z.ltb_spec (started_at_zone x) 0), (Z.ltb_spec (started_at_zone y) 0);
    cbn [orb andb]; try (by left); try (by right); rewrite ?Z.leb_le; lia.
Qed.

End Records.

(** ** Package storage: the text of QueryExecutionRecords *)

Module Query.

Import Go.

(** [types.ExecutionFilter], with the fields the query builder reads. *)
Record ExecutionFilter := {
  ExecutionID : option string;
  RunID : option string;
  ParentExecutionID : option string;
  AgentNodeID : option string;
  ReasonerID : option string;
  Status : option string;
  SessionID : option string;
  ActorID : option string;
  StartTime : option Time;
  EndTime : option Time;
  SortBy : string;
  SortDescending : bool;
  Limit : Z;
  Offset : Z
}.

(** A value bound to a placeholder; [UTC()] keeps the instant. *)
Inductive Arg :=
| ArgString (s : string)
| ArgTime (t : Time).

(** [if field != nil { where = append(where, text); args = append(args, *field) }]. *)
Definition condition {A} (text : string) (arg : A -> Arg) (field : option A)
    (acc : list string * list Arg) : list string * list Arg :=
  match field with
  | Some v => (acc.1 ++ [text], acc.2 ++ [arg v])
  | None => acc
  end.

Definition conditions (filter : ExecutionFilter) : list string * list Arg :=
  condition "started_at <= ?" ArgTime (EndTime filter)
    (condition "started_at >= ?" ArgTime (StartTime filter)
       (condition "actor_id = ?" ArgString (ActorID filter)
          (condition "session_id = ?" ArgString (SessionID filter)
             (condition "status = ?" ArgString (Status filter)
                (condition "reasoner_id = ?" ArgString (ReasonerID filter)
                   (condition "agent_node_id = ?" ArgString (AgentNodeID filter)
                      (condition "parent_execution_id = ?" ArgString
                         (ParentExecutionID filter)
                         (condition "run_id = ?" ArgString (RunID filter)
                            (condition "execution_id = ?" ArgString
                               (ExecutionID filter) ([], [])))))))))).

(** [strings.Join(elems, sep)]. *)
Fixpoint Join (elems : list string) (sep : string) : string :=
  match elems with
  | [] => ""
  | [e] => e
  | e :: elems => e +:+ sep +:+ Join elems sep
  end.

(** The [switch filter.SortBy]. *)
Definition orderColumn (sortBy : string) : string :=
  if bool_decide (sortBy = "status") then "status"
  else if bool_decide (sortBy = "duration_ms") then "duration_ms"
  else if bool_decide (sortBy = "agent_node_id") then "agent_node_id"
  else if bool_decide (sortBy = "reasoner_id") then "reasoner_id"
  else if bool_decide (sortBy = "execution_id") then "execution_id"
  else if bool_decide (sortBy = "run_id") then "run_id"
  else if bool_decide (sortBy = "created_at") then "created_at"
  else if bool_decide (sortBy = "updated_at") then "updated_at"
  else "started_at".

Definition sortColumns : list string :=
  ["status"; "duration_ms"; "agent_node_id"; "reasoner_id"; "execution_id";
   "run_id"; "created_at"; "updated_at"; "started_at"].

(** The digits of a number below ten to the power [fuel], most
    significant first. *)
Fixpoint decimalDigits (fuel : nat) (n : Z) : string :=
  match fuel with
  | O => ""
  | S fuel =>
      let digit := String (Ascii.ascii_of_nat (48 + Z.to_nat (n mod 10))) "" in
      if n <? 10 then digit else decimalDigits fuel (n / 10) +:+ digit
  end.

(** [fmt.Sprintf("%d", n)] for an [int]. *)
Definition decimal (n : Z) : string :=
  if n <? 0 then "-" +:+ decimalDigits 20 (- n) else decimalDigits 20 n.

Definition selectExecutions : string := "
		SELECT execution_id, run_id, parent_execution_id,
		       agent_node_id, reasoner_id, node_id,
		       status, input_payload, result_payload, error_message,
		       input_uri, result_uri,
		       session_id, actor_id,
		       started_at, completed_at, duration_ms,
		       created_at, updated_at
		FROM executions".

(** The text handed to [db.QueryContext] and the arguments bound to it. *)
Definition queryText (filter : ExecutionFilter) : string * list Arg :=
  let '(where_, args) := conditions filter in
  let text := selectExecutions in
  let text :=
    if (0 <? length where_)%nat then text +:+ " WHERE " +:+ Join where_ " AND "
    else text in
  let orderDirection := if negb (SortDescending filter) then "ASC" else "DESC" in
  let text :=
    text +:+ (" ORDER BY " +:+ orderColumn (SortBy filter) +:+ " " +:+ orderDirection) in
  let text :=
    if 0 <? Limit filter then text +:+ (" LIMIT " +:+ decimal (Limit filter))
    else text in
  let text :=
    if 0 <? Offset filter then text +:+ (" OFFSET " +:+ decimal (Offset filter))
    else text in
  (text, args).

(** The placeholders of a statement text. *)
Fixpoint placeholders (text : string) : nat :=
  match text with
  | EmptyString => 0
  | String a text => (if bool_decide (String a "" = "?") then 1 else 0) + placeholders text
  end.

(** The filter with every value it carries blanked out: which fields
    are set, the sort column it selects, the direction, and the limit
    and offset that get printed. *)
Definition blank {A} (v : A) (field : option A) : option A :=
  match field with
  | Some _ => Some v
  | None => None
  end.

Definition shape (f : ExecutionFilter) : ExecutionFilter :=
  {| ExecutionID := blank "" (ExecutionID f);
     RunID := blank "" (RunID f);
     ParentExecutionID := blank "" (ParentExecutionID f);
     AgentNodeID := blank "" (AgentNodeID f);
     ReasonerID := blank "" (ReasonerID f);
     Status := blank "" (Status f);
     SessionID := blank "" (SessionID f);
     ActorID := blank "" (ActorID f);
     StartTime := blank zeroTime (StartTime f);
     EndTime := blank zeroTime (EndTime f);
     SortBy := orderColumn (SortBy f);
     SortDescending := SortDescending f;
     Limit := Z.max 0 (Limit f);
     Offset := Z.max 0 (Offset f) |}.

End Query.

(** ** Package services: the registry of the health monitor *)

Module Registry.

Import Go Types Health.

(** [hm.presence.Forget(nodeID)] behind its nil check. *)
Definition forgetPresence (nodeID : string) (hm : HealthMonitor) : HealthMonitor :=
  setPresence (Presence.Forget nodeID <$> presence hm) hm.

Definition unregisteredUpdate : AgentStatusUpdate :=
  {| State := Some AgentStateInactive; HealthScore := Some 0;
     Source := StatusSourceHealthCheck;
     Reason := "agent unregistered from health monitoring" |}.

Definition UnregisterAgent (nodeID : string) (hm : HealthMonitor)
    : HealthMonitor * list Effect :=
  match activeAgents hm !! nodeID with
  | None => (hm, [])
  | Some _ =>
      let hm := setActiveAgents (delete nodeID (activeAgents hm)) hm in
      let hm := forgetPresence nodeID hm in
      (hm,
       match statusManager hm with
       | Some updateAgentStatus =>
           UpdateAgentStatus nodeID unregisteredUpdate ::
           match updateAgentStatus nodeID unregisteredUpdate with
           | Some _ => [UpdateAgentHealth nodeID HealthStatusInactive]
           | None => []
           end
       | None =>
           UpdateAgentHealth nodeID HealthStatusInactive ::
           if uiService hm then
             match getAgent (storage hm) nodeID with
             | Storage.Ok agent =>
                 [PublishNodeOffline nodeID agent;
                  PublishNodeHealthChanged nodeID HealthStatusInactive agent;
                  OnNodeStatusChanged agent]
             | Storage.Err _ => []
             end
           else []
       end)
  end.

(** The loop of [checkActiveAgents] over the snapshot; [polls] gives what
    the check of each node meets. *)
Fixpoint checkAgents (polls : string -> Poll) (agents : list ActiveAgent)
    (hm : HealthMonitor) : HealthMonitor * list Effect :=
  match agents with
  | [] => (hm, [])
  | agent :: agents =>
      let '(hm1, e1) := checkAgentHealth hm (polls (NodeID agent)) (NodeID agent) in
      let '(hm2, e2) := checkAgents polls agents hm1 in
      (hm2, e1 ++ e2)
  end.

(** Go ranges over the map in no fixed order; the order of the map's
    listing stands for it. *)
Definition checkActiveAgents (polls : string -> Poll) (hm : HealthMonitor)
    : HealthMonitor * list Effect :=
  let agents := (map_to_list (activeAgents hm)).*2 in
  if (length agents =? 0)%nat then (hm, []) else checkAgents polls agents hm.

(** Every record sits under its own node id, as [RegisterAgent] files it. *)
Definition keyed (hm : HealthMonitor) : Prop :=
  forall nodeID agent, activeAgents hm !! nodeID = Some agent -> NodeID agent = nodeID.

(** A monitor on the legacy store, with a UI service, nothing registered. *)
Definition legacyMonitor : HealthMonitor :=
  {| storage := Scenario.provider; uiService := true; statusManager := None;
     presence := Some Scenario.presenceManager; activeAgents := ∅ |}.

End Registry.

(** ** Dashboard: incidents, agent health and latest activity *)

Module Overview.

Import Go.

(** [t.After(u)]. *)
Definition After (t u : Time) : bool := u <? t.

Definition maxTime (current candidate : Time) : Time :=
  if Records.IsZero current then candidate
  else if After candidate current then candidate
  else current.

(** [sort.Slice] is handed to the builders below: it is not stable, so
    the order it leaves among elements that compare equal is not fixed.
    What is to be known of it is said where it matters: its result is a
    rearrangement of the slice in which no element is [less] than one
    before it. *)
Definition ordered {A} (less : A -> A -> bool) (x y : A) : Prop := less y x = false.

Global Instance ordered_dec {A} (less : A -> A -> bool) : RelDecision (ordered less).
Proof. intros x y. unfold ordered. apply _. Defined.

Definition sorts {A} (less : A -> A -> bool) (sortSlice : list A -> list A) : Prop :=
  forall l, sortSlice l ≡ₚ l /\ StronglySorted (ordered less) (sortSlice l).

(** One sorting procedure: merge sort. *)
Definition mergeSort {A} (less : A -> A -> bool) (l : list A) : list A :=
  merge_sort (ordered less) l.

(** *** buildIncidentItems *)

Record IncidentItem := {
  ExecutionID : string;
  WorkflowID : string;
  Name : string;
  Status : string;
  StartedAt : Time;
  CompletedAt : option Time;
  AgentNodeID : string;
  ReasonerID : string;
  Error : string
}.

(** The test that [continue]s past an execution; [normalize] is
    [types.NormalizeExecutionStatus], which lives in another file. *)
Definition skipped (normalize : string -> string) (exec : Storage.Execution) : bool :=
  let normalized := normalize (Storage.Status exec) in
  bool_decide (normalized <> Storage.ExecutionStatusFailed)
  && bool_decide (normalized <> Storage.ExecutionStatusTimeout)
  && bool_decide (normalized <> Storage.ExecutionStatusCancelled).

Definition incidentItem (exec : Storage.Execution) : IncidentItem :=
  let errorMessage :=
    match Storage.ErrorMessage exec with
    | Some message => message
    | None => ""
    end in
  {| ExecutionID := Storage.ExecutionID exec;
     WorkflowID := Storage.RunID exec;
     Name := Storage.ReasonerID exec;
     Status := Storage.Status exec;
     StartedAt := Storage.StartedAt exec;
     CompletedAt := Storage.CompletedAt exec;
     AgentNodeID := Storage.AgentNodeID exec;
     ReasonerID := Storage.ReasonerID exec;
     Error := errorMessage |}.

(** The comparison handed to [sort.Slice]. *)
Definition startedAfter (a b : IncidentItem) : bool := After (StartedAt a) (StartedAt b).

(** [None] stands for the panic of [make] on a capacity that is negative
    or above [maxCap], the largest the runtime grants for this element
    type. *)
Definition buildIncidentItems (normalize : string -> string)
    (sortSlice : list IncidentItem -> list IncidentItem) (maxCap : Z)
    (executions : list Storage.Execution) (limit : Z) : option (list IncidentItem) :=
  if (limit <? 0) || (maxCap <? limit) then None
  else
    let incidents :=
      executions ≫= (fun exec =>
        if skipped normalize exec then [] else [incidentItem exec]) in
    let incidents := sortSlice incidents in
    Some (if limit <? Z.of_nat (length incidents)
          then take (Z.to_nat limit) incidents
          else incidents).

(** *** buildAgentHealthSummary *)

(** [types.AgentNode], with the fields the summary reads; of the
    reasoners and skills only the number is used. *)
Record AgentNode := {
  ID : string;
  TeamID : string;
  Version : string;
  HealthStatus : string;
  LifecycleStatus : string;
  LastHeartbeat : Time;
  Reasoners : Z;
  Skills : Z
}.

(** What [agentService.GetAgentStatus] answers, as far as it is read. *)
Record AgentStatus := {
  IsRunning : bool;
  Uptime : string
}.

Record AgentHealthItem := {
  itemID : string;
  itemTeamID : string;
  itemVersion : string;
  itemStatus : string;
  itemHealth : string;
  itemLifecycle : string;
  itemLastHeartbeat : Time;
  itemReasoners : Z;
  itemSkills : Z;
  itemUptime : string
}.

Record AgentHealthSummary := {
  Total : Z;
  Active : Z;
  Degraded : Z;
  Offline : Z;
  Agents : list AgentHealthItem
}.

(** The constants of package [types] the summary compares with, and the
    agent service it asks. *)
Record Services := {
  AgentStatusDegraded : string;
  HealthStatusInactive : string;
  GetAgentStatus : string -> Storage.Result (option AgentStatus)
}.

Definition healthItem (agent : AgentNode) (status uptime : string) : AgentHealthItem :=
  {| itemID := ID agent; itemTeamID := TeamID agent; itemVersion := Version agent;
     itemStatus := status; itemHealth := HealthStatus agent;
     itemLifecycle := LifecycleStatus agent;
     itemLastHeartbeat := LastHeartbeat agent;
     itemReasoners := Reasoners agent; itemSkills := Skills agent;
     itemUptime := uptime |}.

Definition isDegraded (h : Services) (agent : AgentNode) : bool :=
  bool_decide (LifecycleStatus agent = AgentStatusDegraded h)
  || bool_decide (HealthStatus agent = HealthStatusInactive h).

(** One turn of the loop over the agents: the counters and [items]. *)
Definition countAgent (h : Services) (acc : AgentHealthSummary * list AgentHealthItem)
    (agent : AgentNode) : AgentHealthSummary * list AgentHealthItem :=
  let '(summary, items) := acc in
  let degraded := fun status uptime =>
    ({| Total := Total summary; Active := Active summary;
        Degraded := Degraded summary + 1; Offline := Offline summary;
        Agents := Agents summary |}, items ++ [healthItem agent status uptime]) in
  let offline := fun status uptime =>
    ({| Total := Total summary; Active := Active summary;
        Degraded := Degraded summary; Offline := Offline summary + 1;
        Agents := Agents summary |}, items ++ [healthItem agent status uptime]) in
  let active := fun status uptime =>
    ({| Total := Total summary; Active := Active summary + 1;
        Degraded := Degraded summary; Offline := Offline summary;
        Agents := Agents summary |}, items ++ [healthItem agent status uptime]) in
  if isDegraded h agent then degraded "degraded" ""
  else
    match GetAgentStatus h (ID agent) with
    | Storage.Err _ => offline "offline" ""
    | Storage.Ok (Some status) =>
        if IsRunning status then active "running" (Uptime status)
        else offline "offline" (Uptime status)
    | Storage.Ok None => offline "offline" ""
    end.

(** [priority[status]]; a status that is no key of the map gives 0. *)
Definition priority (status : string) : Z :=
  if bool_decide (status = "degraded") then 0
  else if bool_decide (status = "offline") then 1
  else if bool_decide (status = "running") then 2
  else if bool_decide (status = "unknown") then 3
  else 0.

(** The comparison handed to [sort.Slice]. *)
Definition moreUrgent (a b : AgentHealthItem) : bool :=
  let pi := priority (itemStatus a) in
  let pj := priority (itemStatus b) in
  if pi =? pj then After (itemLastHeartbeat a) (itemLastHeartbeat b)
  else pi <? pj.

Definition buildAgentHealthSummary (h : Services)
    (sortSlice : list AgentHealthItem -> list AgentHealthItem)
    (agents : list AgentNode) : AgentHealthSummary :=
  let summary := {| Total := Z.of_nat (length agents); Active := 0; Degraded := 0;
                    Offline := 0; Agents := [] |} in
  let '(summary, items) := foldl (countAgent h) (summary, []) agents in
  let summary :=
    if Offline summary <? 0 then
      {| Total := Total summary; Active := Active summary;
         Degraded := Degraded summary; Offline := 0; Agents := Agents summary |}
    else summary in
  let items := sortSlice items in
  let items := if (12 <? length items)%nat then take 12 items else items in
  {| Total := Total summary; Active := Active summary; Degraded := Degraded summary;
     Offline := Offline summary; Agents := items |}.

(** The status and uptime the loop gives an agent. *)
Definition classified (h : Services) (agent : AgentNode) (status uptime : string) : Prop :=
  if isDegraded h agent then status = "degraded" /\ uptime = ""
  else
    match GetAgentStatus h (ID agent) with
    | Storage.Ok (Some st) =>
        status = (if IsRunning st then "running" else "offline") /\ uptime = Uptime st
    | _ => status = "offline" /\ uptime = ""
    end.

(** Whether the agent service finds the agent running. *)
Definition running (h : Services) (agent : AgentNode) : bool :=
  match GetAgentStatus h (ID agent) with
  | Storage.Ok (Some status) => IsRunning status
  | _ => false
  end.

(** *** getAgentsSummary *)

Record AgentsSummary := {
  summaryRunning : Z;
  summaryTotal : Z
}.

(** The loop that counts the running agents.  [None] stands for the
    nil-pointer panic of [status.IsRunning] when the agent service
    answers neither a status nor an error. *)
Fixpoint countRunning (h : Services) (agents : list AgentNode) (count : Z) : option Z :=
  match agents with
  | [] => Some count
  | agent :: agents =>
      match GetAgentStatus h (ID agent) with
      | Storage.Err _ => countRunning h agents count
      | Storage.Ok None => None
      | Storage.Ok (Some status) =>
          countRunning h agents (if IsRunning status then count + 1 else count)
      end
  end.

(** [listAgents] is what [storage.ListAgents] answers. *)
Definition getAgentsSummary (h : Services) (listAgents : Storage.Result (list AgentNode))
    : option (Storage.Result AgentsSummary) :=
  match listAgents with
  | Storage.Err err => Some (Storage.Err err)
  | Storage.Ok agents =>
      match countRunning h agents 0 with
      | None => None
      | Some count =>
          Some (Storage.Ok {| summaryRunning := count;
                              summaryTotal := Z.of_nat (length agents) |})
      end
  end.

(** Sample data: an agent, and an agent service that reaches every
    node but [node-3] and finds it running. *)
Definition agent (nodeID health : string) (heartbeat : Time) : AgentNode :=
  {| ID := nodeID; TeamID := "team-1"; Version := "1.0.0"; HealthStatus := health;
     LifecycleStatus := "ready"; LastHeartbeat := heartbeat;
     Reasoners := 1; Skills := 0 |}.

Definition services : Services :=
  {| AgentStatusDegraded := "degraded"; HealthStatusInactive := "inactive";
     GetAgentStatus := fun nodeID =>
       if bool_decide (nodeID = "node-3") then Storage.Err "connection refused"
       else Storage.Ok (Some {| IsRunning := true; Uptime := "1h" |}) |}.

End Overview.

(** ** Dashboard: the response caches *)

Module Cache.

Import Go.

(** [DashboardCache] and [EnhancedDashboardCache] differ in the type of
    the response only; [data] is a pointer, nil in a new cache. *)
Record DashboardCache (Response : Type) := {
  data : option Response;
  timestamp : Time;
  ttl : Duration
}.
Global Arguments data {Response} _.
Global Arguments timestamp {Response} _.
Global Arguments ttl {Response} _.

Definition NewDashboardCache {Response} : DashboardCache Response :=
  {| data := None; timestamp := zeroTime; ttl := 30 * Second |}.

(** [now] is the clock reading of [time.Since]. *)
Definition Get {Response} (now : Time) (c : DashboardCache Response)
    : option Response * bool :=
  match data c with
  | Some response =>
      if Sub now (timestamp c) <? ttl c then (Some response, true) else (None, false)
  | None => (None, false)
  end.

(** [now] is the clock reading of [time.Now()]. *)
Definition Set_ {Response} (now : Time) (response : option Response)
    (c : DashboardCache Response) : DashboardCache Response :=
  {| data := response; timestamp := now; ttl := ttl c |}.

(** A history of calls of [Set], oldest first, on a new cache. *)
Definition written {Response} (writes : list (Time * option Response))
    : DashboardCache Response :=
  foldl (fun c w => Set_ w.1 w.2 c) NewDashboardCache writes.

End Cache.

(** ** Proof automation *)

(** Closes a goal whose hypothesis [H] places a value among list elements
    built from other constructors. *)
Ltac not_among H :=
  cbn in H;
  repeat (apply elem_of_cons in H as [H|H]; [discriminate H|]);
  by apply elem_of_nil in H.

(** * Properties *)

(** ** Go numerics *)

Module GoFacts.

Import Go.

Lemma wrap64_id z : inInt64 z -> wrap64 z = z.
Proof.
  unfold inInt64, minInt64, maxInt64, wrap64. intros H.
  rewrite Z.mod_small by lia. lia.
Qed.

Lemma float64_of_int64_exact x :
  - 2 ^ 53 <= x <= 2 ^ 53 -> float64_of_int64 x = x.
Proof.
  intros H. unfold float64_of_int64.
  destruct (Z.ltb_spec (Z.abs x) (2 ^ 53)) as [|Hge]; [reflexivity|].
  assert (Ha : Z.abs x = 2 ^ 53) by lia.
  rewrite Ha.
  replace (Z.log2 (2 ^ 53) - 52) with 1 by (rewrite Z.log2_pow2; lia).
  assert (Hr : roundHalfEven (2 ^ 53) (2 ^ 1) = 2 ^ 52) by reflexivity.
  rewrite Hr. destruct (Z.abs_spec x) as [[? Hx]|[? Hx]].
  - rewrite Z.sgn_pos by lia. lia.
  - rewrite Z.sgn_neg by lia. lia.
Qed.

Lemma Sub_ge t u d : minInt64 < d <= maxInt64 -> d <= Sub t u <-> d <= t - u.
Proof. unfold Sub. lia. Qed.

Lemma Milliseconds_nonneg d : 0 <= d -> 0 <= Milliseconds d.
Proof.
  intros H. unfold Milliseconds, Millisecond.
  rewrite Z.quot_div_nonneg by lia. apply Z.div_pos; lia.
Qed.

Example float64_of_int64_ties_to_even :
  float64_of_int64 (2 ^ 53 + 1) = 2 ^ 53 /\
  float64_of_int64 (2 ^ 53 + 3) = 2 ^ 53 + 4 /\
  float64_of_int64 (- (2 ^ 53 + 3)) = - (2 ^ 53 + 4) /\
  float64_of_int64 maxInt64 = 2 ^ 63.
Proof. repeat split; reflexivity. Qed.

Example wrap64_overflow : wrap64 (maxInt64 + 1) = minInt64.
Proof. reflexivity. Qed.

Example Milliseconds_truncates :
  Milliseconds 1999999 = 1 /\ Milliseconds (- 1999999) = - 1.
Proof. split; reflexivity. Qed.

End GoFacts.

(** ** The dashboard median *)

Module DashboardFacts.

Import Go Dashboard.

Lemma sortSlice_unique (values s : list Z) :
  Sorted Z.le s -> s ≡ₚ values -> sortSlice values = s.
Proof.
  intros Hs Hp. unfold sortSlice.
  apply (Sorted_unique Z.le); [apply Sorted_merge_sort; apply _ | exact Hs |].
  rewrite merge_sort_Permutation. symmetry. exact Hp.
Qed.

Lemma index_exact (s : list Z) i : Forall exactSample s -> exactSample (index s i).
Proof.
  intros HF. unfold index. destruct (s !! i) as [v|] eqn:E; simpl.
  - eapply Forall_lookup_1 in E; eauto.
  - unfold exactSample. lia.
Qed.

Lemma odd_mod2 n : Nat.odd n = (n mod 2 =? 1)%nat.
Proof.
  pose proof (Nat.mod_upper_bound n 2 ltac:(lia)) as Hlt.
  rewrite (Nat.div_mod_eq n 2) at 1.
  rewrite Nat.add_comm, Nat.odd_add_mul_2.
  destruct (n mod 2)%nat as [|[|k]]; [reflexivity | reflexivity | lia].
Qed.

(** C9, as stated, fails: a single sample [2^53 + 1] is its own median,
    but its conversion to [float64] is [2^53]. *)
Lemma computeMedian_inexact_above_2p53 :
  ~ Qeq (computeMedian [9007199254740993]) (statisticalMedian [9007199254740993]).
Proof. vm_compute. discriminate. Qed.

(** C9 (amended): for samples of magnitude at most [2^52], [computeMedian]
    is the statistical median of the samples taken in ascending order: 0
    for no sample, the middle element for an odd count, the arithmetic
    mean of the two middle elements for an even count. *)
Theorem computeMedian_statistical (values ascending : list Z) :
  Forall exactSample values ->
  Sorted Z.le ascending ->
  ascending ≡ₚ values ->
  Qeq (computeMedian values) (statisticalMedian ascending).
Proof.
  intros Hex Hs Hp.
  assert (Hex' : Forall exactSample ascending) by (rewrite Hp; exact Hex).
  assert (Hlen : length values = length ascending) by (rewrite Hp; reflexivity).
  unfold computeMedian. rewrite (sortSlice_unique _ _ Hs Hp), Hlen. cbv zeta.
  unfold statisticalMedian.
  destruct ascending as [|a0 rest] eqn:E; [reflexivity|].
  rewrite <- E in *. replace (length ascending =? 0)%nat with false
    by (rewrite E; reflexivity).
  replace (match ascending with [] => 0%Q | _ :: _ =>
             if Nat.odd (length ascending)
             then inject_Z (index ascending (length ascending / 2))
             else ((inject_Z (index ascending (length ascending / 2 - 1)) +
                    inject_Z (index ascending (length ascending / 2))) / 2)%Q
           end)
    with (if Nat.odd (length ascending)
          then inject_Z (index ascending (length ascending / 2))
          else ((inject_Z (index ascending (length ascending / 2 - 1)) +
                 inject_Z (index ascending (length ascending / 2))) / 2)%Q)
    by (rewrite E; reflexivity).
  rewrite odd_mod2.
  pose proof (index_exact ascending (length ascending / 2) Hex') as H1.
  pose proof (index_exact ascending (length ascending / 2 - 1) Hex') as H2.
  unfold exactSample in H1, H2.
  destruct (length ascending mod 2 =? 1)%nat.
  - rewrite GoFacts.float64_of_int64_exact by lia. reflexivity.
  - rewrite GoFacts.wrap64_id by (unfold inInt64, minInt64, maxInt64; lia).
    rewrite GoFacts.float64_of_int64_exact by lia.
    rewrite inject_Z_plus. reflexivity.
Qed.

Lemma computeMedian_statistical_witness :
  Qeq (computeMedian [40; 10; 30; 20]) (statisticalMedian [10; 20; 30; 40]).
Proof.
  apply computeMedian_statistical.
  - repeat constructor; unfold exactSample; lia.
  - repeat constructor; lia.
  - apply (bool_decide_unpack _). vm_compute. reflexivity.
Defined.

Example computeMedian_samples :
  computeMedian [] = 0%Q /\
  computeMedian [30; 10; 20] = inject_Z 20 /\
  Qeq (computeMedian [40; 10; 30; 20]) (25 # 1) /\
  Qeq (computeMedian [1; 2]) (3 # 2).
Proof. repeat split; reflexivity. Qed.

(** Outside the exact range the [int64] sum of the two middle samples
    wraps around. *)
Example computeMedian_sum_wraps :
  computeMedian [2 ^ 62; 2 ^ 62] = (inject_Z (- 2 ^ 63) / 2)%Q.
Proof. reflexivity. Qed.

End DashboardFacts.

(** ** The executions table *)

Module StorageFacts.

Import Go Storage.

Lemma terminal_not_in_flight s : terminalStatus s -> statusInFlight s = false.
Proof. intros [-> | [-> | [-> | ->]]]; vm_compute; reflexivity. Qed.

Lemma in_flight_spec s :
  statusInFlight s = true <-> s ∈ ["running"; "pending"; "queued"].
Proof. unfold statusInFlight. apply bool_decide_eq_true. Qed.

Lemma timeout_not_in_flight : statusInFlight ExecutionStatusTimeout = false.
Proof. vm_compute; reflexivity. Qed.

(** *** Reasoning about computations on the connection *)

Lemma bind_inv {A B} (m : M A) (k : A -> M B) c r c' :
  bind m k c = (r, c') ->
  (exists a c1, m c = (Ok a, c1) /\ k a c1 = (r, c')) \/
  (exists e, m c = (Err e, c') /\ r = Err e).
Proof.
  unfold bind. destruct (m c) as [[a|e] c1] eqn:E; intros H.
  - left. eauto.
  - right. inversion H; subst. eauto.
Qed.

Lemma triple_ret {A} (a : A) P : triple P (ret a) P.
Proof. intros c r c' H; inversion H; subst; auto. Qed.

Lemma triple_fail {A} msg P : triple P (@fail A msg) P.
Proof. intros c r c' H; inversion H; subst; auto. Qed.

Lemma triple_bind {A B} (m : M A) (k : A -> M B) P R Q :
  triple P m R -> (forall a, triple R (k a) Q) -> (forall c, R c -> Q c) ->
  triple P (bind m k) Q.
Proof.
  intros Hm Hk HRQ c r c' H HP.
  apply bind_inv in H as [(a & c1 & H1 & H2)|(e & H1 & ->)].
  - eapply Hk; eauto.
  - eapply HRQ, Hm; eauto.
Qed.

Lemma triple_seq {A B} (m : M A) (k : A -> M B) P :
  triple P m P -> (forall a, triple P (k a) P) -> triple P (bind m k) P.
Proof. intros; eapply triple_bind; eauto. Qed.

Lemma triple_weaken {A} (m : M A) (P P' Q Q' : Conn -> Prop) :
  triple P m Q -> (forall c, P' c -> P c) -> (forall c, Q c -> Q' c) ->
  triple P' m Q'.
Proof. intros H HP HQ c r c' E HP'. eapply HQ, H; eauto. Qed.

Lemma triple_check drv call i msg P : triple P (check drv call i msg) P.
Proof. unfold check. destruct (drv call i); [apply triple_fail | apply triple_ret]. Qed.

(** *** What every statement of a sweep leaves alone *)

Lemma reaperStmt_frame s t i row :
  reaperStmt s -> t !! i = Some row -> statusInFlight (status row) = false ->
  applyStmt s t !! i = Some row.
Proof.
  destruct s; try done; unfold applyStmt.
  intros _ Hl Hs. rewrite list_lookup_fmap, Hl. simpl.
  unfold staleUpdateApplies. rewrite Hs, andb_false_r. done.
Qed.

Lemma untouched_kept t0 c : untouched t0 c -> kept t0 c.
Proof.
  intros (Hs & Hc & Hp). split; [done|]. intros i row Hl _.
  rewrite Hc, Hp. by split.
Qed.

Lemma send_kept s t0 : reaperStmt s -> triple (kept t0) (send s) (kept t0).
Proof.
  intros Hs c r c' H [HF HK]. inversion H; subst; clear H. split; simpl.
  - apply Forall_app; split; [done | by constructor].
  - exact HK.
Qed.

Lemma send_untouched s t0 :
  reaperStmt s -> triple (untouched t0) (send s) (untouched t0).
Proof.
  intros Hs c r c' H (HF & Hc & Hp). inversion H; subst; clear H.
  repeat split; simpl; try done.
  apply Forall_app; split; [done | by constructor].
Qed.

Lemma beginTx_kept drv msg t0 : triple (kept t0) (beginTx drv msg) (kept t0).
Proof.
  unfold beginTx. apply triple_seq; [apply triple_check|intros _].
  apply triple_seq; [by apply send_kept|intros _].
  intros c r c' H [HF HK]. inversion H; subst; clear H. split; simpl; [done|].
  intros i row Hl Hs. destruct (HK i row Hl Hs) as [Hc _].
  split; [done|]. intros t [= <-]. done.
Qed.

Lemma commit_kept drv msg t0 : triple (kept t0) (commit drv msg) (kept t0).
Proof.
  unfold commit. apply triple_seq; [apply triple_check|intros _].
  apply triple_seq; [by apply send_kept|intros _].
  intros c r c' H [HF HK]. inversion H; subst; clear H. split; simpl; [done|].
  intros i row Hl Hs. destruct (HK i row Hl Hs) as [Hc Hp].
  split; [|done]. unfold view. destruct (pending c) as [t|]; simpl; auto.
Qed.

Lemma deferRollback_kept {A} (body : M A) t0 :
  triple (kept t0) body (kept t0) -> triple (kept t0) (deferRollback body) (kept t0).
Proof.
  intros Hb c r c' H HK. unfold deferRollback in H.
  destruct (body c) as [r1 c1] eqn:E. inversion H; subst; clear H.
  pose proof (Hb _ _ _ E HK) as HK1'. destruct HK1' as [HF HK1].
  destruct (pending c1) eqn:Ep; [|by apply (Hb _ _ _ E HK)].
  split; simpl.
  - apply Forall_app; split; [done | by constructor].
  - intros i row Hl Hs. destruct (HK1 i row Hl Hs) as [Hc _]. by split.
Qed.

Lemma exec_kept drv i s msg t0 :
  reaperStmt s -> triple (kept t0) (exec drv i s msg) (kept t0).
Proof.
  intros Hs. unfold exec.
  apply triple_seq; [apply triple_check|intros _].
  apply triple_seq; [by apply send_kept|intros _].
  intros c r c' H [HF HK]. unfold bind, read, write, ret in H.
  inversion H; subst; clear H. split.
  - destruct (pending c); done.
  - intros j row Hl Hst. destruct (HK j row Hl Hst) as [Hc Hp].
    unfold view. destruct (pending c) as [t|] eqn:Ep; simpl.
    + split; [done|]. intros t' [= <-].
      apply reaperStmt_frame; auto.
    + split; [|done]. apply reaperStmt_frame; auto.
Qed.

Lemma staleUpdate_reaper now rec : reaperStmt (staleUpdate now rec).
Proof. by split. Qed.

Lemma reapLoop_kept drv now stale t0 : forall i updated,
  triple (kept t0) (reapLoop drv now i stale updated) (kept t0).
Proof.
  induction stale as [|rec stale IH]; intros i updated; simpl.
  - apply triple_ret.
  - apply triple_seq; [apply exec_kept, staleUpdate_reaper|intros n].
    apply triple_seq; [apply triple_check|intros _]. apply IH.
Qed.

Lemma scanStale_untouched drv rows t0 : forall i,
  triple (untouched t0) (scanStale drv i rows) (untouched t0).
Proof.
  induction rows as [|r rows IH]; intros i; simpl.
  - apply triple_ret.
  - apply triple_seq; [apply triple_check|intros _].
    apply triple_seq; [apply IH|intros stale]. apply triple_ret.
Qed.

Lemma yield_untouched others t0 :
  triple (untouched t0) (yield others) (untouched (others t0)).
Proof.
  intros c r c' H (HF & Hc & Hp). inversion H; subst; clear H.
  by repeat split.
Qed.

(** Whatever the driver does and whatever was selected, a sweep ends
    with the rows that were not in flight, before or after the writes
    of other connections, exactly as they were. *)
Lemma MarkStaleExecutions_kept ls now1 now2 others staleAfter limit db :
  triple (untouched db)
    (MarkStaleExecutions ls now1 now2 others staleAfter limit)
    (fun c => untouched db c \/ kept (others db) c).
Proof.
  unfold MarkStaleExecutions.
  destruct (limit <=? 0).
  { eapply triple_weaken with (P := untouched db) (Q := untouched db);
      [apply triple_ret | auto | intros; left; auto]. }
  eapply triple_bind with (R := untouched db); [apply triple_check| |by left; auto].
  intros _.
  eapply triple_bind with (R := untouched db); [apply triple_check| |by left; auto].
  intros _.
  eapply triple_bind with (R := untouched db);
    [by apply send_untouched| |by left; auto].
  intros _.
  eapply triple_bind with (R := untouched db);
    [intros c r c' H; inversion H; subst; auto| |by left; auto].
  intros t.
  eapply triple_bind with (R := untouched db);
    [apply scanStale_untouched| |by left; auto].
  intros stale.
  eapply triple_bind with (R := untouched db); [apply triple_check| |by left; auto].
  intros _.
  destruct (length stale =? 0)%nat.
  { eapply triple_weaken with (P := untouched db) (Q := untouched db);
      [apply triple_ret | auto | intros; left; auto]. }
  eapply triple_bind with (R := kept (others db)); [| |by right].
  { eapply triple_weaken with (P := untouched db) (Q := untouched (others db));
      [apply yield_untouched | auto | intros c; apply untouched_kept]. }
  intros _.
  eapply triple_weaken with (P := kept (others db)) (Q := kept (others db));
    [|auto|by right].
  apply deferRollback_kept.
  apply triple_seq; [apply beginTx_kept|intros _].
  apply triple_seq; [apply triple_check|intros _].
  apply triple_seq; [apply reapLoop_kept|intros updated].
  apply triple_seq; [apply commit_kept|intros _].
  apply triple_ret.
Qed.

Lemma untouched_connect db : untouched db (connect db).
Proof. by repeat split. Qed.

(** C1: a reaper sweep never modifies a row whose status is terminal.
    Every statement the sweep sends leaves such a row as it is in
    whatever table the statement meets, and at the end of the sweep
    either nothing was written or every row that is terminal when the
    batch starts (other connections may have completed it since the
    SELECT) is in the table unchanged.  This holds for every driver
    behaviour and every selection. *)
Theorem reaper_never_modifies_terminal_rows ls now1 now2 others staleAfter limit db :
  let out := MarkStaleExecutions ls now1 now2 others staleAfter limit (connect db) in
  (forall s, s ∈ issued out.2 ->
     forall t i row, t !! i = Some row -> terminalStatus (status row) ->
       applyStmt s t !! i = Some row) /\
  (committed out.2 = db \/
   forall i row, others db !! i = Some row -> terminalStatus (status row) ->
     committed out.2 !! i = Some row).
Proof.
  intros out.
  pose proof (MarkStaleExecutions_kept ls now1 now2 others staleAfter limit db
                (connect db) out.1 out.2) as H.
  specialize (H (surjective_pairing _) (untouched_connect db)).
  cbv beta in H. split.
  - intros s Hs t i row Hl Ht.
    assert (HF : Forall reaperStmt (issued out.2)).
    { destruct H as [HU|HK]; [apply HU|apply HK]. }
    apply reaperStmt_frame; [|done|by apply terminal_not_in_flight].
    eapply Forall_forall in HF; eauto.
  - destruct H as [(_ & Hc & _)|[_ HK]]; [by left|right].
    intros i row Hl Ht.
    destruct (HK i row Hl (terminal_not_in_flight _ Ht)) as [Hc _]. exact Hc.
Qed.

(** *** A sweep on a working driver *)

Lemma scanStale_healthy rows : forall i c,
  scanStale healthy i rows c = (Ok (toStale <$> rows), c).
Proof.
  induction rows as [|r rows IH]; intros i c; [done|].
  cbn [scanStale]. unfold bind, check, healthy, ret. by rewrite IH.
Qed.

Lemma exec_healthy i s msg c t :
  pending c = Some t ->
  exec healthy i s msg c =
    (Ok (affected s t),
     {| committed := committed c; pending := Some (applyStmt s t);
        issued := issued c ++ [s] |}).
Proof.
  intros Hp. unfold exec, bind, check, healthy, ret, send, read, write, view.
  cbn [committed pending issued]. by rewrite Hp.
Qed.

Lemma reapRow_nil now r : reapRow now [] r = r.
Proof. unfold reapRow. by destruct (statusInFlight (status r)). Qed.

Lemma reapRow_cons now rec stale r :
  reapRow now stale
    (if staleUpdateApplies (id rec) r
     then timeoutRow ExecutionStatusTimeout timeoutMessage now
            (staleDurationMS now rec) now r
     else r)
  = reapRow now (rec :: stale) r.
Proof.
  unfold staleUpdateApplies, hasID, reapRow. cbn [List.find].
  destruct (statusInFlight (status r)) eqn:Hs.
  - rewrite andb_true_r.
    destruct (decide (execution_id r = id rec)) as [He|Hne].
    + rewrite !bool_decide_eq_true_2 by done.
      cbn [status timeoutRow]. by rewrite timeout_not_in_flight.
    + rewrite !bool_decide_eq_false_2 by done. by rewrite Hs.
  - rewrite andb_false_r. by rewrite Hs.
Qed.

Lemma reapLoop_healthy now stale : forall i updated c t,
  pending c = Some t ->
  exists n, 0 <= n <= Z.of_nat (length stale) /\
    reapLoop healthy now i stale updated c =
      (Ok (updated + n),
       {| committed := committed c;
          pending := Some (reapRow now stale <$> t);
          issued := issued c ++ (staleUpdate now <$> stale) |}).
Proof.
  induction stale as [|rec stale IH]; intros i updated c t Hp.
  - exists 0. split; [simpl; lia|]. cbn [reapLoop]. unfold ret.
    rewrite Z.add_0_r, app_nil_r.
    rewrite (list_fmap_ext (reapRow now []) Datatypes.id t)
      by (intros; apply reapRow_nil).
    rewrite list_fmap_id. destruct c; simpl in *; by subst.
  - cbn [reapLoop]. unfold bind at 1. rewrite (exec_healthy _ _ _ _ t Hp).
    unfold bind at 1. unfold check at 1, healthy at 1, ret at 1.
    edestruct (IH (S i)
                 (if 0 <? affected (staleUpdate now rec) t
                  then updated + 1 else updated)
                 {| committed := committed c;
                    pending := Some (applyStmt (staleUpdate now rec) t);
                    issued := issued c ++ [staleUpdate now rec] |}
                 (applyStmt (staleUpdate now rec) t) eq_refl)
      as (n & Hn & ->).
    exists ((if 0 <? affected (staleUpdate now rec) t then 1 else 0) + n).
    split.
    { cbn [length]. destruct (0 <? affected (staleUpdate now rec) t); lia. }
    cbn [committed issued]. f_equal.
    { f_equal. destruct (0 <? affected (staleUpdate now rec) t); lia. }
    f_equal.
    + f_equal. unfold staleUpdate at 1, applyStmt.
      rewrite <- list_fmap_compose. apply list_fmap_ext.
      intros j r _. apply reapRow_cons.
    + rewrite <- app_assoc. done.
Qed.

Lemma bind_check_healthy {B} call i msg (k : unit -> M B) c :
  bind (check healthy call i msg) k c = k tt c.
Proof. reflexivity. Qed.

Lemma bind_send {B} s (k : unit -> M B) c :
  bind (send s) k c =
    k tt {| committed := committed c; pending := pending c;
            issued := issued c ++ [s] |}.
Proof. reflexivity. Qed.

Lemma bind_read {B} (k : Table -> M B) c : bind read k c = k (view c) c.
Proof. reflexivity. Qed.

Lemma bind_yield {B} others (k : unit -> M B) c :
  bind (yield others) k c =
    k tt {| committed := others (committed c); pending := pending c;
            issued := issued c |}.
Proof. reflexivity. Qed.

Lemma bind_scanStale_healthy {B} rows i (k : list staleRecord -> M B) c :
  bind (scanStale healthy i rows) k c = k (toStale <$> rows) c.
Proof. unfold bind. by rewrite scanStale_healthy. Qed.

Lemma bind_beginTx_healthy {B} msg (k : unit -> M B) c :
  bind (beginTx healthy msg) k c =
    k tt {| committed := committed c; pending := Some (committed c);
            issued := issued c ++ [Begin] |}.
Proof. reflexivity. Qed.

Lemma commit_healthy msg c :
  commit healthy msg c =
    (Ok tt, {| committed := view c; pending := None;
               issued := issued c ++ [CommitTx] |}).
Proof. reflexivity. Qed.

(** The batch of a sweep, from the table the transaction finds. *)
Lemma batch_healthy now stale c :
  pending c = None ->
  exists n, 0 <= n <= Z.of_nat (length stale) /\
    deferRollback
      (beginTx healthy "begin stale execution transaction" ;;;
       check healthy Prepare 0 "prepare stale execution update" ;;;
       updated <- reapLoop healthy now 0 stale 0 ;;
       commit healthy "commit stale execution transaction" ;;;
       ret updated) c =
    (Ok n,
     {| committed := reapRow now stale <$> committed c;
        pending := None;
        issued := issued c ++ [Begin] ++ (staleUpdate now <$> stale) ++ [CommitTx] |}).
Proof.
  intros Hp. unfold deferRollback.
  rewrite bind_beginTx_healthy, bind_check_healthy.
  edestruct (reapLoop_healthy now stale 0%nat 0
               {| committed := committed c; pending := Some (committed c);
                  issued := issued c ++ [Begin] |} (committed c) eq_refl)
    as (n & Hn & Hrun).
  exists n. split; [done|].
  unfold bind at 1. rewrite Hrun. unfold bind at 1. rewrite commit_healthy.
  unfold ret, view. cbn [committed pending issued default].
  rewrite Z.add_0_l. do 2 f_equal. by rewrite <- !app_assoc.
Qed.

Lemma MarkStaleExecutions_healthy ls now1 now2 others staleAfter limit db :
  driver ls = healthy -> 0 < limit ->
  let cutoff := Add now1 (wrap64 (- staleAfter)) in
  let stale := toStale <$> selectStale cutoff limit db in
  exists n, 0 <= n <= Z.of_nat (length stale) /\
    MarkStaleExecutions ls now1 now2 others staleAfter limit (connect db) =
      if (length stale =? 0)%nat then
        (Ok 0, {| committed := db; pending := None;
                  issued := [SelectStale cutoff limit] |})
      else
        (Ok n, {| committed := reapRow now2 stale <$> others db; pending := None;
                  issued := [SelectStale cutoff limit; Begin] ++
                            (staleUpdate now2 <$> stale) ++ [CommitTx] |}).
Proof.
  intros Hdrv Hlim cutoff stale. unfold MarkStaleExecutions.
  rewrite Hdrv. replace (limit <=? 0) with false by (symmetry; apply Z.leb_gt; lia).
  rewrite !bind_check_healthy, bind_send, bind_read.
  rewrite bind_scanStale_healthy, bind_check_healthy.
  fold cutoff. unfold view, connect.
  cbn [committed pending issued default app]. fold stale.
  destruct (length stale =? 0)%nat.
  - exists 0. split; [lia|]. reflexivity.
  - rewrite bind_yield.
    edestruct (batch_healthy now2 stale
                 {| committed := others db; pending := None;
                    issued := [SelectStale cutoff limit] |} eq_refl)
      as (n & Hn & Hrun).
    exists n. split; [done|]. exact Hrun.
Qed.

(** *** What the SELECT returns *)

Lemma selectStale_elem cutoff limit db r :
  r ∈ selectStale cutoff limit db -> r ∈ db /\ isStale cutoff r = true.
Proof.
  unfold selectStale. intros (i & Hi & _)%elem_of_take.
  apply list_elem_of_lookup_2 in Hi.
  rewrite merge_sort_Permutation in Hi.
  apply list_elem_of_filter in Hi as [HP Hin].
  split; [done|]. by apply Is_true_eq_true.
Qed.

Lemma textLe_UTC t cutoff : textLe t UTC cutoff UTC = (t <=? cutoff).
Proof.
  unfold textLe, wallClock, offsetTextLe, UTC. cbn [Z.ltb Z.leb Z.compare orb andb].
  rewrite !Z.add_0_r.
  destruct (Z.ltb_spec t cutoff), (Z.eqb_spec t cutoff), (Z.leb_spec t cutoff);
    cbn [orb andb]; try done; lia.
Qed.

Lemma isStale_spec cutoff r :
  isStale cutoff r = true <->
  status r ∈ ["running"; "pending"; "queued"] /\
  textLe (started_at r) (started_at_zone r) cutoff UTC = true.
Proof. unfold isStale. by rewrite andb_true_iff, in_flight_spec. Qed.

(** For a start time stored in UTC the comparison of the texts is the
    comparison of the instants. *)
Lemma isStale_UTC cutoff r :
  started_at_zone r = UTC ->
  isStale cutoff r = true <->
  status r ∈ ["running"; "pending"; "queued"] /\ started_at r <= cutoff.
Proof. intros Hz. by rewrite isStale_spec, Hz, textLe_UTC, Z.leb_le. Qed.

Lemma selectStale_length cutoff limit db :
  0 < limit -> Z.of_nat (length (selectStale cutoff limit db)) <= limit.
Proof. intros H. unfold selectStale. rewrite length_take. lia. Qed.

Lemma selectStale_NoDup cutoff limit db :
  NoDup (execution_id <$> db) ->
  NoDup (execution_id <$> selectStale cutoff limit db).
Proof.
  intros Hnd. unfold selectStale.
  eapply sublist_NoDup; [|apply fmap_sublist, sublist_take].
  rewrite merge_sort_Permutation.
  eapply sublist_NoDup; [exact Hnd|]. apply fmap_sublist, sublist_filter.
Qed.

Lemma find_toStale (l : list Row) r :
  NoDup (execution_id <$> l) -> r ∈ l ->
  List.find (fun rec => bool_decide (id rec = execution_id r)) (toStale <$> l)
  = Some (toStale r).
Proof.
  induction l as [|x l IH]; intros Hnd Hin; [by apply elem_of_nil in Hin|].
  rewrite fmap_cons in Hnd. apply NoDup_cons in Hnd as [Hx Hnd].
  rewrite fmap_cons. cbn [List.find].
  destruct (decide (execution_id x = execution_id r)) as [He|Hne].
  - rewrite bool_decide_eq_true_2 by done.
    apply elem_of_cons in Hin as [->|Hin]; [done|].
    exfalso. apply Hx. rewrite He. by apply list_elem_of_fmap_2.
  - rewrite bool_decide_eq_false_2 by done.
    apply elem_of_cons in Hin as [->|Hin]; [done|]. by apply IH.
Qed.

(** *** What the batch writes *)

Lemma staleDurationMS_max now rec :
  staleDurationMS now rec = Z.max 0 (Sub now (startedAt rec)) / 1000000.
Proof.
  unfold staleDurationMS, Milliseconds, Millisecond.
  destruct (Z.ltb_spec (Sub now (startedAt rec)) 0) as [Hneg|Hpos].
  - rewrite Z.max_l by lia. reflexivity.
  - rewrite Z.max_r by lia. rewrite Z.quot_div_nonneg by lia.
    destruct (Z.ltb_spec (Sub now (startedAt rec) / 1000000) 0) as [Hlt|]; [|done].
    pose proof (Z.div_pos (Sub now (startedAt rec)) 1000000 Hpos ltac:(lia)). lia.
Qed.

Lemma staleDurationMS_nonneg now rec : 0 <= staleDurationMS now rec.
Proof.
  rewrite staleDurationMS_max. apply Z.div_pos; lia.
Qed.

Lemma timeoutRow_timedOut now durationMS r :
  timedOut now durationMS r
    (timeoutRow ExecutionStatusTimeout timeoutMessage now durationMS now r).
Proof. by repeat split. Qed.

(** A row the reaper has timed out is no longer in flight. *)
Lemma timedOut_not_in_flight now durationMS r r' :
  timedOut now durationMS r r' -> statusInFlight (status r') = false.
Proof. intros (-> & _). reflexivity. Qed.

Lemma reapRow_cases now stale r :
  reapRow now stale r = r \/
  exists rec, rec ∈ stale /\ id rec = execution_id r /\
    status r ∈ ["running"; "pending"; "queued"] /\
    reapRow now stale r =
      timeoutRow "timeout" "execution timed out" now
        (Z.max 0 (Sub now (startedAt rec)) / 1000000) now r.
Proof.
  unfold reapRow. destruct (statusInFlight (status r)) eqn:Hs; [|by left].
  destruct (List.find _ stale) as [rec|] eqn:Hf; [right|by left].
  apply List.find_some in Hf as [Hin He]. apply bool_decide_eq_true in He.
  exists rec. rewrite <- staleDurationMS_max.
  repeat split; [by apply list_elem_of_In | done | by apply in_flight_spec].
Qed.

(** *** UpdateExecutionRecord, case by case *)

Lemma UpdateExecutionRecord_run ls now executionID updater db :
  let current := scanRow <$> List.find (hasID executionID) db in
  UpdateExecutionRecord ls now executionID (Some updater) (connect db) =
    if driver ls BeginTx 0%nat then (Err "begin transaction", closed db [])
    else if driver ls Scan 0%nat then
      (Err "scan execution", closed db [Begin; SelectExecution executionID; Rollback])
    else
      match updater current with
      | UpdaterErr err =>
          (Err err, closed db [Begin; SelectExecution executionID; Rollback])
      | UpdaterNil written =>
          if driver ls Commit 0%nat then
            (Err "commit execution update",
             closed db [Begin; SelectExecution executionID; Rollback])
          else
            (Ok (enrichExecutionWebhook ls (written <$> current) true),
             closed db [Begin; SelectExecution executionID; CommitTx])
      | UpdaterOk updated =>
          let updated := setUpdatedAt now updated in
          if driver ls Exec 0%nat then
            (Err "update execution",
             closed db [Begin; SelectExecution executionID; Rollback])
          else if driver ls Commit 0%nat then
            (Err "commit execution update",
             closed db [Begin; SelectExecution executionID;
                        UpdateExecution updated; Rollback])
          else
            (Ok (enrichExecutionWebhook ls (Some updated) true),
             closed (applyStmt (UpdateExecution updated) db)
               [Begin; SelectExecution executionID;
                UpdateExecution updated; CommitTx])
      end.
Proof.
  intros current. subst current.
  unfold UpdateExecutionRecord, deferRollback, beginTx, queryRow, scanExecution,
    exec, commit, check, bind, send, read, write, ret, fail, view, connect, closed.
  cbn [committed pending issued default app].
  destruct (driver ls BeginTx 0%nat); [reflexivity|].
  cbn [committed pending issued default app].
  destruct (driver ls Scan 0%nat); [reflexivity|].
  cbn [committed pending issued default app].
  destruct (updater _) as [err|written|updated];
    cbn [committed pending issued default app]; [reflexivity| |].
  - destruct (driver ls Commit 0%nat); reflexivity.
  - destruct (driver ls Exec 0%nat); [reflexivity|].
    cbn [committed pending issued default app].
    destruct (driver ls Commit 0%nat); reflexivity.
Qed.





(** *** The general UPDATE, row by row *)

Lemma updateExecution_lookup u db i row :
  db !! i = Some row ->
  applyStmt (UpdateExecution u) db !! i =
    Some (if hasID (ExecutionID u) row then updateRow u row else row).
Proof. intros H. unfold applyStmt. by rewrite list_lookup_fmap, H. Qed.

Lemma updateExecution_no_row u db :
  (forall row, row ∈ db -> execution_id row <> ExecutionID u) ->
  applyStmt (UpdateExecution u) db = db.
Proof.
  intros H. unfold applyStmt.
  rewrite <- (list_fmap_id db) at 2. apply list_fmap_ext.
  intros i row Hl. unfold hasID.
  rewrite bool_decide_eq_false_2; [done|].
  apply H. by eapply list_elem_of_lookup_2.
Qed.

Lemma find_hasID_None executionID db :
  (forall row, row ∈ db -> execution_id row <> executionID) ->
  List.find (hasID executionID) db = None.
Proof.
  induction db as [|r db IH]; intros H; [done|]. cbn [List.find].
  unfold hasID at 1. rewrite bool_decide_eq_false_2.
  - apply IH. intros row Hin. apply H. by right.
  - apply H. by left.
Qed.

(** C2, as stated, fails: the row is stored as succeeded, the mutator
    hands back the execution marked failed, and the call succeeds and
    stores failed. *)
Lemma UpdateExecutionRecord_overwrites_terminal :
  let db := [Scenario.execution "exec-1" "succeeded" 0] in
  let out := UpdateExecutionRecord Scenario.localStorage 5 "exec-1"
               (Some Scenario.markFailed) (connect db) in
  terminalStatus "succeeded" /\ terminalStatus "failed" /\
  status <$> db !! 0%nat = Some "succeeded" /\
  (exists e, out.1 = Ok (Some e) /\ Status e = "failed") /\
  status <$> committed out.2 !! 0%nat = Some "failed".
Proof.
  split; [|split; [|split; [|split]]].
  - unfold terminalStatus. tauto.
  - unfold terminalStatus. tauto.
  - reflexivity.
  - eexists. split; reflexivity.
  - reflexivity.
Qed.

(** C2 (amended): for an execution whose stored status is terminal,
    [UpdateExecutionRecord] leaves the stored status as it is when the
    mutator returns nil or an error, an execution with the same status,
    or an execution carrying another id; when the mutator returns an
    execution with this id and another status, the call succeeds on a
    working driver and that status is stored: the store makes no
    terminal-state check of its own. *)
Theorem UpdateExecutionRecord_terminal_status ls now executionID updater db i row :
  db !! i = Some row -> terminalStatus (status row) ->
  let current := scanRow <$> List.find (hasID executionID) db in
  let out := UpdateExecutionRecord ls now executionID (Some updater) (connect db) in
  ((forall updated, updater current <> UpdaterOk updated) ->
     committed out.2 = db) /\
  (forall updated, updater current = UpdaterOk updated ->
     Status updated = status row \/ ExecutionID updated <> execution_id row ->
     status <$> committed out.2 !! i = Some (status row)) /\
  (forall updated, updater current = UpdaterOk updated ->
     ExecutionID updated = execution_id row -> driver ls = healthy ->
     out.1 = Ok (enrichExecutionWebhook ls (Some (setUpdatedAt now updated)) true) /\
     status <$> committed out.2 !! i = Some (Status updated)).
Proof.
  intros Hrow _ current out. subst out.
  rewrite UpdateExecutionRecord_run. fold current.
  split; [|split].
  - intros Hno.
    destruct (driver ls BeginTx 0%nat); [done|].
    destruct (driver ls Scan 0%nat); [done|].
    destruct (updater current) as [err|written|updated]; [done| |].
    + by destruct (driver ls Commit 0%nat).
    + by destruct (Hno updated).
  - intros updated -> Hsame. cbv zeta.
    destruct (driver ls BeginTx 0%nat); [by cbn; rewrite Hrow|].
    destruct (driver ls Scan 0%nat); [by cbn; rewrite Hrow|].
    destruct (driver ls Exec 0%nat); [by cbn; rewrite Hrow|].
    destruct (driver ls Commit 0%nat); [by cbn; rewrite Hrow|].
    cbn [snd closed committed].
    rewrite (updateExecution_lookup _ _ _ _ Hrow). cbn [fmap option_fmap option_map].
    unfold hasID. cbn [ExecutionID setUpdatedAt].
    destruct Hsame as [Hst|Hid].
    + case_bool_decide; [|done].
      cbn [status updateRow Status setUpdatedAt]. by rewrite Hst.
    + rewrite bool_decide_eq_false_2; [done|]. congruence.
  - intros updated -> Hid ->. unfold healthy. cbv zeta. cbn [fst snd closed committed].
    split; [done|].
    rewrite (updateExecution_lookup _ _ _ _ Hrow). cbn [fmap option_fmap option_map].
    unfold hasID. cbn [ExecutionID setUpdatedAt].
    rewrite bool_decide_eq_true_2 by done. reflexivity.
Qed.

Lemma UpdateExecutionRecord_terminal_status_witness :
  let db := [Scenario.execution "exec-1" "timeout" 0;
             Scenario.execution "exec-2" "running" 7] in
  status <$>
    committed (UpdateExecutionRecord Scenario.localStorage 5 "exec-1"
                 (Some Scenario.markFailed) (connect db)).2 !! 0%nat
  = Some "failed".
Proof.
  intros db. subst db.
  pose proof (UpdateExecutionRecord_terminal_status Scenario.localStorage 5
                "exec-1" Scenario.markFailed
                [Scenario.execution "exec-1" "timeout" 0;
                 Scenario.execution "exec-2" "running" 7]
                0%nat (Scenario.execution "exec-1" "timeout" 0) eq_refl) as H.
  cbv zeta in H.
  destruct H as (_ & _ & H).
  { unfold terminalStatus. tauto. }
  destruct (H _ eq_refl eq_refl eq_refl) as [_ Hst]. exact Hst.
Defined.

(** C5, as stated, fails: no row carries the id, the mutator returns
    [(nil, nil)], and the call returns [(nil, nil)], no error. *)
Lemma UpdateExecutionRecord_missing_row_succeeds :
  let db := [Scenario.execution "exec-1" "running" 0] in
  let out := UpdateExecutionRecord Scenario.localStorage 5 "exec-9"
               (Some Scenario.leaveAlone) (connect db) in
  (forall row, row ∈ db -> execution_id row <> "exec-9") /\
  out.1 = Ok None.
Proof.
  split; [|reflexivity].
  intros row Hin. apply list_elem_of_singleton in Hin as ->. discriminate.
Qed.

(** C5 (amended): for an id no row carries, [UpdateExecutionRecord] hands
    the mutator a nil execution and, on a working driver, returns what
    the mutator decides: the mutator's error if it returns one, nil
    without an error if it returns nil, the execution it returns
    otherwise.  The table is unchanged when the mutator returns an
    error, nil, or an execution carrying that same id. *)
Theorem UpdateExecutionRecord_missing_row ls now executionID updater db :
  (forall row, row ∈ db -> execution_id row <> executionID) ->
  let out := UpdateExecutionRecord ls now executionID (Some updater) (connect db) in
  match updater None with
  | UpdaterErr err =>
      committed out.2 = db /\ (driver ls = healthy -> out.1 = Err err)
  | UpdaterNil _ =>
      committed out.2 = db /\ (driver ls = healthy -> out.1 = Ok None)
  | UpdaterOk updated =>
      (ExecutionID updated = executionID -> committed out.2 = db) /\
      (driver ls = healthy ->
         out.1 = Ok (enrichExecutionWebhook ls (Some (setUpdatedAt now updated)) true))
  end.
Proof.
  intros Hnone out. subst out.
  rewrite UpdateExecutionRecord_run. rewrite (find_hasID_None _ _ Hnone).
  cbn [fmap option_fmap option_map].
  destruct (updater None) as [err|written|updated].
  - split.
    + by destruct (driver ls BeginTx 0%nat), (driver ls Scan 0%nat).
    + by intros ->.
  - split.
    + by destruct (driver ls BeginTx 0%nat), (driver ls Scan 0%nat),
        (driver ls Commit 0%nat).
    + by intros ->.
  - split.
    + intros Hid. cbv zeta.
      destruct (driver ls BeginTx 0%nat), (driver ls Scan 0%nat),
        (driver ls Exec 0%nat), (driver ls Commit 0%nat); try done.
      cbn [snd closed committed]. apply updateExecution_no_row.
      cbn [ExecutionID setUpdatedAt]. by rewrite Hid.
    + by intros ->.
Qed.

Lemma UpdateExecutionRecord_missing_row_witness :
  (UpdateExecutionRecord Scenario.localStorage 5 "exec-9"
     (Some Scenario.markFailed)
     (connect [Scenario.execution "exec-1" "running" 0])).1
  = Err "execution not found".
Proof.
  pose proof (UpdateExecutionRecord_missing_row Scenario.localStorage 5 "exec-9"
                Scenario.markFailed [Scenario.execution "exec-1" "running" 0]) as H.
  cbv zeta in H. cbn [Scenario.markFailed] in H.
  destruct H as [_ H].
  - intros row Hin. apply list_elem_of_singleton in Hin as ->. discriminate.
  - exact (H eq_refl).
Defined.

(** The race of the specification: [exec-1] is selected as stale, the
    dispatcher records its success before the batch starts, and the
    batch leaves the row succeeded and reports no update. *)
Example reaper_loses_race_to_completion :
  MarkStaleExecutions Scenario.localStorage (90 * Second) (90 * Second)
    (fun _ => [Scenario.execution "exec-1" "succeeded" 0]) (60 * Second) 10
    (connect [Scenario.execution "exec-1" "running" 0])
  = (Ok 0,
     {| committed := [Scenario.execution "exec-1" "succeeded" 0];
        pending := None;
        issued := [SelectStale (30 * Second) 10; Begin;
                   UpdateStale "timeout" "execution timed out" (90 * Second)
                     90000 (90 * Second) "exec-1";
                   CommitTx] |}).
Proof. vm_compute. reflexivity. Qed.

(** A driver that fails the second update of a batch: the first update
    is rolled back with the transaction. *)
Example reaper_batch_is_atomic :
  let ls := {| driver := fun call i =>
                 match call, i with Exec, 1%nat => true | _, _ => false end;
               HasExecutionWebhook := fun _ => Ok false;
               ListExecutionWebhookEvents := fun _ => Ok [] |} in
  let db := [Scenario.execution "exec-1" "running" 0;
             Scenario.execution "exec-2" "queued" 1] in
  let out := MarkStaleExecutions ls (90 * Second) (90 * Second) (fun t => t)
               (60 * Second) 10 (connect db) in
  out.1 = Err "update stale execution exec-2" /\ committed out.2 = db.
Proof. vm_compute. split; reflexivity. Qed.

End StorageFacts.

(** ** Presence leases *)

Module PresenceFacts.

Import Go Types Presence.

Lemma checkExpirations_lookup now pm nodeID :
  leases (checkExpirations now pm).1 !! nodeID =
  leases pm !! nodeID ≫= sweepLease (config pm) now.
Proof. unfold checkExpirations. cbn. apply lookup_omap. Qed.

Lemma verdict_fresh cfg now lease :
  MarkedOffline lease = false ->
  verdict cfg now lease =
    if HeartbeatTTL cfg <=? Sub now (LastSeen lease) then SoftExpire else Keep.
Proof. intros H. unfold verdict. by rewrite H. Qed.

Lemma verdict_offline cfg now lease :
  MarkedOffline lease = true -> verdict cfg now lease <> SoftExpire.
Proof.
  intros H. unfold verdict. rewrite H. cbn.
  destruct (_ <=? _); [|done]. by destruct (_ && _).
Qed.

Lemma countNode_app nodeID l1 l2 :
  countNode nodeID (l1 ++ l2) = (countNode nodeID l1 + countNode nodeID l2)%nat.
Proof. unfold countNode. by rewrite List.filter_app, length_app. Qed.

Lemma inactiveUpdates_app nodeID e1 e2 :
  inactiveUpdates nodeID (e1 ++ e2)
  = (inactiveUpdates nodeID e1 + inactiveUpdates nodeID e2)%nat.
Proof. unfold inactiveUpdates. by rewrite List.filter_app, length_app. Qed.

(** One node id per lease the loop body soft-expires. *)
Lemma count_expired cfg now nodeID (kvs : list (string * presenceLease)) :
  let expired := fun kv : string * presenceLease =>
    match verdict cfg now kv.2 with SoftExpire => [kv.1] | _ => [] end in
  NoDup kvs.*1 ->
  (nodeID ∉ kvs.*1 -> countNode nodeID (kvs ≫= expired) = 0%nat) /\
  (forall lease, (nodeID, lease) ∈ kvs ->
     countNode nodeID (kvs ≫= expired) =
       match verdict cfg now lease with SoftExpire => 1%nat | _ => 0%nat end).
Proof.
  intros expired. induction kvs as [|[k v] kvs IH]; intros Hnd.
  - split; [done|]. intros lease Hin. by apply elem_of_nil in Hin.
  - rewrite fmap_cons in Hnd. apply NoDup_cons in Hnd as [Hk Hnd].
    destruct (IH Hnd) as [IH0 IH1]. rewrite bind_cons, countNode_app.
    assert (Hhead : k <> nodeID -> countNode nodeID (expired (k, v)) = 0%nat).
    { intros Hne. unfold expired, countNode. cbn.
      destruct (verdict cfg now v); cbn; try done.
      by rewrite bool_decide_eq_false_2. }
    split.
    + intros Hnot. rewrite fmap_cons in Hnot. apply not_elem_of_cons in Hnot as [Hne Hnot].
      rewrite Hhead by done. by rewrite IH0.
    + intros lease Hin. apply elem_of_cons in Hin as [[= <- <-]|Hin].
      * rewrite IH0 by done. unfold expired, countNode. cbn.
        destruct (verdict cfg now lease); cbn; try done.
        by rewrite bool_decide_eq_true_2.
      * assert (Hne : k <> nodeID).
        { intros Heq. apply Hk. rewrite Heq.
          apply (list_elem_of_fmap_2 fst kvs (nodeID, lease) Hin). }
        rewrite Hhead by done. by rewrite (IH1 lease Hin).
Qed.

Lemma expiredNodes_count cfg now nodeID (l : gmap string presenceLease) :
  countNode nodeID (expiredNodes cfg now l) =
    match l !! nodeID with
    | Some lease => match verdict cfg now lease with SoftExpire => 1%nat | _ => 0%nat end
    | None => 0%nat
    end.
Proof.
  unfold expiredNodes.
  destruct (count_expired cfg now nodeID (map_to_list l) (NoDup_fst_map_to_list l))
    as [H0 H1].
  destruct (l !! nodeID) as [lease|] eqn:E.
  - apply H1. by apply elem_of_map_to_list.
  - apply H0. intros (kv & Hk & Hin)%list_elem_of_fmap.
    destruct kv as [k v]. cbn in Hk. subst k.
    apply elem_of_map_to_list in Hin. congruence.
Qed.

Lemma markInactive_count pm nodeID expired :
  inactiveUpdates nodeID (expired ≫= markInactive pm) =
    match statusManager pm with
    | Some _ => countNode nodeID expired
    | None => 0%nat
    end.
Proof.
  induction expired as [|n expired IH]; [by destruct (statusManager pm)|].
  rewrite bind_cons, inactiveUpdates_app, IH.
  unfold markInactive. destruct (statusManager pm) as [sm|]; [|done].
  unfold countNode at 2. cbn [List.filter].
  unfold inactiveUpdates at 1. cbn [List.filter marksInactive State inactiveUpdate].
  rewrite andb_true_r.
  assert (Htail : List.filter (marksInactive nodeID)
            match sm n inactiveUpdate with
            | Some _ => []
            | None => if expireCallback pm then [ExpireCallback n] else []
            end = []).
  { destruct (sm n inactiveUpdate); [done|]. by destruct (expireCallback pm). }
  destruct (bool_decide (n = nodeID)); cbn [length]; by rewrite Htail.
Qed.

Lemma sweeps_cons now times pm :
  (sweeps (now :: times) pm).2 =
  (checkExpirations now pm).2 ++ (sweeps times (checkExpirations now pm).1).2.
Proof.
  cbn [sweeps]. destruct (checkExpirations now pm) as [pm1 e1]. cbn [fst snd].
  by destruct (sweeps times pm1) as [pm2 e2].
Qed.

(** Both counts of one sweep. *)
Lemma checkExpirations_count now pm nodeID :
  countNode nodeID (expiredNodes (config pm) now (leases pm)) =
    match leases pm !! nodeID with
    | Some lease =>
        match verdict (config pm) now lease with SoftExpire => 1%nat | _ => 0%nat end
    | None => 0%nat
    end /\
  inactiveUpdates nodeID (checkExpirations now pm).2 =
    match statusManager pm with
    | Some _ => countNode nodeID (expiredNodes (config pm) now (leases pm))
    | None => 0%nat
    end.
Proof.
  split; [apply expiredNodes_count|].
  unfold checkExpirations. cbn [snd]. by rewrite markInactive_count.
Qed.

(** Sweeps over a lease that is gone or already marked offline neither
    soft-expire it nor notify. *)
Lemma sweeps_offline nodeID times : forall pm,
  match leases pm !! nodeID with
  | Some lease => MarkedOffline lease = true
  | None => True
  end ->
  countNode nodeID (softExpiries times pm) = 0%nat /\
  inactiveUpdates nodeID (sweeps times pm).2 = 0%nat.
Proof.
  induction times as [|now times IH]; intros pm H; [done|].
  cbn [softExpiries]. rewrite countNode_app, sweeps_cons, inactiveUpdates_app.
  destruct (checkExpirations_count now pm nodeID) as [Hc Hu].
  assert (Hc0 : countNode nodeID (expiredNodes (config pm) now (leases pm)) = 0%nat).
  { rewrite Hc. destruct (leases pm !! nodeID) as [lease|]; [|done].
    pose proof (verdict_offline (config pm) now lease H).
    by destruct (verdict (config pm) now lease). }
  rewrite Hu, Hc0.
  destruct (IH (checkExpirations now pm).1) as [IHc IHu].
  { rewrite checkExpirations_lookup.
    destruct (leases pm !! nodeID) as [lease|]; cbn; [|done].
    unfold sweepLease. pose proof (verdict_offline (config pm) now lease H).
    by destruct (verdict (config pm) now lease). }
  rewrite IHc, IHu. by destruct (statusManager pm).
Qed.

(** Sweeps over a lease not marked offline soft-expire it, and notify,
    once if some sweep finds it overdue and never otherwise. *)
Lemma sweeps_fresh nodeID times : forall pm lease,
  leases pm !! nodeID = Some lease -> MarkedOffline lease = false ->
  countNode nodeID (softExpiries times pm)
    = (if overdue (config pm) lease times then 1 else 0)%nat /\
  inactiveUpdates nodeID (sweeps times pm).2
    = match statusManager pm with
      | Some _ => (if overdue (config pm) lease times then 1 else 0)%nat
      | None => 0%nat
      end.
Proof.
  induction times as [|now times IH]; intros pm lease Hl Hf.
  { split; [done|]. by destruct (statusManager pm). }
  cbn [softExpiries overdue existsb].
  rewrite countNode_app, sweeps_cons, inactiveUpdates_app.
  destruct (checkExpirations_count now pm nodeID) as [Hc Hu].
  rewrite Hl, (verdict_fresh _ _ _ Hf) in Hc. rewrite Hu, Hc.
  assert (Hafter : leases (checkExpirations now pm).1 !! nodeID =
            if HeartbeatTTL (config pm) <=? Sub now (LastSeen lease)
            then Some {| LastSeen := LastSeen lease; LastExpired := now;
                         MarkedOffline := true |}
            else Some lease).
  { rewrite checkExpirations_lookup, Hl. cbn [mbind option_bind].
    unfold sweepLease. rewrite (verdict_fresh _ _ _ Hf).
    by destruct (_ <=? _). }
  destruct (HeartbeatTTL (config pm) <=? Sub now (LastSeen lease)) eqn:Ettl.
  - destruct (sweeps_offline nodeID times (checkExpirations now pm).1) as [H0 H1].
    { by rewrite Hafter. }
    rewrite H0, H1. cbn [orb]. by destruct (statusManager pm).
  - destruct (IH (checkExpirations now pm).1 lease Hafter Hf) as [H0 H1].
    rewrite H0, H1. cbn [orb]. fold (overdue (config pm) lease times).
    change (config (checkExpirations now pm).1) with (config pm).
    change (statusManager (checkExpirations now pm).1) with (statusManager pm).
    by destruct (statusManager pm).
Qed.

(** C4: a touch leaves the lease not marked offline, and nothing else
    lowers a raised flag (a sweep, a touch of another node or a forget
    leaves the lease as it is, or removes it); over any run of sweeps
    with no touch in between, a lease that was not marked offline is
    soft-expired once if some sweep finds it untouched for at least
    the heartbeat TTL, and never otherwise, and with a status manager
    attached that soft-expiry makes one update marking the node
    inactive; a lease already marked offline is not soft-expired and
    causes no update again. *)
Theorem lease_soft_expires_once pm nodeID lease times :
  leases pm !! nodeID = Some lease ->
  (forall pm' n seenAt,
     exists touched, leases (Touch n seenAt pm') !! n = Some touched /\
       MarkedOffline touched = false /\ LastSeen touched = seenAt) /\
  (forall seenAt,
     leases (Touch nodeID seenAt pm) !! nodeID =
       Some {| LastSeen := seenAt; LastExpired := LastExpired lease;
               MarkedOffline := false |}) /\
  (MarkedOffline lease = true ->
     (forall now lease', leases (checkExpirations now pm).1 !! nodeID = Some lease' ->
        lease' = lease) /\
     (forall n lease', leases (Forget n pm) !! nodeID = Some lease' -> lease' = lease) /\
     (forall n seenAt, n <> nodeID ->
        leases (Touch n seenAt pm) !! nodeID = Some lease)) /\
  (MarkedOffline lease = false ->
     countNode nodeID (softExpiries times pm)
       = (if overdue (config pm) lease times then 1 else 0)%nat /\
     (is_Some (statusManager pm) ->
        inactiveUpdates nodeID (sweeps times pm).2
          = (if overdue (config pm) lease times then 1 else 0)%nat)) /\
  (MarkedOffline lease = true ->
     countNode nodeID (softExpiries times pm) = 0%nat /\
     inactiveUpdates nodeID (sweeps times pm).2 = 0%nat).
Proof.
  intros Hl. split; [|split; [|split; [|split]]].
  - intros pm' n seenAt. eexists. unfold Touch. cbn [leases setLeases].
    rewrite lookup_insert_eq. by repeat split.
  - intros seenAt. unfold Touch. cbn [leases setLeases].
    by rewrite Hl, lookup_insert_eq.
  - intros Hoff. split; [|split].
    + intros now lease'. rewrite checkExpirations_lookup, Hl. cbn.
      unfold sweepLease. pose proof (verdict_offline (config pm) now lease Hoff).
      destruct (verdict (config pm) now lease); [congruence|done|done].
    + intros n lease'. unfold Forget. cbn [leases setLeases].
      destruct (decide (n = nodeID)) as [->|Hne].
      * by rewrite lookup_delete_eq.
      * rewrite lookup_delete_ne by done. congruence.
    + intros n seenAt Hne. unfold Touch. cbn [leases setLeases].
      by rewrite lookup_insert_ne.
  - intros Hf. destruct (sweeps_fresh nodeID times pm lease Hl Hf) as [H0 H1].
    split; [done|]. intros [sm Hsm]. by rewrite Hsm in H1.
  - intros Hoff. apply sweeps_offline. by rewrite Hl.
Qed.

(** The scenario of the specification: heartbeat at t = 0, TTL 15 s,
    sweeps every 5 s up to t = 30 s. *)
Lemma lease_soft_expires_once_witness :
  let pm := Touch "node-1" 0 Scenario.presenceManager in
  let times := [5 * Second; 10 * Second; 15 * Second; 20 * Second;
                25 * Second; 30 * Second] in
  countNode "node-1" (softExpiries times pm) = 1%nat /\
  inactiveUpdates "node-1" (sweeps times pm).2 = 1%nat.
Proof.
  intros pm times.
  pose proof (lease_soft_expires_once pm "node-1"
                {| LastSeen := 0; LastExpired := zeroTime; MarkedOffline := false |}
                times) as H.
  destruct H as (_ & _ & _ & H & _).
  { subst pm. vm_compute. reflexivity. }
  destruct (H eq_refl) as [H0 H1]. split.
  - rewrite H0. reflexivity.
  - rewrite H1; [reflexivity|]. by eexists.
Defined.

(** C6, as stated, fails: with the default TTLs (15 s and 5 min) a
    lease last touched at t = 0 is soft-expired by the sweep at 15 s
    and removed by the sweep at 300 s, 285 s after its soft-expiry. *)
Lemma lease_removed_before_hard_evict_ttl_past_expiry :
  let pm0 := Touch "node-1" 0 Scenario.presenceManager in
  let pm1 := (checkExpirations (15 * Second) pm0).1 in
  let pm2 := (checkExpirations (300 * Second) pm1).1 in
  HardEvictTTL (config pm0) = 300 * Second /\
  leases pm1 !! "node-1" =
    Some {| LastSeen := 0; LastExpired := 15 * Second; MarkedOffline := true |} /\
  leases pm2 !! "node-1" = None /\
  Sub (300 * Second) (15 * Second) < HardEvictTTL (config pm0).
Proof. vm_compute. repeat split; reflexivity. Qed.

(** A lease that is not marked offline is never removed by a sweep. *)
Lemma lease_not_evicted_before_soft_expiry pm nodeID lease now :
  leases pm !! nodeID = Some lease -> MarkedOffline lease = false ->
  is_Some (leases (checkExpirations now pm).1 !! nodeID).
Proof.
  intros Hl Hf. rewrite checkExpirations_lookup, Hl. cbn [mbind option_bind].
  unfold sweepLease. rewrite (verdict_fresh _ _ _ Hf).
  by destruct (_ <=? _).
Qed.

(** C6 (amended): a sweep removes a soft-expired, untouched lease
    exactly when the hard-evict TTL is positive and at least that TTL,
    and at least the heartbeat TTL, has elapsed since the lease was
    last touched; the time is counted from the last touch, not from
    the soft-expiry.  Otherwise the lease stays as it is.  The sweep
    that soft-expires a lease never removes it. *)
Theorem lease_hard_evicted_after_last_seen pm nodeID lease now :
  leases pm !! nodeID = Some lease ->
  (MarkedOffline lease = true ->
     (leases (checkExpirations now pm).1 !! nodeID = None <->
        HeartbeatTTL (config pm) <= Sub now (LastSeen lease) /\
        0 < HardEvictTTL (config pm) /\
        HardEvictTTL (config pm) <= Sub now (LastSeen lease)) /\
     (leases (checkExpirations now pm).1 !! nodeID = None \/
      leases (checkExpirations now pm).1 !! nodeID = Some lease)) /\
  (MarkedOffline lease = false ->
     is_Some (leases (checkExpirations now pm).1 !! nodeID)).
Proof.
  intros Hl. split; [|by apply lease_not_evicted_before_soft_expiry].
  intros Hoff. rewrite checkExpirations_lookup, Hl. cbn [mbind option_bind].
  unfold sweepLease, verdict. rewrite Hoff. cbn [negb].
  destruct (Z.leb_spec (HeartbeatTTL (config pm)) (Sub now (LastSeen lease)));
    destruct (Z.ltb_spec 0 (HardEvictTTL (config pm)));
    destruct (Z.leb_spec (HardEvictTTL (config pm)) (Sub now (LastSeen lease)));
    cbn [andb]; split; try (by left); try (by right);
    split; try done; try lia.
Qed.

Lemma lease_hard_evicted_after_last_seen_witness :
  leases (checkExpirations (300 * Second)
            (checkExpirations (15 * Second)
               (Touch "node-1" 0 Scenario.presenceManager)).1).1 !! "node-1"
  = None.
Proof.
  pose proof (lease_hard_evicted_after_last_seen
                (checkExpirations (15 * Second)
                   (Touch "node-1" 0 Scenario.presenceManager)).1
                "node-1"
                {| LastSeen := 0; LastExpired := 15 * Second; MarkedOffline := true |}
                (300 * Second)) as H.
  destruct H as [H _].
  - vm_compute. reflexivity.
  - destruct (H eq_refl) as [[_ Hrm] _].
    apply Hrm. vm_compute. repeat split; discriminate.
Defined.

(** The scenario of the specification: heartbeat at t = 0; the sweep at
    t = 10 s leaves the lease alone, the sweep at t = 20 s marks the
    node inactive. *)
Example presence_scenario :
  let pm := Touch "node-1" 0 Scenario.presenceManager in
  checkExpirations (10 * Second) pm = (pm, []) /\
  (checkExpirations (20 * Second) pm).2 = [UpdateAgentStatus "node-1" inactiveUpdate].
Proof. vm_compute. split; reflexivity. Qed.

End PresenceFacts.

(** ** The health monitor *)

Module HealthFacts.

Import Go Types Health.

Lemma probeStatus_cases p :
  (p = Storage.Ok "running" /\ probeStatus p = HealthStatusActive) \/
  (p <> Storage.Ok "running" /\ probeStatus p = HealthStatusInactive).
Proof.
  destruct p as [status|err]; cbn.
  - case_bool_decide as H; [left; by subst|right].
    split; [congruence|done].
  - right. by split.
Qed.

(** The time test of the debounce branch is never reached: the branch
    asks for a recorded status of inactive after the record was set to
    the new, active, status. *)
Lemma checkAgentHealth_run hm p nodeID agent :
  activeAgents hm !! nodeID = Some agent ->
  let newStatus := probeStatus (probe p) in
  let hm' := setActiveAgents (<[nodeID := polled p agent]> (activeAgents hm)) hm in
  checkAgentHealth hm p nodeID =
    if bool_decide (LastStatus agent <> newStatus) then
      match statusManager hm with
      | Some updateAgentStatus => pushUnified updateAgentStatus hm' p nodeID newStatus
      | None => pushLegacy hm' p nodeID newStatus
      end
    else (hm', []).
Proof.
  intros Hl newStatus hm'. subst hm'. unfold checkAgentHealth, polled.
  rewrite Hl. fold newStatus.
  cbn [LastStatus LastChecked setLastChecked setLastStatus NodeID BaseURL].
  destruct (bool_decide (LastStatus agent <> newStatus)); [|done].
  cbn [andb].
  destruct (probeStatus_cases (probe p)) as [[_ Hs]|[_ Hs]];
    fold newStatus in Hs; rewrite Hs; reflexivity.
Qed.

Lemma pushUnified_effects sm hm p nodeID newStatus :
  exists rest,
    (pushUnified sm hm p nodeID newStatus).2 =
      UpdateAgentStatus nodeID (healthCheckUpdate newStatus) :: rest /\
    forall n u, UpdateAgentStatus n u ∉ rest.
Proof.
  unfold pushUnified.
  destruct (sm nodeID (healthCheckUpdate newStatus)); cbn [snd app];
    destruct (isActive newStatus); eexists; (split; [reflexivity|]);
    intros n u Hin; not_among Hin.
Qed.

Lemma pushLegacy_effects hm p nodeID newStatus n u :
  UpdateAgentStatus n u ∉ (pushLegacy hm p nodeID newStatus).2.
Proof.
  unfold pushLegacy.
  destruct (updateAgentHealth _ _ _); [|destruct (getAgent _ _)];
    cbn [snd app]; destruct (isActive newStatus), (uiService hm);
    intros Hin; not_among Hin.
Qed.

Lemma filter_none {A} (f : A -> bool) (l : list A) :
  (forall x, x ∈ l -> f x = false) -> List.filter f l = [].
Proof.
  induction l as [|x l IH]; intros H; [done|]. cbn.
  rewrite (H x) by (by left). apply IH. intros y Hy. apply H. by right.
Qed.

Lemma pushUnified_registry sm hm p nodeID newStatus :
  activeAgents (pushUnified sm hm p nodeID newStatus).1 = activeAgents hm.
Proof.
  unfold pushUnified. destruct (sm _ _); [done|]. by destruct (isActive _).
Qed.

Lemma pushLegacy_registry hm p nodeID newStatus :
  activeAgents (pushLegacy hm p nodeID newStatus).1 = activeAgents hm.
Proof.
  unfold pushLegacy. destruct (updateAgentHealth _ _ _); [done|].
  destruct (getAgent _ _); [|done]. by destruct (isActive _).
Qed.

(** C8: the probe outcome maps to active exactly for a successful
    "running" answer and to inactive otherwise; an update sent to the
    status manager carries active with score 75, or inactive with
    score 0, accordingly, and is sent only when the mapped status
    differs from the status recorded for the agent: a poll that finds
    the status unchanged has no effect outside the monitor, and a poll
    that finds it changed sends, to an attached status manager, that
    one update.  The mapped status is recorded either way. *)
Theorem health_check_pushes_on_change hm p nodeID :
  let newStatus := probeStatus (probe p) in
  let out := checkAgentHealth hm p nodeID in
  (probe p = Storage.Ok "running" -> newStatus = HealthStatusActive) /\
  (probe p <> Storage.Ok "running" -> newStatus = HealthStatusInactive) /\
  healthCheckUpdate HealthStatusActive =
    {| State := Some AgentStateActive; HealthScore := Some 75;
       Source := StatusSourceHealthCheck; Reason := "HTTP health check result" |} /\
  healthCheckUpdate HealthStatusInactive =
    {| State := Some AgentStateInactive; HealthScore := Some 0;
       Source := StatusSourceHealthCheck; Reason := "HTTP health check result" |} /\
  (forall n u, UpdateAgentStatus n u ∈ out.2 ->
     n = nodeID /\ u = healthCheckUpdate newStatus /\
     exists agent, activeAgents hm !! nodeID = Some agent /\
                   LastStatus agent <> newStatus) /\
  (forall agent, activeAgents hm !! nodeID = Some agent ->
     (LastStatus agent = newStatus -> out.2 = []) /\
     (LastStatus agent <> newStatus -> is_Some (statusManager hm) ->
        List.filter (pushesStatus nodeID) out.2 =
          [UpdateAgentStatus nodeID (healthCheckUpdate newStatus)]) /\
     exists agent', activeAgents out.1 !! nodeID = Some agent' /\
                    LastStatus agent' = newStatus).
Proof.
  intros newStatus out.
  split; [|split; [|split; [done|split; [done|split]]]].
  - intros Hp. destruct (probeStatus_cases (probe p)) as [[_ H]|[H _]]; done.
  - intros Hp. destruct (probeStatus_cases (probe p)) as [[H _]|[_ H]]; done.
  - intros n u Hin. subst out.
    destruct (activeAgents hm !! nodeID) as [agent|] eqn:Hl.
    2:{ unfold checkAgentHealth in Hin. rewrite Hl in Hin.
        by apply elem_of_nil in Hin. }
    rewrite (checkAgentHealth_run _ _ _ _ Hl) in Hin. fold newStatus in Hin.
    case_bool_decide as Hch; [|by apply elem_of_nil in Hin].
    destruct (statusManager hm) as [sm|].
    + destruct (pushUnified_effects sm
                  (setActiveAgents (<[nodeID:=polled p agent]> (activeAgents hm)) hm)
                  p nodeID newStatus) as (rest & Heff & Hrest).
      rewrite Heff in Hin. apply elem_of_cons in Hin as [[= -> ->]|Hin].
      * split; [done|]. split; [done|]. by exists agent.
      * by apply Hrest in Hin.
    + by apply pushLegacy_effects in Hin.
  - intros agent Hl. subst out.
    rewrite (checkAgentHealth_run _ _ _ _ Hl). fold newStatus.
    split; [|split].
    + intros Heq. by rewrite bool_decide_eq_false_2 by (by intros ?).
    + intros Hne [sm Hsm]. rewrite bool_decide_eq_true_2 by done. rewrite Hsm.
      destruct (pushUnified_effects sm
                  (setActiveAgents (<[nodeID:=polled p agent]> (activeAgents hm)) hm)
                  p nodeID newStatus) as (rest & Heff & Hrest).
      rewrite Heff. cbn [List.filter pushesStatus].
      rewrite bool_decide_eq_true_2 by done. f_equal.
      apply filter_none. intros e He. destruct e; try done.
      by apply Hrest in He.
    + exists (polled p agent). split; [|done].
      case_bool_decide.
      * destruct (statusManager hm) as [sm|].
        -- rewrite pushUnified_registry. cbn. apply lookup_insert_eq.
        -- rewrite pushLegacy_registry. cbn. apply lookup_insert_eq.
      * cbn. apply lookup_insert_eq.
Qed.

(** C3 fails on the code: whatever the clock readings of the poll, an
    agent recorded inactive whose probe answers "running" has the
    active update sent to the status manager.  (The window test sits
    behind a comparison of the recorded status, already overwritten
    with the new one, against inactive.) *)
Theorem recovery_is_pushed_at_once hm p nodeID agent sm :
  activeAgents hm !! nodeID = Some agent ->
  LastStatus agent = HealthStatusInactive ->
  statusManager hm = Some sm ->
  probe p = Storage.Ok "running" ->
  List.filter (pushesActive nodeID) (checkAgentHealth hm p nodeID).2 =
    [UpdateAgentStatus nodeID
       {| State := Some AgentStateActive; HealthScore := Some 75;
          Source := StatusSourceHealthCheck;
          Reason := "HTTP health check result" |}].
Proof.
  intros Hl Hin Hsm Hp.
  rewrite (checkAgentHealth_run _ _ _ _ Hl), Hp, Hin, Hsm.
  cbn [probeStatus]. rewrite (bool_decide_eq_true_2 ("running" = "running")) by done.
  rewrite bool_decide_eq_true_2 by done.
  destruct (pushUnified_effects sm
              (setActiveAgents
                 (<[nodeID:=polled p agent]> (activeAgents hm)) hm)
              p nodeID HealthStatusActive) as (rest & Heff & Hrest).
  rewrite Heff. cbn [List.filter pushesActive State healthCheckUpdate stateAndScore fst].
  rewrite bool_decide_eq_true_2 by done. cbn [andb]. f_equal.
  apply filter_none. intros e He. destruct e; try done.
  by apply Hrest in He.
Qed.

(** Marked inactive by the poll at t = 10 s, probed "running" at
    t = 20 s: the active update goes out 10 s into the 30 s window. *)
Lemma recovery_is_pushed_at_once_witness :
  let hm0 := RegisterAgent "node-1" "http://node-1:8001" 0 Scenario.healthMonitor in
  let poll1 := checkAgentHealth hm0
                 (Scenario.poll (Storage.Err "connection refused") (10 * Second))
                 "node-1" in
  let poll2 := checkAgentHealth poll1.1
                 (Scenario.poll (Storage.Ok "running") (20 * Second)) "node-1" in
  poll1.2 = [UpdateAgentStatus "node-1" (healthCheckUpdate HealthStatusInactive)] /\
  Sub (20 * Second) (10 * Second) < 30 * Second /\
  List.filter (pushesActive "node-1") poll2.2 =
    [UpdateAgentStatus "node-1"
       {| State := Some AgentStateActive; HealthScore := Some 75;
          Source := StatusSourceHealthCheck;
          Reason := "HTTP health check result" |}].
Proof.
  intros hm0 poll1 poll2. split; [vm_compute; reflexivity|].
  split; [vm_compute; reflexivity|].
  apply (recovery_is_pushed_at_once poll1.1
           (Scenario.poll (Storage.Ok "running") (20 * Second)) "node-1"
           {| NodeID := "node-1"; BaseURL := "http://node-1:8001";
              LastStatus := HealthStatusInactive; LastChecked := 10 * Second |}
           Scenario.statusManager).
  - vm_compute. reflexivity.
  - reflexivity.
  - reflexivity.
  - reflexivity.
Defined.

(** The first poll of a registered agent that answers "running". *)
Example first_poll_pushes_active :
  (checkAgentHealth
     (RegisterAgent "node-1" "http://node-1:8001" 0 Scenario.healthMonitor)
     (Scenario.poll (Storage.Ok "running") (10 * Second)) "node-1").2
  = [UpdateAgentStatus "node-1" (healthCheckUpdate HealthStatusActive);
     CheckMCPHealthForNode "node-1"].
Proof. vm_compute. reflexivity. Qed.

End HealthFacts.

(** ** Creating, reading and updating execution records *)

Module RecordsFacts.

Import Go Storage Records.

Lemma payload_round_trip raw : default [] (bytesOrNil raw) = raw.
Proof. by destruct raw. Qed.


Lemma scanRow_updateRow u row :
  execution_id row = ExecutionID u ->
  scanRow (updateRow u row) = setWebhook false [] (setCreatedAt (created_at row) u).
Proof.
  intros Hid. unfold scanRow, updateRow, setWebhook, setCreatedAt.
  cbn -[bytesOrNil]. by rewrite !payload_round_trip, Hid.
Qed.


Lemma find_hasID_fmap executionID (f : Row -> Row) db :
  (forall r, execution_id (f r) = execution_id r) ->
  List.find (hasID executionID) (f <$> db) = f <$> List.find (hasID executionID) db.
Proof.
  intros Hf. induction db as [|x db IH]; [done|].
  rewrite fmap_cons. cbn [List.find]. unfold hasID at 1 3. rewrite Hf.
  by destruct (bool_decide (execution_id x = executionID)).
Qed.

Lemma GetExecutionRecord_healthy ls executionID db :
  driver ls = healthy ->
  GetExecutionRecord ls executionID (connect db) =
    (Ok (enrichExecutionWebhook ls (scanRow <$> List.find (hasID executionID) db) true),
     closed db [SelectExecution executionID]).
Proof.
  intros Hd. unfold GetExecutionRecord, queryRow, scanExecution, bind, send, read,
    ret, view, connect, closed. rewrite Hd. cbn.
  by destruct (List.find (hasID executionID) db).
Qed.

Lemma CreateExecutionRecord_healthy ls now e db :
  driver ls = healthy ->
  CreateExecutionRecord ls now (Some e) (connect db) =
    (Ok (stamp now e), closed (db ++ [insertRow (stamp now e)]) []).
Proof.
  intros Hd. unfold CreateExecutionRecord, bind, check, read, write, ret, view, connect.
  by rewrite Hd.
Qed.



(** X2: after a successful update of the row an id selects, reading
    that id returns what the mutator handed back, stamped with the
    time of the update, except for the creation time, which stays the
    stored row's. *)
Theorem update_then_get_round_trip ls now executionID updater db row updated :
  driver ls = healthy ->
  List.find (hasID executionID) db = Some row ->
  updater (Some (scanRow row)) = UpdaterOk updated ->
  ExecutionID updated = executionID ->
  let out := UpdateExecutionRecord ls now executionID (Some updater) (connect db) in
  out.1 = Ok (enrichExecutionWebhook ls (Some (setUpdatedAt now updated)) true) /\
  (GetExecutionRecord ls executionID (connect (committed out.2))).1 =
    Ok (enrichExecutionWebhook ls
          (Some (setWebhook false []
                   (setCreatedAt (created_at row) (setUpdatedAt now updated))))
          true).
Proof.
  intros Hd Hfind Hupd Hid out. subst out.
  rewrite StorageFacts.UpdateExecutionRecord_run, Hfind.
  cbn [fmap option_fmap option_map]. rewrite Hupd, Hd. unfold healthy. cbv zeta.
  cbn [fst snd closed committed]. split; [done|].
  rewrite (GetExecutionRecord_healthy _ _ _ Hd). cbn [fst]. unfold applyStmt.
  rewrite find_hasID_fmap, Hfind.
  2:{ intros r. by destruct (hasID _ r). }
  cbn [fmap option_fmap option_map].
  assert (Hrow : hasID (ExecutionID (setUpdatedAt now updated)) row = true).
  { apply List.find_some in Hfind as [_ Hh]. cbn [ExecutionID setUpdatedAt].
    by rewrite Hid. }
  rewrite Hrow, scanRow_updateRow; [done|].
  by apply bool_decide_eq_true in Hrow.
Qed.

Lemma update_then_get_round_trip_witness :
  let db := [Scenario.execution "exec-1" "running" 7] in
  let out := UpdateExecutionRecord Scenario.localStorage 50 "exec-1"
               (Some Scenario.markFailed) (connect db) in
  exists e,
    (GetExecutionRecord Scenario.localStorage "exec-1" (connect (committed out.2))).1
      = Ok (Some e) /\
    Status e = "failed" /\ UpdatedAt e = 50 /\ CreatedAt e = 7.
Proof.
  intros db out.
  destruct (update_then_get_round_trip Scenario.localStorage 50 "exec-1"
              Scenario.markFailed db (Scenario.execution "exec-1" "running" 7)
              _ eq_refl eq_refl eq_refl eq_refl) as [_ Hget].
  subst out db. eexists. split; [exact Hget|]. by repeat split.
Defined.

(** X3: whatever the driver does and whatever the mutator returns,
    [UpdateExecutionRecord] leaves no transaction open, neither adds
    nor removes a row, never changes the id or the creation time of a
    row, and, when it returns an error, leaves the whole table as it
    found it. *)
Theorem UpdateExecutionRecord_atomic ls now executionID updater db :
  let out := UpdateExecutionRecord ls now executionID updater (connect db) in
  pending out.2 = None /\
  (forall msg, out.1 = Err msg -> committed out.2 = db) /\
  length (committed out.2) = length db /\
  (forall i row, db !! i = Some row ->
     exists row', committed out.2 !! i = Some row' /\
       execution_id row' = execution_id row /\ created_at row' = created_at row).
Proof.
  intros out. subst out. destruct updater as [updater|].
  2:{ cbn. repeat split; eauto. }
  rewrite StorageFacts.UpdateExecutionRecord_run.
  destruct (driver ls BeginTx 0%nat); [cbn; repeat split; eauto|].
  destruct (driver ls Scan 0%nat); [cbn; repeat split; eauto|].
  destruct (updater _) as [err|written|updated]; [cbn; repeat split; eauto| |].
  - destruct (driver ls Commit 0%nat); cbn; repeat split; eauto.
  - cbv zeta.
    destruct (driver ls Exec 0%nat); [cbn; repeat split; eauto|].
    destruct (driver ls Commit 0%nat); [cbn; repeat split; eauto|].
    cbn [fst snd closed committed pending]. split; [done|]. split; [done|].
    unfold applyStmt. split; [by rewrite length_fmap|].
    intros i row Hl. rewrite list_lookup_fmap, Hl. cbn [fmap option_fmap option_map].
    eexists. split; [done|]. by destruct (hasID _ row).
Qed.

End RecordsFacts.

(** ** More on sweeps *)

Module SweepFacts.

Import Go Storage Records StorageFacts.

Lemma Forall2_sweptRow_refl now (t : Table) : Forall2 (sweptRow now) t t.
Proof. induction t; constructor; [by left|done]. Qed.

Lemma sweptRow_step now rec r r' :
  sweptRow now r r' ->
  sweptRow now r
    (if staleUpdateApplies (id rec) r'
     then timeoutRow ExecutionStatusTimeout timeoutMessage now
            (staleDurationMS now rec) now r'
     else r').
Proof.
  intros H. destruct (staleUpdateApplies (id rec) r') eqn:Ha; [|done].
  unfold staleUpdateApplies in Ha. apply andb_true_iff in Ha as [_ Hs].
  destruct H as [->|(_ & d & _ & Hto)].
  - right. split; [done|]. exists (staleDurationMS now rec).
    split; [apply staleDurationMS_nonneg|apply timeoutRow_timedOut].
  - by rewrite (timedOut_not_in_flight _ _ _ _ Hto) in Hs.
Qed.

Lemma swept_table now rec t0 t :
  Forall2 (sweptRow now) t0 t ->
  Forall2 (sweptRow now) t0 (applyStmt (staleUpdate now rec) t).
Proof.
  intros H. unfold staleUpdate, applyStmt. apply Forall2_fmap_r.
  eapply Forall2_impl; [exact H|]. intros r r' Hr. by apply sweptRow_step.
Qed.

Lemma untouched_swept now t0 c : untouched t0 c -> swept now t0 c.
Proof.
  intros (_ & Hc & Hp). split.
  - rewrite Hc. apply Forall2_sweptRow_refl.
  - intros t Ht. congruence.
Qed.

Lemma send_swept now s t0 : triple (swept now t0) (send s) (swept now t0).
Proof. intros c r c' H HS. by inversion H; subst. Qed.

Lemma beginTx_swept now drv msg t0 :
  triple (swept now t0) (beginTx drv msg) (swept now t0).
Proof.
  unfold beginTx. apply triple_seq; [apply triple_check|intros _].
  apply triple_seq; [apply send_swept|intros _].
  intros c r c' H [HC HP]. inversion H; subst; clear H. split; [done|].
  cbn. by intros t [= <-].
Qed.

Lemma commit_swept now drv msg t0 :
  triple (swept now t0) (commit drv msg) (swept now t0).
Proof.
  unfold commit. apply triple_seq; [apply triple_check|intros _].
  apply triple_seq; [apply send_swept|intros _].
  intros c r c' H [HC HP]. inversion H; subst; clear H. split; [|done].
  cbn. unfold view. destruct (pending c) as [t|]; cbn; auto.
Qed.

Lemma deferRollback_swept {A} now (body : M A) t0 :
  triple (swept now t0) body (swept now t0) ->
  triple (swept now t0) (deferRollback body) (swept now t0).
Proof.
  intros Hb c r c' H HS. unfold deferRollback in H.
  destruct (body c) as [r1 c1] eqn:E. inversion H; subst; clear H.
  pose proof (Hb _ _ _ E HS) as [HC HP].
  destruct (pending c1) eqn:Ep; [|by apply (Hb _ _ _ E HS)].
  split; [done|]. by intros t [=].
Qed.

Lemma exec_swept now drv i rec msg t0 :
  triple (swept now t0) (exec drv i (staleUpdate now rec) msg) (swept now t0).
Proof.
  unfold exec. apply triple_seq; [apply triple_check|intros _].
  apply triple_seq; [apply send_swept|intros _].
  intros c r c' H [HC HP]. unfold bind, read, write, ret in H.
  inversion H; subst; clear H. unfold view.
  destruct (pending c) as [t|] eqn:Ep; cbn.
  - split; [done|]. intros t' [= <-]. by apply swept_table, HP.
  - split; [by apply swept_table|]. by intros t [=].
Qed.

Lemma reapLoop_swept drv now stale t0 : forall i updated,
  triple (swept now t0) (reapLoop drv now i stale updated) (swept now t0).
Proof.
  induction stale as [|rec stale IH]; intros i updated; cbn [reapLoop].
  - apply triple_ret.
  - apply triple_seq; [apply exec_swept|intros n].
    apply triple_seq; [apply triple_check|intros _]. apply IH.
Qed.

Lemma MarkStaleExecutions_swept ls now1 now2 others staleAfter limit db :
  triple (untouched db)
    (MarkStaleExecutions ls now1 now2 others staleAfter limit)
    (fun c => untouched db c \/ swept now2 (others db) c).
Proof.
  unfold MarkStaleExecutions.
  destruct (limit <=? 0).
  { eapply triple_weaken with (P := untouched db) (Q := untouched db);
      [apply triple_ret | auto | intros; left; auto]. }
  eapply triple_bind with (R := untouched db); [apply triple_check| |by left; auto].
  intros _.
  eapply triple_bind with (R := untouched db); [apply triple_check| |by left; auto].
  intros _.
  eapply triple_bind with (R := untouched db);
    [by apply send_untouched| |by left; auto].
  intros _.
  eapply triple_bind with (R := untouched db);
    [intros c r c' H; inversion H; subst; auto| |by left; auto].
  intros t.
  eapply triple_bind with (R := untouched db);
    [apply scanStale_untouched| |by left; auto].
  intros stale.
  eapply triple_bind with (R := untouched db); [apply triple_check| |by left; auto].
  intros _.
  destruct (length stale =? 0)%nat.
  { eapply triple_weaken with (P := untouched db) (Q := untouched db);
      [apply triple_ret | auto | intros; left; auto]. }
  eapply triple_bind with (R := swept now2 (others db)); [| |by right].
  { eapply triple_weaken with (P := untouched db) (Q := untouched (others db));
      [apply yield_untouched | auto | intros c; apply untouched_swept]. }
  intros _.
  eapply triple_weaken with (P := swept now2 (others db))
                            (Q := swept now2 (others db)); [|auto|by right].
  apply deferRollback_swept.
  apply triple_seq; [apply beginTx_swept|intros _].
  apply triple_seq; [apply triple_check|intros _].
  apply triple_seq; [apply reapLoop_swept|intros updated].
  apply triple_seq; [apply commit_swept|intros _].
  apply triple_ret.
Qed.

(** X4: whatever the driver does and whatever other connections write
    between the SELECT and the batch, a sweep neither adds nor removes
    a row and changes a row in one way only: a row that was in flight
    when the batch started may end with status timeout, the fixed
    message, [completed_at] and [updated_at] at the time of the batch
    and a non-negative [duration_ms]; every other column of it stays
    as it was. *)
Theorem sweep_only_stamps_timeouts ls now1 now2 others staleAfter limit db :
  let out := MarkStaleExecutions ls now1 now2 others staleAfter limit (connect db) in
  committed out.2 = db \/
  Forall2
    (fun r r' =>
       r' = r \/
       (status r ∈ ["running"; "pending"; "queued"] /\
        status r' = "timeout" /\
        error_message r' = Some "execution timed out" /\
        completed_at r' = Some now2 /\
        updated_at r' = now2 /\
        (exists durationMS, 0 <= durationMS /\ duration_ms r' = Some durationMS) /\
        execution_id r' = execution_id r /\
        run_id r' = run_id r /\
        parent_execution_id r' = parent_execution_id r /\
        agent_node_id r' = agent_node_id r /\
        reasoner_id r' = reasoner_id r /\
        node_id r' = node_id r /\
        input_payload r' = input_payload r /\
        result_payload r' = result_payload r /\
        input_uri r' = input_uri r /\
        result_uri r' = result_uri r /\
        session_id r' = session_id r /\
        actor_id r' = actor_id r /\
        started_at r' = started_at r /\
        started_at_zone r' = started_at_zone r /\
        created_at r' = created_at r))
    (others db) (committed out.2).
Proof.
  intros out.
  pose proof (MarkStaleExecutions_swept ls now1 now2 others staleAfter limit db
                (connect db) out.1 out.2 (surjective_pairing _)
                (untouched_connect db)) as H.
  cbv beta in H. destruct H as [(_ & Hc & _)|[HC _]]; [by left|right].
  eapply Forall2_impl; [exact HC|].
  intros r r' [->|(Hs & d & Hd & Hto)]; [by left|right].
  split; [by apply in_flight_spec|].
  destruct Hto as (H1 & H2 & H3 & H4 & H5 & Hrest).
  split; [done|]. split; [done|]. split; [done|]. split; [done|].
  split; [by exists d|]. exact Hrest.
Qed.

(** *** A failed sweep persists nothing *)

Lemma rtriple_bind {A B} (m : M A) (k : A -> M B) P R (Q : Result B -> Conn -> Prop) :
  triple P m R -> (forall e c, R c -> Q (Err e) c) ->
  (forall a, rtriple R (k a) Q) ->
  rtriple P (bind m k) Q.
Proof.
  intros Hm HR Hk c r c' H HP.
  apply bind_inv in H as [(a & c1 & H1 & H2)|(e & H1 & ->)].
  - eapply Hk; eauto.
  - eapply HR, Hm; eauto.
Qed.

Lemma check_inTx drv call i msg t0 : triple (inTx t0) (check drv call i msg) (inTx t0).
Proof. apply triple_check. Qed.

Lemma exec_inTx drv i s msg t0 : triple (inTx t0) (exec drv i s msg) (inTx t0).
Proof.
  unfold exec. apply triple_seq; [apply triple_check|intros _].
  apply triple_seq; [by intros c r c' H HI; inversion H; subst|intros _].
  intros c r c' H [HC [t HP]]. unfold bind, read, write, ret in H.
  inversion H; subst; clear H. rewrite HP. by split; [|eexists].
Qed.

Lemma reapLoop_inTx drv now stale t0 : forall i updated,
  triple (inTx t0) (reapLoop drv now i stale updated) (inTx t0).
Proof.
  induction stale as [|rec stale IH]; intros i updated; cbn [reapLoop].
  - apply triple_ret.
  - apply triple_seq; [apply exec_inTx|intros n].
    apply triple_seq; [apply triple_check|intros _]. apply IH.
Qed.

Lemma batch_error drv now stale msg1 msg2 msg3 t0 :
  rtriple (fun c => committed c = t0 /\ pending c = None)
    (deferRollback
       (beginTx drv msg1 ;;;
        check drv Prepare 0 msg2 ;;;
        updated <- reapLoop drv now 0 stale 0 ;;
        commit drv msg3 ;;;
        ret updated))
    (fun r c => forall msg, r = Err msg -> committed c = t0 /\ pending c = None).
Proof.
  intros c r c' H [HC HP] msg ->. unfold deferRollback in H.
  match type of H with
  | context [?body c] => destruct (body c) as [r1 c1] eqn:E
  end.
  inversion H; subst; clear H.
  assert (Hc1 : committed c1 = committed c).
  { apply bind_inv in E as [(? & c2 & Hb & E)|(e & Hb & _)].
    2:{ unfold beginTx, bind, check, send, ret, fail in Hb.
        destruct (drv BeginTx 0%nat); by inversion Hb. }
    assert (H2 : inTx (committed c) c2).
    { unfold beginTx, bind, check, send, ret, fail in Hb.
      destruct (drv BeginTx 0%nat); inversion Hb; subst. by split; [|eexists]. }
    apply bind_inv in E as [(? & c3 & Hp & E)|(e & Hp & _)].
    2:{ by apply (check_inTx _ _ _ _ _ _ _ _ Hp H2). }
    pose proof (check_inTx _ _ _ _ _ _ _ _ Hp H2) as H3.
    apply bind_inv in E as [(u & c4 & Hl & E)|(e & Hl & _)].
    2:{ by apply (reapLoop_inTx _ _ _ _ _ _ _ _ _ Hl H3). }
    pose proof (reapLoop_inTx _ _ _ _ _ _ _ _ _ Hl H3) as [H4 _].
    apply bind_inv in E as [(? & c5 & Hcm & E)|(e & Hcm & _)].
    { inversion E. }
    unfold commit, bind, check, send, ret, fail in Hcm.
    destruct (drv Commit 0%nat); by inversion Hcm; subst. }
  destruct (pending c1) eqn:Ep; cbn; by rewrite ?Hc1, ?Ep.
Qed.

(** X5: whatever the driver does, a sweep that returns an error has
    persisted none of its updates: the table is the one the sweep
    started from, or that table with the writes other connections
    committed meanwhile, and no transaction is left open. *)
Theorem failed_sweep_persists_nothing ls now1 now2 others staleAfter limit db msg :
  let out := MarkStaleExecutions ls now1 now2 others staleAfter limit (connect db) in
  out.1 = Err msg ->
  (committed out.2 = db \/ committed out.2 = others db) /\ pending out.2 = None.
Proof.
  intros out Herr.
  assert (H : rtriple (untouched db)
                (MarkStaleExecutions ls now1 now2 others staleAfter limit)
                (fun r c => forall msg, r = Err msg ->
                   (committed c = db \/ committed c = others db) /\ pending c = None)).
  { assert (HU : forall e c, untouched db c -> forall msg0 : string,
                 @Err Z e = Err msg0 ->
                 (committed c = db \/ committed c = others db) /\ pending c = None).
    { intros e c (_ & Hc & Hp) _ _. split; [by left|done]. }
    unfold MarkStaleExecutions. destruct (limit <=? 0).
    { intros c r c' H _ m ->. inversion H. }
    apply rtriple_bind with (R := untouched db); [apply triple_check|exact HU|].
    intros _.
    apply rtriple_bind with (R := untouched db); [apply triple_check|exact HU|].
    intros _.
    apply rtriple_bind with (R := untouched db); [by apply send_untouched|exact HU|].
    intros _.
    apply rtriple_bind with (R := untouched db);
      [intros c r c' H; inversion H; subst; auto|exact HU|].
    intros t.
    apply rtriple_bind with (R := untouched db);
      [apply scanStale_untouched|exact HU|].
    intros stale.
    apply rtriple_bind with (R := untouched db); [apply triple_check|exact HU|].
    intros _. destruct (length stale =? 0)%nat.
    { intros c r c' H _ m ->. inversion H. }
    apply rtriple_bind with (R := untouched (others db));
      [apply yield_untouched| |].
    { intros e c (_ & Hc & Hp) _ _. split; [by right|done]. }
    intros _ c r c' H (_ & Hc & Hp) m Hm.
    destruct (batch_error _ _ _ _ _ _ (others db) c r c' H (conj Hc Hp) m Hm)
      as [Hc' Hp'].
    split; [by right|done]. }
  apply (H (connect db) out.1 out.2 (surjective_pairing _) (untouched_connect db)
           msg Herr).
Qed.

Lemma failed_sweep_persists_nothing_witness :
  let ls := {| driver := fun call i =>
                 match call, i with Exec, 1%nat => true | _, _ => false end;
               HasExecutionWebhook := fun _ => Ok false;
               ListExecutionWebhookEvents := fun _ => Ok [] |} in
  let db := [Scenario.execution "exec-1" "running" 0;
             Scenario.execution "exec-2" "queued" 1] in
  committed (MarkStaleExecutions ls (90 * Second) (90 * Second) (fun t => t)
               (60 * Second) 10 (connect db)).2 = db.
Proof.
  intros ls db.
  destruct (failed_sweep_persists_nothing ls (90 * Second) (90 * Second)
              (fun t => t) (60 * Second) 10 db "update stale execution exec-2"
              eq_refl) as [[H|H] _]; exact H.
Defined.

(** *** The count a sweep returns *)

Lemma reapLoop_healthy_count now stale : forall i updated c t,
  pending c = Some t ->
  (reapLoop healthy now i stale updated c).1 = Ok (updated + reapCount now stale t).
Proof.
  induction stale as [|rec stale IH]; intros i updated c t Hp.
  - cbn. by rewrite Z.add_0_r.
  - cbn [reapLoop reapCount]. unfold bind at 1. rewrite (exec_healthy _ _ _ _ t Hp).
    unfold bind at 1. unfold check at 1, healthy at 1, ret at 1.
    rewrite (IH (S i)
               (if 0 <? affected (staleUpdate now rec) t
                then updated + 1 else updated)
               {| committed := committed c;
                  pending := Some (applyStmt (staleUpdate now rec) t);
                  issued := issued c ++ [staleUpdate now rec] |}
               (applyStmt (staleUpdate now rec) t) eq_refl).
    f_equal. destruct (0 <? affected (staleUpdate now rec) t); lia.
Qed.

Lemma MarkStaleExecutions_count ls now1 now2 others staleAfter limit db :
  driver ls = healthy -> 0 < limit ->
  let stale := toStale <$> selectStale (Add now1 (wrap64 (- staleAfter))) limit db in
  (MarkStaleExecutions ls now1 now2 others staleAfter limit (connect db)).1 =
    if (length stale =? 0)%nat then Ok 0
    else Ok (reapCount now2 stale (others db)).
Proof.
  intros Hdrv Hlim stale. unfold MarkStaleExecutions.
  rewrite Hdrv. replace (limit <=? 0) with false by (symmetry; apply Z.leb_gt; lia).
  rewrite !bind_check_healthy, bind_send, bind_read.
  rewrite bind_scanStale_healthy, bind_check_healthy.
  unfold view, connect. cbn [committed pending issued default app]. fold stale.
  destruct (length stale =? 0)%nat; [done|].
  rewrite bind_yield. unfold deferRollback.
  rewrite bind_beginTx_healthy, bind_check_healthy.
  cbn [committed pending issued].
  unfold bind at 1.
  pose proof (reapLoop_healthy_count now2 stale 0%nat 0
                {| committed := others db; pending := Some (others db);
                   issued := [SelectStale (Add now1 (wrap64 (- staleAfter))) limit]
                             ++ [Begin] |}
                (others db) eq_refl) as Hn.
  destruct (reapLoop healthy now2 0 stale 0 _) as [[n|e] c1] eqn:E;
    cbn [fst] in Hn; [|discriminate Hn].
  injection Hn as ->. unfold bind. rewrite commit_healthy. cbn [ret].
  destruct (pending _); cbn; by rewrite Z.add_0_l.
Qed.

Lemma affected_positive now rec (t : Table) r :
  r ∈ t -> staleUpdateApplies (id rec) r = true ->
  0 < affected (staleUpdate now rec) t.
Proof.
  intros Hin Ha. unfold staleUpdate, affected.
  assert (Hf : r ∈ filter (fun r => staleUpdateApplies (id rec) r) t).
  { apply list_elem_of_filter. split; [by apply Is_true_eq_left|done]. }
  destruct (filter _ t); [by apply elem_of_nil in Hf|cbn; lia].
Qed.

(** With distinct ids every stale record finds its row still in flight. *)
Lemma reapCount_all now stale : forall t : Table,
  NoDup (id <$> stale) ->
  (forall rec, rec ∈ stale ->
     exists r, r ∈ t /\ staleUpdateApplies (id rec) r = true) ->
  reapCount now stale t = Z.of_nat (length stale).
Proof.
  induction stale as [|rec stale IH]; intros t Hnd Hrows; [done|].
  rewrite fmap_cons in Hnd. apply NoDup_cons in Hnd as [Hrec Hnd].
  cbn [reapCount length]. destruct (Hrows rec) as (r & Hr & Ha); [by left|].
  pose proof (affected_positive now rec t r Hr Ha) as Hpos.
  replace (0 <? affected (staleUpdate now rec) t) with true
    by (symmetry; by apply Z.ltb_lt).
  rewrite IH; [lia|done|].
  intros rec' Hin. destruct (Hrows rec') as (r' & Hr' & Ha'); [by right|].
  exists r'. split; [|done].
  unfold staleUpdate, applyStmt. apply list_elem_of_fmap. exists r'. split; [|done].
  assert (Hno : staleUpdateApplies (id rec) r' = false).
  { unfold staleUpdateApplies, hasID in *.
    apply andb_true_iff in Ha' as [Hid' _]. apply bool_decide_eq_true in Hid'.
    rewrite bool_decide_eq_false_2; [done|].
    intros Heq. apply Hrec. rewrite <- Heq, Hid'. by apply list_elem_of_fmap_2. }
  by rewrite Hno.
Qed.

(** Two rows of a table with distinct ids that carry the same id are
    one row. *)
Lemma NoDup_id_inj (db : Table) r r' :
  NoDup (execution_id <$> db) -> r ∈ db -> r' ∈ db ->
  execution_id r = execution_id r' -> r = r'.
Proof.
  induction db as [|x db IH]; intros Hnd Hr Hr' He; [by apply elem_of_nil in Hr|].
  rewrite fmap_cons in Hnd. apply NoDup_cons in Hnd as [Hx Hnd].
  apply elem_of_cons in Hr as [->|Hr]; apply elem_of_cons in Hr' as [->|Hr'].
  - done.
  - exfalso. apply Hx. rewrite He. by apply list_elem_of_fmap_2.
  - exfalso. apply Hx. rewrite <- He. by apply list_elem_of_fmap_2.
  - by apply IH.
Qed.

Lemma selected_in_flight cutoff limit db r :
  r ∈ selectStale cutoff limit db -> statusInFlight (status r) = true.
Proof.
  intros Hr. apply selectStale_elem in Hr as [_ Hst].
  unfold isStale in Hst. by apply andb_true_iff in Hst as [-> _].
Qed.

(** With distinct ids and no other writer the count returned is the
    number of rows the SELECT returned. *)
Lemma sweep_count ls now1 now2 staleAfter limit db :
  driver ls = healthy -> 0 < limit -> NoDup (execution_id <$> db) ->
  (MarkStaleExecutions ls now1 now2 (fun t => t) staleAfter limit (connect db)).1 =
    Ok (Z.of_nat (length (selectStale (Add now1 (wrap64 (- staleAfter))) limit db))).
Proof.
  intros Hdrv Hlim Hnd.
  set (selected := selectStale (Add now1 (wrap64 (- staleAfter))) limit db).
  rewrite (MarkStaleExecutions_count _ _ _ _ _ _ _ Hdrv Hlim).
  cbv zeta. fold selected. rewrite length_fmap.
  destruct (length selected =? 0)%nat eqn:E.
  - apply Nat.eqb_eq in E. by rewrite E.
  - rewrite reapCount_all; [by rewrite length_fmap| |].
    + rewrite <- list_fmap_compose.
      apply (selectStale_NoDup (Add now1 (wrap64 (- staleAfter))) limit db Hnd).
    + intros rec (r & -> & Hr)%list_elem_of_fmap.
      pose proof (selected_in_flight _ _ _ _ Hr) as Hs.
      apply selectStale_elem in Hr as [Hin _].
      exists r. split; [done|]. unfold staleUpdateApplies, hasID, toStale; cbn.
      by rewrite bool_decide_eq_true_2, Hs.
Qed.

(** On a working driver and with no other writer, the table a sweep
    leaves. *)
Lemma sweep_table ls now1 now2 staleAfter limit db :
  driver ls = healthy -> 0 < limit ->
  committed (MarkStaleExecutions ls now1 now2 (fun t => t) staleAfter limit
               (connect db)).2 =
    reapRow now2 (toStale <$> selectStale (Add now1 (wrap64 (- staleAfter))) limit db)
      <$> db.
Proof.
  intros Hdrv Hlim.
  destruct (MarkStaleExecutions_healthy ls now1 now2 (fun t => t) staleAfter
              limit db Hdrv Hlim) as (n & _ & Hrun).
  cbv zeta in Hrun. rewrite Hrun.
  destruct (length _ =? 0)%nat eqn:E; [|done].
  apply Nat.eqb_eq, nil_length_inv in E. rewrite E. cbn [snd committed].
  rewrite (list_fmap_ext (reapRow now2 []) Datatypes.id db)
    by (intros; apply reapRow_nil).
  by rewrite list_fmap_id.
Qed.

(** With distinct ids, the batch times out the rows selected and leaves
    every other row as it is. *)
Lemma reapRow_selected now cutoff limit db r :
  NoDup (execution_id <$> db) -> r ∈ db ->
  (r ∈ selectStale cutoff limit db /\
   reapRow now (toStale <$> selectStale cutoff limit db) r =
     timeoutRow ExecutionStatusTimeout timeoutMessage now
       (staleDurationMS now (toStale r)) now r) \/
  ((r ∉ selectStale cutoff limit db) /\
   reapRow now (toStale <$> selectStale cutoff limit db) r = r).
Proof.
  intros Hnd Hr. set (selected := selectStale cutoff limit db).
  pose proof (selectStale_NoDup cutoff limit db Hnd) as Hnd'. fold selected in Hnd'.
  unfold reapRow. destruct (statusInFlight (status r)) eqn:Hs.
  - destruct (List.find _ (toStale <$> selected)) as [rec|] eqn:Hf.
    + left. apply List.find_some in Hf as [Hin He].
      apply bool_decide_eq_true in He. apply list_elem_of_In in Hin.
      apply list_elem_of_fmap in Hin as (r0 & -> & Hr0).
      assert (r0 = r) as ->.
      { apply (NoDup_id_inj db); [done| |done|exact He].
        by apply selectStale_elem in Hr0 as [? _]. }
      by split.
    + right. split; [|done]. intros Hsel.
      by rewrite (find_toStale selected r Hnd' Hsel) in Hf.
  - right. split; [|done]. intros Hsel.
    apply selected_in_flight in Hsel. congruence.
Qed.

Lemma List_filter_filter {A} (f : A -> bool) (l : list A) :
  List.filter f l = filter (fun x => Is_true (f x)) l.
Proof.
  induction l as [|x l IH]; [done|]. cbn [List.filter]. rewrite filter_cons, IH.
  destruct (f x); by destruct (decide _).
Qed.

Lemma filter_length_fmap {A B} (f : A -> B) (p : B -> bool) (q : A -> bool)
    (l : list A) :
  (forall x, x ∈ l -> p (f x) = q x) ->
  length (List.filter p (f <$> l)) = length (List.filter q l).
Proof.
  induction l as [|x l IH]; intros H; [done|].
  rewrite fmap_cons. cbn [List.filter]. rewrite (H x) by (by left).
  destruct (q x); cbn [length]; rewrite IH; try done;
    intros y Hy; apply H; by right.
Qed.

Lemma filter_length_split {A} (p h : A -> bool) (l : list A) :
  length (List.filter p l) =
  (length (List.filter (fun x => p x && h x) l) +
   length (List.filter (fun x => p x && negb (h x)) l))%nat.
Proof.
  induction l as [|x l IH]; [done|]. cbn [List.filter].
  destruct (p x), (h x); cbn [andb negb length]; lia.
Qed.

(** The rows in flight after a sweep are those in flight before, less
    the rows selected. *)
Lemma in_flight_after now cutoff limit db :
  NoDup (execution_id <$> db) ->
  (length (List.filter (fun r => statusInFlight (status r))
             (reapRow now (toStale <$> selectStale cutoff limit db) <$> db)) +
   length (selectStale cutoff limit db))%nat =
  length (List.filter (fun r => statusInFlight (status r)) db).
Proof.
  intros Hnd. set (selected := selectStale cutoff limit db).
  pose proof (selectStale_NoDup cutoff limit db Hnd) as Hnd'. fold selected in Hnd'.
  set (hit := fun r => bool_decide (execution_id r ∈ execution_id <$> selected)).
  assert (Hhit : forall r, r ∈ db -> hit r = true -> r ∈ selected).
  { intros r Hr Hh. apply bool_decide_eq_true in Hh.
    apply list_elem_of_fmap in Hh as (r0 & He & Hr0).
    assert (r0 = r) as <-; [|done].
    apply (NoDup_id_inj db); [done| |done|done].
    by apply selectStale_elem in Hr0 as [? _]. }
  rewrite (filter_length_fmap _ _
             (fun r => statusInFlight (status r) && negb (hit r))).
  2:{ intros r Hr.
      pose proof (reapRow_selected now cutoff limit db r Hnd Hr) as H.
      fold selected in H. destruct H as [[Hsel ->]|[Hsel ->]].
      - cbn [status timeoutRow]. rewrite timeout_not_in_flight.
        rewrite (selected_in_flight _ _ _ _ Hsel). unfold hit.
        rewrite bool_decide_eq_true_2; [done|]. by apply list_elem_of_fmap_2.
      - destruct (hit r) eqn:Hh; [by apply Hhit in Hh|].
        by rewrite andb_true_r. }
  rewrite (filter_length_split (fun r => statusInFlight (status r)) hit db).
  enough (length (List.filter (fun r => statusInFlight (status r) && hit r) db)
          = length selected) by lia.
  rewrite <- (length_fmap execution_id), <- (length_fmap execution_id selected).
  apply Permutation_length, NoDup_Permutation.
  - rewrite List_filter_filter.
    eapply sublist_NoDup; [exact Hnd|]. apply fmap_sublist, sublist_filter.
  - exact Hnd'.
  - intros x. rewrite List_filter_filter. split.
    + intros (r & -> & Hr)%list_elem_of_fmap.
      apply list_elem_of_filter in Hr as [Hp Hr]. apply Is_true_eq_true in Hp.
      apply andb_true_iff in Hp as [_ Hh]. apply list_elem_of_fmap_2.
      by apply Hhit.
    + intros (r & -> & Hr)%list_elem_of_fmap. apply list_elem_of_fmap_2.
      apply list_elem_of_filter. split.
      * apply Is_true_eq_left. rewrite (selected_in_flight _ _ _ _ Hr). unfold hit.
        rewrite bool_decide_eq_true_2; [done|]. by apply list_elem_of_fmap_2.
      * by apply selectStale_elem in Hr as [? _].
Qed.

Lemma selectStale_count cutoff limit db :
  0 < limit ->
  Z.of_nat (length (selectStale cutoff limit db)) =
  Z.min limit (Z.of_nat (length (List.filter (isStale cutoff) db))).
Proof.
  intros Hlim. unfold selectStale.
  rewrite length_take, merge_sort_Permutation, List_filter_filter. lia.
Qed.

Lemma filter_isStale_UTC cutoff (db : Table) :
  Forall (fun r => started_at_zone r = UTC) db ->
  List.filter (isStale cutoff) db =
  List.filter (fun r => statusInFlight (status r) && (started_at r <=? cutoff)) db.
Proof.
  induction 1 as [|r db Hz Hall IH]; [done|]. cbn [List.filter]. rewrite IH.
  unfold isStale. by rewrite Hz, textLe_UTC.
Qed.

(** X6: on a working driver, with distinct execution ids, start times
    stored in UTC and no other writer, a sweep returns the number of
    rows it timed out: the smaller of the limit and the number of rows
    in flight whose start time is at or before the cutoff, which is
    also the number by which the rows in flight decrease.  Each row is
    left as it was or, having been in flight with a start time at or
    before the cutoff, is timed out: status timeout, the fixed message,
    [completed_at] and [updated_at] the time of the batch,
    [duration_ms] the whole milliseconds of [max(0, now - started_at)],
    every other column as it was. *)
Theorem sweep_returns_number_timed_out ls now1 now2 staleAfter limit db :
  driver ls = healthy -> 0 < limit -> NoDup (execution_id <$> db) ->
  Forall (fun r => started_at_zone r = UTC) db ->
  let cutoff := Add now1 (wrap64 (- staleAfter)) in
  let stale := fun r => statusInFlight (status r) && (started_at r <=? cutoff) in
  let inFlight := fun r => statusInFlight (status r) in
  let out := MarkStaleExecutions ls now1 now2 (fun t => t) staleAfter limit
               (connect db) in
  out.1 = Ok (Z.min limit (Z.of_nat (length (List.filter stale db)))) /\
  Z.of_nat (length (List.filter inFlight (committed out.2))) =
    Z.of_nat (length (List.filter inFlight db))
    - Z.min limit (Z.of_nat (length (List.filter stale db))) /\
  Forall2
    (fun r r' =>
       r' = r \/
       (status r ∈ ["running"; "pending"; "queued"] /\ started_at r <= cutoff /\
        timedOut now2 (Z.max 0 (Sub now2 (started_at r)) / 1000000) r r'))
    db (committed out.2).
Proof.
  intros Hdrv Hlim Hnd Hutc cutoff stale inFlight out.
  assert (Hn : Z.of_nat (length (selectStale cutoff limit db)) =
               Z.min limit (Z.of_nat (length (List.filter stale db)))).
  { rewrite selectStale_count by done. by rewrite filter_isStale_UTC. }
  subst out. rewrite (sweep_count _ _ _ _ _ _ Hdrv Hlim Hnd),
    (sweep_table _ _ _ _ _ _ Hdrv Hlim). fold cutoff. cbn [fst].
  split; [by rewrite Hn|]. split.
  - rewrite <- Hn. pose proof (in_flight_after now2 cutoff limit db Hnd) as H.
    subst inFlight. lia.
  - apply Forall2_fmap_r, Forall_Forall2_diag, Forall_forall. intros r Hr.
    unfold compose.
    destruct (reapRow_selected now2 cutoff limit db r Hnd Hr) as [[Hsel ->]|[_ ->]];
      [right|by left].
    apply selectStale_elem in Hsel as [_ Hst].
    rewrite Forall_forall in Hutc.
    apply (isStale_UTC cutoff r (Hutc r Hr)) in Hst as [Hs Hc].
    split; [done|]. split; [done|].
    rewrite staleDurationMS_max. apply timeoutRow_timedOut.
Qed.

Lemma sweep_returns_number_timed_out_witness :
  let out := MarkStaleExecutions Scenario.localStorage (90 * Second) (90 * Second)
               (fun t => t) (60 * Second) 10
               (connect [Scenario.execution "exec-1" "running" 0;
                         Scenario.execution "exec-2" "succeeded" 0;
                         Scenario.execution "exec-3" "queued" 5]) in
  out.1 = Ok 2 /\
  length (List.filter (fun r => statusInFlight (status r)) (committed out.2)) = 0%nat.
Proof.
  intros out.
  destruct (sweep_returns_number_timed_out Scenario.localStorage
              (90 * Second) (90 * Second) (60 * Second) 10
              [Scenario.execution "exec-1" "running" 0;
               Scenario.execution "exec-2" "succeeded" 0;
               Scenario.execution "exec-3" "queued" 5]
              eq_refl ltac:(lia)) as (H1 & H2 & _).
  - apply (bool_decide_unpack _). vm_compute. reflexivity.
  - repeat constructor.
  - fold out in H1, H2. split; [rewrite H1; reflexivity|].
    apply Nat2Z.inj. rewrite H2. reflexivity.
Defined.

(** *** Which rows a sweep takes, and what it leaves for the next *)

Lemma selectStale_split cutoff limit (db : Table) r :
  r ∈ db -> isStale cutoff r = true ->
  r ∈ selectStale cutoff limit db \/
  r ∈ drop (Z.to_nat limit)
        (merge_sort startedNoLater (filter (fun r => isStale cutoff r) db)).
Proof.
  intros Hin Hst. unfold selectStale. apply elem_of_app. rewrite take_drop.
  rewrite merge_sort_Permutation. apply list_elem_of_filter.
  split; [by apply Is_true_eq_left|done].
Qed.

(** The rows selected come before every stale row left out. *)
Lemma selectStale_oldest cutoff limit (db : Table) r r' :
  r ∈ selectStale cutoff limit db ->
  r' ∈ db -> isStale cutoff r' = true -> r' ∉ selectStale cutoff limit db ->
  startedNoLater r r'.
Proof.
  intros Hr Hin Hst Hnot.
  destruct (selectStale_split cutoff limit db r' Hin Hst) as [|Hdrop]; [done|].
  pose proof (StronglySorted_merge_sort startedNoLater
                (filter (fun r => isStale cutoff r) db)) as Hsorted.
  rewrite <- (take_drop (Z.to_nat limit)) in Hsorted.
  apply StronglySorted_app in Hsorted as (Hle & _ & _).
  by apply (Hle r r').
Qed.

(** X7: on a working driver, with distinct execution ids, start times
    stored in UTC and no other writer, the rows a sweep times out when
    its limit cuts the selection are the oldest: a row that was in
    flight with a start time at or before the cutoff and that the
    sweep left as it was started no earlier than any row the sweep
    timed out. *)
Theorem sweep_selects_oldest_first ls now1 now2 staleAfter limit db i j r r1 r' :
  driver ls = healthy -> 0 < limit -> NoDup (execution_id <$> db) ->
  Forall (fun r => started_at_zone r = UTC) db ->
  let cutoff := Add now1 (wrap64 (- staleAfter)) in
  let out := MarkStaleExecutions ls now1 now2 (fun t => t) staleAfter limit
               (connect db) in
  db !! i = Some r -> committed out.2 !! i = Some r1 -> status r1 <> status r ->
  db !! j = Some r' -> committed out.2 !! j = Some r' ->
  status r' ∈ ["running"; "pending"; "queued"] -> started_at r' <= cutoff ->
  started_at r <= started_at r'.
Proof.
  intros Hdrv Hlim Hnd Hutc cutoff out Hi Hi1 Hch Hj Hj1 Hs' Hc'.
  subst out. rewrite (sweep_table _ _ _ _ _ _ Hdrv Hlim) in Hi1, Hj1.
  fold cutoff in Hi1, Hj1. rewrite list_lookup_fmap in Hi1, Hj1.
  rewrite Hi in Hi1. rewrite Hj in Hj1.
  cbn [fmap option_fmap option_map] in Hi1, Hj1.
  injection Hi1 as <-. injection Hj1 as Hj1.
  pose proof (list_elem_of_lookup_2 _ _ _ Hi) as Hr.
  pose proof (list_elem_of_lookup_2 _ _ _ Hj) as Hr'.
  rewrite Forall_forall in Hutc.
  destruct (reapRow_selected now2 cutoff limit db r Hnd Hr) as [[Hsel _]|[_ Heq]];
    [|by rewrite Heq in Hch].
  assert (Hnot : r' ∉ selectStale cutoff limit db).
  { intros Hsel'.
    destruct (reapRow_selected now2 cutoff limit db r' Hnd Hr') as [[_ Heq]|[Hn _]];
      [|done].
    rewrite Heq in Hj1. apply in_flight_spec in Hs'.
    rewrite <- Hj1 in Hs'. cbn [status timeoutRow] in Hs'.
    by rewrite timeout_not_in_flight in Hs'. }
  assert (Hst : isStale cutoff r' = true)
    by (by apply (isStale_UTC cutoff r' (Hutc r' Hr'))).
  pose proof (selectStale_oldest cutoff limit db r r' Hsel Hr' Hst Hnot) as Hle.
  unfold startedNoLater in Hle.
  rewrite (Hutc r Hr), (Hutc r' Hr'), textLe_UTC in Hle. by apply Z.leb_le.
Qed.

Lemma sweep_selects_oldest_first_witness :
  started_at (Scenario.execution "exec-2" "queued" 3)
  <= started_at (Scenario.execution "exec-1" "running" 8).
Proof.
  apply (sweep_selects_oldest_first Scenario.localStorage (90 * Second) (90 * Second)
           (60 * Second) 1
           [Scenario.execution "exec-1" "running" 8;
            Scenario.execution "exec-2" "queued" 3]
           1%nat 0%nat (Scenario.execution "exec-2" "queued" 3)
           (timeoutRow "timeout" "execution timed out" (90 * Second) 89999
              (90 * Second) (Scenario.execution "exec-2" "queued" 3))
           (Scenario.execution "exec-1" "running" 8)).
  - reflexivity.
  - lia.
  - apply (bool_decide_unpack _). vm_compute. reflexivity.
  - repeat constructor.
  - reflexivity.
  - vm_compute. reflexivity.
  - discriminate.
  - reflexivity.
  - vm_compute. reflexivity.
  - by left.
  - vm_compute. discriminate.
Defined.

Lemma reapRow_hits now stale r rec :
  statusInFlight (status r) = true -> rec ∈ stale -> id rec = execution_id r ->
  statusInFlight (status (reapRow now stale r)) = false.
Proof.
  intros Hs Hin Hid. unfold reapRow. rewrite Hs.
  destruct (List.find _ stale) as [rec'|] eqn:Hf.
  - cbn [status timeoutRow]. apply timeout_not_in_flight.
  - apply list_elem_of_In in Hin. apply (List.find_none _ _ Hf rec) in Hin.
    by rewrite bool_decide_eq_true_2 in Hin.
Qed.

(** A row whose text is at or before a cutoff is at or before every
    later cutoff. *)
Lemma isStale_mono cutoff cutoff' r :
  cutoff' <= cutoff -> isStale cutoff' r = true -> isStale cutoff r = true.
Proof.
  intros Hle. unfold isStale, textLe, wallClock, UTC.
  rewrite !andb_true_iff, !orb_true_iff, !andb_true_iff.
  rewrite !Z.ltb_lt, !Z.eqb_eq. intros [Hs [Hlt|[Heq Hz]]]; (split; [done|]).
  - left. lia.
  - destruct (decide (cutoff' = cutoff)) as [->|Hne]; [by right|left; lia].
Qed.

(** Nothing stale is left when the limit did not cut the selection. *)
Lemma nothing_stale_after now cutoff cutoff' limit (db : Table) :
  cutoff' <= cutoff ->
  (length (selectStale cutoff limit db) < Z.to_nat limit)%nat ->
  filter (fun r => isStale cutoff' r)
    (reapRow now (toStale <$> selectStale cutoff limit db) <$> db) = [].
Proof.
  intros Hle Hlen.
  destruct (filter _ _) as [|x rest] eqn:E; [done|exfalso].
  assert (Hx : x ∈ filter (fun r => isStale cutoff' r)
                 (reapRow now (toStale <$> selectStale cutoff limit db) <$> db))
    by (rewrite E; by left).
  apply list_elem_of_filter in Hx as [Hst (r & -> & Hin)%list_elem_of_fmap].
  apply Is_true_eq_true in Hst.
  assert (Hs' : statusInFlight
                  (status (reapRow now (toStale <$> selectStale cutoff limit db) r))
                = true).
  { unfold isStale in Hst. by apply andb_true_iff in Hst as [? _]. }
  destruct (reapRow_cases now (toStale <$> selectStale cutoff limit db) r)
    as [Heq|(rec & _ & _ & _ & Heq)].
  2:{ rewrite Heq in Hs'. cbn [status timeoutRow] in Hs'. vm_compute in Hs'.
      discriminate Hs'. }
  rewrite Heq in Hs', Hst.
  apply (isStale_mono cutoff cutoff' r Hle) in Hst.
  assert (Hsel : r ∈ selectStale cutoff limit db).
  { unfold selectStale in *. rewrite take_ge.
    - rewrite merge_sort_Permutation. apply list_elem_of_filter.
      split; [by apply Is_true_eq_left|done].
    - rewrite length_take in Hlen. lia. }
  pose proof (reapRow_hits now (toStale <$> selectStale cutoff limit db) r
                (toStale r) Hs' (list_elem_of_fmap_2 toStale _ _ Hsel) eq_refl) as Hhit.
  rewrite Heq in Hhit. congruence.
Qed.

(** X8: on a working driver, with distinct execution ids and no other
    writer, a sweep that returns fewer rows than its limit leaves
    nothing for a second sweep with the same or an earlier cutoff: that
    sweep returns 0, sends its SELECT only and leaves the table as the
    first left it. *)
Theorem second_sweep_finds_nothing ls now1 now2 staleAfter limit db
    now1' now2' others' staleAfter' limit' n :
  driver ls = healthy -> 0 < limit -> 0 < limit' ->
  NoDup (execution_id <$> db) ->
  Add now1' (wrap64 (- staleAfter')) <= Add now1 (wrap64 (- staleAfter)) ->
  let first := MarkStaleExecutions ls now1 now2 (fun t => t) staleAfter limit
                 (connect db) in
  first.1 = Ok n -> n < limit ->
  MarkStaleExecutions ls now1' now2' others' staleAfter' limit'
    (connect (committed first.2))
  = (Ok 0, {| committed := committed first.2; pending := None;
              issued := [SelectStale (Add now1' (wrap64 (- staleAfter'))) limit'] |}).
Proof.
  intros Hdrv Hlim Hlim' Hnd Hle first Hn Hlt.
  set (cutoff := Add now1 (wrap64 (- staleAfter))) in *.
  set (cutoff' := Add now1' (wrap64 (- staleAfter'))) in *.
  assert (Hlen : (length (selectStale cutoff limit db) < Z.to_nat limit)%nat).
  { subst first. rewrite (sweep_count _ _ _ _ _ _ Hdrv Hlim Hnd) in Hn.
    fold cutoff in Hn. injection Hn as <-. lia. }
  assert (Hnone : selectStale cutoff' limit' (committed first.2) = []).
  { subst first. rewrite (sweep_table _ _ _ _ _ _ Hdrv Hlim). fold cutoff.
    unfold selectStale at 1.
    rewrite (nothing_stale_after now2 cutoff cutoff' limit db Hle Hlen).
    apply take_nil. }
  destruct (MarkStaleExecutions_healthy ls now1' now2' others' staleAfter' limit'
              (committed first.2) Hdrv Hlim') as (m & _ & Hrun).
  cbv zeta in Hrun. fold cutoff' in Hrun. rewrite Hnone in Hrun. exact Hrun.
Qed.

Lemma second_sweep_finds_nothing_witness :
  let db := [Scenario.execution "exec-1" "running" 0;
             Scenario.execution "exec-2" "queued" (50 * Second)] in
  let first := MarkStaleExecutions Scenario.localStorage (90 * Second) (90 * Second)
                 (fun t => t) (60 * Second) 10 (connect db) in
  (MarkStaleExecutions Scenario.localStorage (90 * Second) (91 * Second)
     (fun t => t) (60 * Second) 10 (connect (committed first.2))).1 = Ok 0.
Proof.
  intros db first.
  pose proof (second_sweep_finds_nothing Scenario.localStorage
                (90 * Second) (90 * Second) (60 * Second) 10 db
                (90 * Second) (91 * Second) (fun t => t) (60 * Second) 10 1
                eq_refl ltac:(lia) ltac:(lia)) as H.
  cbv zeta in H. subst first. rewrite H; [reflexivity| | | |].
  - apply (bool_decide_unpack _). vm_compute. reflexivity.
  - lia.
  - vm_compute. reflexivity.
  - lia.
Defined.

(** *** The SELECT compares the stored text *)

Lemma selectStale_singleton cutoff limit r :
  0 < limit -> selectStale cutoff limit [r] = if isStale cutoff r then [r] else [].
Proof.
  intros Hlim. unfold selectStale. rewrite filter_cons, filter_nil.
  destruct (Z.to_nat limit) as [|k] eqn:E; [lia|].
  destruct (isStale cutoff r).
  - rewrite decide_True by done.
    assert (merge_sort startedNoLater [r] = [r]) as ->;
      [|apply take_ge; cbn; lia].
    apply Permutation_singleton_r, merge_sort_Permutation.
  - rewrite decide_False by (by intros ?).
    assert (merge_sort startedNoLater [] = []) as ->; [|reflexivity].
    apply Permutation_nil_r, merge_sort_Permutation.
Qed.

(** C7 fails on the code: the SELECT compares the text stored in
    [started_at], the wall clock of the zone the start time was handed
    in, with the text of the UTC cutoff.  For an execution created in
    flight with a start time of its own, a sweep on a working driver
    times it out whenever that wall clock lies before the cutoff, however
    recently it started, and leaves it alone whenever that wall clock
    lies after the cutoff, however long ago it started. *)
Theorem reaper_compares_stored_text ls created now1 now2 staleAfter limit e :
  driver ls = healthy -> 0 < limit ->
  Status e ∈ ["running"; "pending"; "queued"] ->
  StartedAt e <> zeroTime ->
  let cutoff := Add now1 (wrap64 (- staleAfter)) in
  let db := committed (CreateExecutionRecord ls created (Some e) (connect [])).2 in
  let out := MarkStaleExecutions ls now1 now2 (fun t => t) staleAfter limit
               (connect db) in
  (exists r, db = [r] /\ execution_id r = ExecutionID e /\ status r = Status e /\
             started_at r = StartedAt e) /\
  (StartedAt e + StartedAtZone e * Minute < cutoff ->
     out.1 = Ok 1 /\
     exists r', committed out.2 = [r'] /\
       execution_id r' = ExecutionID e /\
       status r' = "timeout" /\
       error_message r' = Some "execution timed out" /\
       completed_at r' = Some now2 /\
       duration_ms r' = Some (Z.max 0 (Sub now2 (StartedAt e)) / 1000000)) /\
  (cutoff < StartedAt e + StartedAtZone e * Minute ->
     out.1 = Ok 0 /\ committed out.2 = db).
Proof.
  intros Hdrv Hlim Hs Hz cutoff db out.
  set (r := insertRow (stamp created e)).
  assert (Hdb : db = [r]).
  { subst db. by rewrite (RecordsFacts.CreateExecutionRecord_healthy _ _ _ _ Hdrv). }
  assert (Hzero : IsZero (StartedAt e) = false)
    by (by apply bool_decide_eq_false_2).
  assert (Hstart : started_at r = StartedAt e)
    by (subst r; cbn; by rewrite Hzero).
  assert (Hzone : started_at_zone r = StartedAtZone e)
    by (subst r; cbn; by rewrite Hzero).
  assert (Hstatus : statusInFlight (status r) = true)
    by (by apply in_flight_spec).
  assert (Hnd : NoDup (execution_id <$> db))
    by (rewrite Hdb; apply NoDup_singleton).
  split; [by exists r|].
  subst out. rewrite (sweep_count _ _ _ _ _ _ Hdrv Hlim Hnd),
    (sweep_table _ _ _ _ _ _ Hdrv Hlim). fold cutoff. cbn [fst].
  rewrite Hdb, (selectStale_singleton cutoff limit r Hlim).
  unfold isStale, textLe, wallClock. rewrite Hstatus, Hstart, Hzone. cbn [andb].
  change (cutoff + UTC * Minute) with (cutoff + 0). rewrite Z.add_0_r.
  split.
  - intros Hlt. rewrite (proj2 (Z.ltb_lt _ _) Hlt). cbn [orb length fmap list_fmap].
    split; [done|]. eexists. split; [reflexivity|].
    unfold reapRow. rewrite Hstatus. cbn [List.find toStale id].
    rewrite bool_decide_eq_true_2 by done.
    cbn [execution_id status error_message completed_at duration_ms timeoutRow].
    rewrite staleDurationMS_max. cbn [startedAt toStale]. rewrite Hstart.
    by repeat split.
  - intros Hgt. rewrite (proj2 (Z.ltb_ge _ _)) by lia.
    rewrite (proj2 (Z.eqb_neq _ _)) by lia.
    cbn [orb andb length fmap list_fmap]. split; [done|].
    by rewrite reapRow_nil.
Qed.

(** An execution handed in at t = 80 s in a zone one hour west of UTC:
    the sweep at t = 90 s with a threshold of 60 s times it out, 10 s
    after it started. *)
Lemma reaper_compares_stored_text_witness :
  let e := Scenario.dispatched "exec-1" "running" (80 * Second) (-60) in
  let db := committed (CreateExecutionRecord Scenario.localStorage (80 * Second)
                         (Some e) (connect [])).2 in
  let out := MarkStaleExecutions Scenario.localStorage (90 * Second) (90 * Second)
               (fun t => t) (60 * Second) 10 (connect db) in
  Add (90 * Second) (wrap64 (- (60 * Second))) < StartedAt e /\
  out.1 = Ok 1 /\
  exists r', committed out.2 = [r'] /\ status r' = "timeout" /\
             duration_ms r' = Some 10000.
Proof.
  intros e db out. split; [vm_compute; reflexivity|].
  destruct (reaper_compares_stored_text Scenario.localStorage (80 * Second)
              (90 * Second) (90 * Second) (60 * Second) 10 e
              eq_refl ltac:(lia)) as (_ & Hreaped & _).
  - by left.
  - vm_compute. discriminate.
  - destruct Hreaped as (Hn & r' & Hc & _ & Hs & _ & _ & Hd).
    + vm_compute. reflexivity.
    + split; [exact Hn|]. exists r'. split; [exact Hc|]. split; [exact Hs|].
      rewrite Hd. reflexivity.
Defined.

End SweepFacts.

(** ** The text of QueryExecutionRecords *)

Module QueryFacts.

Import Go Query.

Lemma placeholders_app (s1 s2 : string) :
  placeholders (s1 +:+ s2) = (placeholders s1 + placeholders s2)%nat.
Proof.
  induction s1 as [|a s1 IH]; [done|].
  change (String a s1 +:+ s2) with (String a (s1 +:+ s2)).
  cbn [placeholders]. rewrite IH. lia.
Qed.

Lemma decimalDigits_placeholders (fuel : nat) (n : Z) :
  0 <= n -> placeholders (decimalDigits fuel n) = 0%nat.
Proof.
  revert n. induction fuel as [|fuel IH]; intros n Hn; [done|].
  cbn [decimalDigits]; cbv zeta.
  assert (Hd : 0 <= n mod 10 < 10) by (apply Z.mod_pos_bound; lia).
  assert (Hdigit :
    placeholders (String (Ascii.ascii_of_nat (48 + Z.to_nat (n mod 10))) "") = 0%nat).
  { assert (Hc : (Z.to_nat (n mod 10) < 10)%nat) by lia.
    destruct (Z.to_nat (n mod 10)) as [|[|[|[|[|[|[|[|[|[|k]]]]]]]]]];
      try reflexivity; lia. }
  destruct (n <? 10); [exact Hdigit|].
  rewrite placeholders_app, Hdigit, IH; [done|].
  apply Z.div_pos; lia.
Qed.

Lemma decimal_placeholders (n : Z) : placeholders (decimal n) = 0%nat.
Proof.
  unfold decimal. destruct (n <? 0) eqn:E.
  - apply Z.ltb_lt in E. rewrite placeholders_app, decimalDigits_placeholders by lia.
    reflexivity.
  - apply Z.ltb_ge in E. by apply decimalDigits_placeholders.
Qed.

Lemma orderColumn_placeholders (sortBy : string) :
  placeholders (orderColumn sortBy) = 0%nat.
Proof. unfold orderColumn. repeat case_bool_decide; reflexivity. Qed.

Lemma orderColumn_fixed (sortBy : string) : orderColumn sortBy ∈ sortColumns.
Proof.
  unfold orderColumn, sortColumns.
  repeat case_bool_decide; repeat (first [apply list_elem_of_here | apply list_elem_of_further]).
Qed.

Lemma orderColumn_idemp (sortBy : string) :
  orderColumn (orderColumn sortBy) = orderColumn sortBy.
Proof.
  pose proof (orderColumn_fixed sortBy) as H.
  remember (orderColumn sortBy) as c eqn:E. clear E. unfold sortColumns in H.
  repeat (apply elem_of_cons in H as [-> | H]; [reflexivity|]).
  by apply elem_of_nil in H.
Qed.

Lemma Join_snoc_placeholders (elems : list string) (e : string) :
  placeholders (Join (elems ++ [e]) " AND ") =
  (placeholders (Join elems " AND ") + placeholders e)%nat.
Proof.
  assert (Hsep : placeholders " AND " = 0%nat) by (vm_compute; reflexivity).
  induction elems as [|x elems IH]; [done|].
  destruct elems as [|y elems].
  - cbn [app Join]. rewrite !placeholders_app, Hsep. lia.
  - change (placeholders (x +:+ " AND " +:+ Join ((y :: elems) ++ [e]) " AND ") =
            (placeholders (x +:+ " AND " +:+ Join (y :: elems) " AND ") +
             placeholders e)%nat).
    rewrite !placeholders_app, IH, Hsep. lia.
Qed.

(** One condition adds one placeholder and one argument. *)
Lemma condition_balanced {A} (text : string) (arg : A -> Arg) (field : option A)
    (acc : list string * list Arg) :
  placeholders text = 1%nat ->
  placeholders (Join acc.1 " AND ") = length acc.2 ->
  placeholders (Join (condition text arg field acc).1 " AND ") =
  length (condition text arg field acc).2.
Proof.
  intros Ht Hacc. destruct field as [v|]; [|exact Hacc].
  cbn [condition fst snd]. rewrite Join_snoc_placeholders, length_app, Hacc, Ht.
  reflexivity.
Qed.

Lemma conditions_balanced (filter : ExecutionFilter) :
  placeholders (Join (conditions filter).1 " AND ") = length (conditions filter).2.
Proof. unfold conditions. repeat (apply condition_balanced; [reflexivity|]). reflexivity. Qed.

Lemma condition_blank {A} (text : string) (arg : A -> Arg) (v : A) (field : option A)
    (acc acc' : list string * list Arg) :
  acc.1 = acc'.1 ->
  (condition text arg field acc).1 = (condition text arg (blank v field) acc').1.
Proof. intros H. destruct field; cbn; by rewrite ?H. Qed.

Lemma conditions_shape (filter : ExecutionFilter) :
  (conditions filter).1 = (conditions (shape filter)).1.
Proof. unfold conditions, shape; cbn. repeat apply condition_blank. reflexivity. Qed.

(** X9. The statement QueryExecutionRecords sends has exactly one
    placeholder for each argument bound to it; it orders by one of nine
    fixed column names whatever [SortBy] holds; and its text is the same
    for any two filters that differ only in the values they carry, so no
    value supplied by the caller is ever spliced into the SQL. *)
Theorem query_text_is_parameterised (filter : ExecutionFilter) :
  placeholders (queryText filter).1 = length (queryText filter).2 /\
  orderColumn (SortBy filter) ∈ sortColumns /\
  (queryText filter).1 = (queryText (shape filter)).1.
Proof.
  split; [|split].
  - unfold queryText. pose proof (conditions_balanced filter) as Hb.
    destruct (conditions filter) as [where_ args]. cbn [fst snd] in *.
    assert (Hsel : placeholders selectExecutions = 0%nat) by (vm_compute; reflexivity).
    assert (Hwhere : placeholders " WHERE " = 0%nat) by (vm_compute; reflexivity).
    assert (Hdir : placeholders (if negb (SortDescending filter) then "ASC" else "DESC")
                   = 0%nat) by (by destruct (SortDescending filter)).
    assert (Horder : placeholders " ORDER BY " = 0%nat) by (vm_compute; reflexivity).
    assert (Hspace : placeholders " " = 0%nat) by (vm_compute; reflexivity).
    assert (Hlimit : placeholders " LIMIT " = 0%nat) by (vm_compute; reflexivity).
    assert (Hoffset : placeholders " OFFSET " = 0%nat) by (vm_compute; reflexivity).
    set (text := if (0 <? length where_)%nat then _ else _).
    assert (Htext : placeholders text = length args).
    { subst text. destruct where_ as [|w ws].
      - rewrite <- Hb. exact Hsel.
      - change (0 <? length (w :: ws))%nat with true. cbv iota.
        rewrite !placeholders_app, Hsel, Hwhere, Hb. reflexivity. }
    clearbody text.
    destruct (0 <? Limit filter); destruct (0 <? Offset filter);
      rewrite ?placeholders_app, ?decimal_placeholders, ?Hlimit, ?Hoffset,
        orderColumn_placeholders, Hdir, Horder, Hspace, Htext; lia.
  - apply orderColumn_fixed.
  - unfold queryText. pose proof (conditions_shape filter) as Hs.
    destruct (conditions filter) as [where_ args].
    destruct (conditions (shape filter)) as [where' args'].
    cbn [fst snd] in Hs. subst where'. cbn [shape SortBy SortDescending Limit Offset].
    rewrite orderColumn_idemp.
    assert (Hl : forall n, (0 <? Z.max 0 n) = (0 <? n)).
    { intros n. destruct (0 <? n) eqn:E.
      - apply Z.ltb_lt in E. apply Z.ltb_lt. lia.
      - apply Z.ltb_ge in E. apply Z.ltb_ge. lia. }
    rewrite !Hl.
    destruct (0 <? Limit filter) eqn:El; destruct (0 <? Offset filter) eqn:Eo;
      try apply Z.ltb_lt in El; try apply Z.ltb_lt in Eo;
      rewrite ?(Z.max_r 0 (Limit filter)), ?(Z.max_r 0 (Offset filter)) by lia;
      reflexivity.
Qed.

End QueryFacts.

(** ** More on presence leases *)

Module LeaseFacts.

Import Go Types Presence.

Lemma sweeps_absent nodeID times : forall pm,
  leases pm !! nodeID = None -> leases (sweeps times pm).1 !! nodeID = None.
Proof.
  induction times as [|now times IH]; intros pm H; [done|].
  cbn [sweeps]. destruct (checkExpirations now pm) as [pm1 e1] eqn:E1.
  destruct (sweeps times pm1) as [pm2 e2] eqn:E2. cbn [fst].
  change pm2 with (pm2, e2).1. rewrite <- E2. apply IH.
  change pm1 with (pm1, e1).1. rewrite <- E1.
  by rewrite PresenceFacts.checkExpirations_lookup, H.
Qed.

Lemma verdict_SoftExpire cfg now lease :
  verdict cfg now lease = SoftExpire <->
  MarkedOffline lease = false /\ HeartbeatTTL cfg <= Sub now (LastSeen lease).
Proof.
  unfold verdict.
  destruct (Z.leb_spec (HeartbeatTTL cfg) (Sub now (LastSeen lease)));
    destruct (MarkedOffline lease); cbn [negb];
    try destruct (_ && _); split; try done; try (intros [? ?]; done; lia).
  intros [_ ?]. lia.
Qed.

Lemma elem_of_expiredNodes cfg now l nodeID :
  nodeID ∈ expiredNodes cfg now l <->
  exists lease, l !! nodeID = Some lease /\ MarkedOffline lease = false /\
                HeartbeatTTL cfg <= Sub now (LastSeen lease).
Proof.
  unfold expiredNodes. rewrite list_elem_of_bind. split.
  - intros ([k lease] & Hin & Hl). cbn [fst snd] in Hin.
    apply elem_of_map_to_list in Hl.
    destruct (verdict cfg now lease) eqn:Ev; try by apply elem_of_nil in Hin.
    apply list_elem_of_singleton in Hin. subst k.
    exists lease. split; [done|]. by apply verdict_SoftExpire.
  - intros (lease & Hl & Hf & Hdue). exists (nodeID, lease). split.
    + cbn [fst snd]. rewrite (proj2 (verdict_SoftExpire cfg now lease)) by done.
      by apply list_elem_of_singleton.
    + by apply elem_of_map_to_list.
Qed.

(** X10: a heartbeat starts a new expiry episode whatever the lease was
    before (absent, fresh or marked offline): the node has a lease, and
    over any run of later sweeps it is soft-expired, and reported
    inactive to an attached status manager, once if some sweep comes at
    least the heartbeat TTL after the heartbeat and never otherwise. *)
Theorem touch_restarts_expiry pm nodeID seenAt times :
  let pm' := Touch nodeID seenAt pm in
  let due := existsb (fun now => HeartbeatTTL (config pm) <=? Sub now seenAt) times in
  HasLease nodeID pm' = true /\
  countNode nodeID (softExpiries times pm') = (if due then 1 else 0)%nat /\
  inactiveUpdates nodeID (sweeps times pm').2 =
    match statusManager pm with
    | Some _ => (if due then 1 else 0)%nat
    | None => 0%nat
    end.
Proof.
  intros pm' due.
  assert (Hl : leases pm' !! nodeID =
            Some {| LastSeen := seenAt;
                    LastExpired := LastExpired (default zeroLease (leases pm !! nodeID));
                    MarkedOffline := false |}).
  { subst pm'. unfold Touch. cbn [leases setLeases]. apply lookup_insert_eq. }
  split.
  - unfold HasLease. apply bool_decide_eq_true_2. rewrite Hl. by eexists.
  - destruct (PresenceFacts.sweeps_fresh nodeID times pm' _ Hl eq_refl) as [H0 H1].
    split; [exact H0|exact H1].
Qed.

(** X11: once a node is forgotten it has no lease, no run of sweeps
    brings one back, soft-expires it or reports it inactive, and the
    leases of the other nodes are as they were. *)
Theorem forget_silences_node pm nodeID times :
  let pm' := Forget nodeID pm in
  HasLease nodeID pm' = false /\
  HasLease nodeID (sweeps times pm').1 = false /\
  countNode nodeID (softExpiries times pm') = 0%nat /\
  inactiveUpdates nodeID (sweeps times pm').2 = 0%nat /\
  (forall n, n <> nodeID -> leases pm' !! n = leases pm !! n).
Proof.
  intros pm'.
  assert (Hl : leases pm' !! nodeID = None).
  { subst pm'. unfold Forget. cbn [leases setLeases]. apply lookup_delete_eq. }
  split; [|split; [|split; [|split]]].
  - unfold HasLease. apply bool_decide_eq_false_2. rewrite Hl. by intros [? ?].
  - unfold HasLease. apply bool_decide_eq_false_2.
    rewrite (sweeps_absent nodeID times pm' Hl). by intros [? ?].
  - apply PresenceFacts.sweeps_offline. by rewrite Hl.
  - apply PresenceFacts.sweeps_offline. by rewrite Hl.
  - intros n Hne. subst pm'. unfold Forget. cbn [leases setLeases].
    by apply lookup_delete_ne.
Qed.

(** X12: what one sweep tells the outside.  The status manager is sent
    an update for a node exactly when one is attached and the node's
    lease is not yet marked offline and was last touched at least the
    heartbeat TTL ago, and the update is the inactive one with score 0;
    the expire callback runs for a node exactly when, besides, a
    callback is set and the status manager accepted that update.  A
    sweep does nothing else outside the manager, and it neither creates
    a lease nor moves the time a lease was last seen. *)
Theorem sweep_reports_overdue_leases pm now :
  let out := checkExpirations now pm in
  let overdue := fun n => exists lease,
    leases pm !! n = Some lease /\ MarkedOffline lease = false /\
    HeartbeatTTL (config pm) <= Sub now (LastSeen lease) in
  (forall n u, UpdateAgentStatus n u ∈ out.2 <->
     is_Some (statusManager pm) /\ u = inactiveUpdate /\ overdue n) /\
  (forall n, ExpireCallback n ∈ out.2 <->
     expireCallback pm = true /\
     (exists sm, statusManager pm = Some sm /\ sm n inactiveUpdate = None) /\
     overdue n) /\
  (forall e, e ∈ out.2 ->
     (exists n u, e = UpdateAgentStatus n u) \/ (exists n, e = ExpireCallback n)) /\
  (forall n lease', leases out.1 !! n = Some lease' ->
     exists lease, leases pm !! n = Some lease /\ LastSeen lease' = LastSeen lease).
Proof.
  intros out overdue.
  assert (Heff : forall e, e ∈ out.2 <->
            exists n, overdue n /\
              e ∈ markInactive (setLeases (omap (sweepLease (config pm) now) (leases pm)) pm) n).
  { intros e. subst out. unfold checkExpirations. cbn [snd].
    rewrite list_elem_of_bind. split.
    - intros (n & He & Hn). exists n. split; [|done]. by apply elem_of_expiredNodes.
    - intros (n & Hn & He). exists n. split; [done|]. by apply elem_of_expiredNodes. }
  split; [|split; [|split]].
  - intros n u. rewrite Heff. unfold markInactive. cbn [statusManager setLeases expireCallback].
    split.
    + intros (m & Hm & He). destruct (statusManager pm) as [sm|]; [|by apply elem_of_nil in He].
      apply elem_of_cons in He as [[= -> ->]|He]; [by repeat split; eauto|].
      destruct (sm m inactiveUpdate); [by apply elem_of_nil in He|].
      destruct (expireCallback pm); not_among He.
    + intros ([sm Hsm] & -> & Hn). exists n. split; [done|]. rewrite Hsm. by left.
  - intros n. rewrite Heff. unfold markInactive. cbn [statusManager setLeases expireCallback].
    split.
    + intros (m & Hm & He). destruct (statusManager pm) as [sm|]; [|by apply elem_of_nil in He].
      apply elem_of_cons in He as [He|He]; [discriminate He|].
      destruct (sm m inactiveUpdate) eqn:Esm; [by apply elem_of_nil in He|].
      destruct (expireCallback pm); [|by apply elem_of_nil in He].
      apply list_elem_of_singleton in He. injection He as ->.
      split; [done|]. split; [|done]. by exists sm.
    + intros (Hcb & (sm & Hsm & Hok) & Hn). exists n. split; [done|].
      rewrite Hsm, Hok, Hcb. right. by left.
  - intros e He. apply Heff in He as (n & _ & He). unfold markInactive in He.
    cbn [statusManager setLeases expireCallback] in He.
    destruct (statusManager pm) as [sm|]; [|by apply elem_of_nil in He].
    apply elem_of_cons in He as [->|He]; [left; by eauto|].
    destruct (sm n inactiveUpdate); [by apply elem_of_nil in He|].
    destruct (expireCallback pm); [|by apply elem_of_nil in He].
    apply list_elem_of_singleton in He. right. by eauto.
  - intros n lease'. subst out. rewrite PresenceFacts.checkExpirations_lookup.
    destruct (leases pm !! n) as [lease|]; cbn [mbind option_bind]; [|done].
    unfold sweepLease. destruct (verdict (config pm) now lease); intros [= <-];
      by exists lease.
Qed.

End LeaseFacts.

(** ** The registry of the health monitor *)

Module RegistryFacts.

Import Go Types Health Registry.

Lemma checkAgentHealth_registry hm p nodeID :
  activeAgents (checkAgentHealth hm p nodeID).1 =
    match activeAgents hm !! nodeID with
    | Some agent => <[nodeID := polled p agent]> (activeAgents hm)
    | None => activeAgents hm
    end.
Proof.
  destruct (activeAgents hm !! nodeID) as [agent|] eqn:Hl.
  - rewrite (HealthFacts.checkAgentHealth_run _ _ _ _ Hl).
    case_bool_decide; [|done].
    destruct (statusManager hm).
    + by rewrite HealthFacts.pushUnified_registry.
    + by rewrite HealthFacts.pushLegacy_registry.
  - unfold checkAgentHealth. by rewrite Hl.
Qed.

Lemma checkAgentHealth_unknown hm p nodeID :
  activeAgents hm !! nodeID = None -> checkAgentHealth hm p nodeID = (hm, []).
Proof. intros H. unfold checkAgentHealth. by rewrite H. Qed.

Lemma pushUnified_nonempty sm hm p nodeID newStatus :
  (pushUnified sm hm p nodeID newStatus).2 <> [].
Proof.
  destruct (HealthFacts.pushUnified_effects sm hm p nodeID newStatus) as (rest & -> & _).
  done.
Qed.

Lemma pushLegacy_nonempty hm p nodeID newStatus :
  (pushLegacy hm p nodeID newStatus).2 <> [].
Proof.
  unfold pushLegacy. destruct (updateAgentHealth _ _ _); [done|].
  by destruct (getAgent _ _).
Qed.

Lemma pushUnified_fixed sm hm p nodeID newStatus :
  let out := (pushUnified sm hm p nodeID newStatus).1 in
  storage out = storage hm /\ uiService out = uiService hm /\
  statusManager out = statusManager hm /\
  (presence out = presence hm \/
   newStatus = HealthStatusActive /\
   presence out = Presence.Touch nodeID (touchedAt p) <$> presence hm).
Proof.
  unfold pushUnified. destruct (sm _ _); [by repeat split; try left|].
  unfold isActive. case_bool_decide; repeat split; try (by left). by right.
Qed.

Lemma pushLegacy_fixed hm p nodeID newStatus :
  let out := (pushLegacy hm p nodeID newStatus).1 in
  storage out = storage hm /\ uiService out = uiService hm /\
  statusManager out = statusManager hm /\
  (presence out = presence hm \/
   newStatus = HealthStatusActive /\
   presence out = Presence.Touch nodeID (touchedAt p) <$> presence hm).
Proof.
  unfold pushLegacy. destruct (updateAgentHealth _ _ _); [by repeat split; try left|].
  destruct (getAgent _ _); [|by repeat split; try left].
  unfold isActive. case_bool_decide; repeat split; try (by left). by right.
Qed.

(** X13: a poll never registers or unregisters an agent and rewrites no
    record but that of the polled node; it keeps every record under its
    own node id, leaves the monitor's collaborators in place, and
    touches the presence lease of the polled node, and only that, only
    when the probe answered "running" and the recorded status differed. *)
Theorem poll_keeps_registry hm p nodeID :
  let out := (checkAgentHealth hm p nodeID).1 in
  (forall n, is_Some (activeAgents out !! n) <-> is_Some (activeAgents hm !! n)) /\
  (forall n, n <> nodeID -> activeAgents out !! n = activeAgents hm !! n) /\
  (keyed hm -> keyed out) /\
  storage out = storage hm /\ uiService out = uiService hm /\
  statusManager out = statusManager hm /\
  (presence out = presence hm \/
   presence out = Presence.Touch nodeID (touchedAt p) <$> presence hm /\
   probe p = Storage.Ok "running" /\
   exists agent, activeAgents hm !! nodeID = Some agent /\
                 LastStatus agent <> HealthStatusActive).
Proof.
  intros out.
  pose proof (checkAgentHealth_registry hm p nodeID) as Hreg. fold out in Hreg.
  split; [|split; [|split]].
  - intros n. rewrite Hreg. destruct (activeAgents hm !! nodeID) as [agent|] eqn:Hl; [|done].
    destruct (decide (n = nodeID)) as [->|Hne].
    + rewrite lookup_insert_eq, Hl. split; by eauto.
    + by rewrite lookup_insert_ne.
  - intros n Hne. rewrite Hreg. destruct (activeAgents hm !! nodeID); [|done].
    by rewrite lookup_insert_ne.
  - intros Hk n agent. rewrite Hreg.
    destruct (activeAgents hm !! nodeID) as [a|] eqn:Hl; [|by apply Hk].
    destruct (decide (n = nodeID)) as [->|Hne].
    + rewrite lookup_insert_eq. intros [= <-]. cbn. by apply Hk.
    + rewrite lookup_insert_ne by done. by apply Hk.
  - subst out. destruct (activeAgents hm !! nodeID) as [agent|] eqn:Hl.
    2:{ rewrite checkAgentHealth_unknown by done. by repeat split; try left. }
    rewrite (HealthFacts.checkAgentHealth_run _ _ _ _ Hl).
    case_bool_decide as Hch; [|by repeat split; try left].
    set (hm' := setActiveAgents _ hm).
    assert (Hfix : forall o : HealthMonitor,
              storage o = storage hm' /\ uiService o = uiService hm' /\
              statusManager o = statusManager hm' /\
              (presence o = presence hm' \/
               probeStatus (probe p) = HealthStatusActive /\
               presence o = Presence.Touch nodeID (touchedAt p) <$> presence hm') ->
              storage o = storage hm /\ uiService o = uiService hm /\
              statusManager o = statusManager hm /\
              (presence o = presence hm \/
               presence o = Presence.Touch nodeID (touchedAt p) <$> presence hm /\
               probe p = Storage.Ok "running" /\
               exists agent, activeAgents hm !! nodeID = Some agent /\
                             LastStatus agent <> HealthStatusActive)).
    { intros o (H1 & H2 & H3 & H4). repeat split; try done.
      destruct H4 as [H4|[Hact H4]]; [by left|right].
      split; [done|]. split.
      - destruct (HealthFacts.probeStatus_cases (probe p)) as [[Hp _]|[_ Hp]];
          [done|congruence].
      - exists agent. split; [done|]. by rewrite <- Hact. }
    assert (Hres : exists o : HealthMonitor,
              (match statusManager hm with
               | Some updateAgentStatus =>
                   pushUnified updateAgentStatus hm' p nodeID (probeStatus (probe p))
               | None => pushLegacy hm' p nodeID (probeStatus (probe p))
               end).1 = o /\
              storage o = storage hm' /\ uiService o = uiService hm' /\
              statusManager o = statusManager hm' /\
              (presence o = presence hm' \/
               probeStatus (probe p) = HealthStatusActive /\
               presence o = Presence.Touch nodeID (touchedAt p) <$> presence hm')).
    { destruct (statusManager hm) as [sm|]; eexists; (split; [reflexivity|]).
      - apply pushUnified_fixed.
      - apply pushLegacy_fixed. }
    destruct Hres as (o & -> & Ho). rewrite <- Hl. by apply Hfix.
Qed.

(** After a poll the record carries the status mapped from the probe. *)
Lemma checkAgentHealth_records hm p nodeID agent :
  activeAgents hm !! nodeID = Some agent ->
  activeAgents (checkAgentHealth hm p nodeID).1 !! nodeID = Some (polled p agent).
Proof.
  intros Hl. rewrite checkAgentHealth_registry, Hl. apply lookup_insert_eq.
Qed.

Lemma checkAgentHealth_effects hm p nodeID agent :
  activeAgents hm !! nodeID = Some agent ->
  (checkAgentHealth hm p nodeID).2 = [] <-> LastStatus agent = probeStatus (probe p).
Proof.
  intros Hl. rewrite (HealthFacts.checkAgentHealth_run _ _ _ _ Hl).
  case_bool_decide as Hch.
  - split; [|done]. intros He. exfalso.
    destruct (statusManager hm) as [sm|].
    + by apply pushUnified_nonempty in He.
    + by apply pushLegacy_nonempty in He.
  - split; [|done]. intros _. by destruct (decide (LastStatus agent = probeStatus (probe p))).
Qed.

(** X14: of two consecutive polls of a monitored agent, the second
    reaches outside the monitor exactly when its probe maps to another
    status than the first one's: a steady agent, up or down, is
    reported once and then polled in silence. *)
Theorem steady_polls_are_silent hm p1 p2 nodeID agent :
  activeAgents hm !! nodeID = Some agent ->
  (checkAgentHealth (checkAgentHealth hm p1 nodeID).1 p2 nodeID).2 = [] <->
  probeStatus (probe p2) = probeStatus (probe p1).
Proof.
  intros Hl.
  rewrite (checkAgentHealth_effects _ p2 nodeID (polled p1 agent))
    by (by apply checkAgentHealth_records).
  cbn [polled LastStatus]. split; congruence.
Qed.

Lemma steady_polls_are_silent_witness :
  let hm := RegisterAgent "node-1" "http://node-1:8001" 0 Scenario.healthMonitor in
  (checkAgentHealth
     (checkAgentHealth hm (Scenario.poll (Storage.Ok "running") (10 * Second)) "node-1").1
     (Scenario.poll (Storage.Ok "running") (20 * Second)) "node-1").2 = [].
Proof.
  intros hm.
  apply (steady_polls_are_silent hm
           (Scenario.poll (Storage.Ok "running") (10 * Second))
           (Scenario.poll (Storage.Ok "running") (20 * Second)) "node-1"
           {| NodeID := "node-1"; BaseURL := "http://node-1:8001";
              LastStatus := HealthStatusUnknown; LastChecked := 0 |}).
  - vm_compute. reflexivity.
  - reflexivity.
Defined.

(** X15: the first poll after a registration always reports: whatever
    the probe answers and whatever was recorded for the node before, an
    attached status manager is sent exactly one update for the node,
    carrying the state mapped from the probe, and without a status
    manager the legacy store is written first.  The registration also
    renews the node's presence lease. *)
Theorem first_poll_after_registration_reports hm nodeID baseURL seenAt p :
  let hm1 := RegisterAgent nodeID baseURL seenAt hm in
  let out := checkAgentHealth hm1 p nodeID in
  let newStatus := probeStatus (probe p) in
  activeAgents hm1 !! nodeID =
    Some {| NodeID := nodeID; BaseURL := baseURL;
            LastStatus := HealthStatusUnknown; LastChecked := seenAt |} /\
  presence hm1 = Presence.Touch nodeID seenAt <$> presence hm /\
  (is_Some (statusManager hm) ->
     List.filter (pushesStatus nodeID) out.2 =
       [UpdateAgentStatus nodeID (healthCheckUpdate newStatus)]) /\
  (statusManager hm = None ->
     head out.2 = Some (UpdateAgentHealth nodeID newStatus)).
Proof.
  intros hm1 out newStatus.
  assert (Hl : activeAgents hm1 !! nodeID =
            Some {| NodeID := nodeID; BaseURL := baseURL;
                    LastStatus := HealthStatusUnknown; LastChecked := seenAt |}).
  { subst hm1. unfold RegisterAgent, touchPresence. cbn. apply lookup_insert_eq. }
  split; [exact Hl|]. split; [done|].
  subst out. rewrite (HealthFacts.checkAgentHealth_run _ _ _ _ Hl).
  fold newStatus. cbn [LastStatus].
  assert (Hne : HealthStatusUnknown <> newStatus).
  { subst newStatus.
    destruct (HealthFacts.probeStatus_cases (probe p)) as [[_ ->]|[_ ->]]; done. }
  rewrite bool_decide_eq_true_2 by done.
  change (statusManager hm1) with (statusManager hm).
  split.
  - intros [sm ->].
    match goal with |- context [pushUnified sm ?h p nodeID newStatus] =>
      destruct (HealthFacts.pushUnified_effects sm h p nodeID newStatus)
        as (rest & -> & Hrest) end.
    cbn [List.filter pushesStatus]. rewrite bool_decide_eq_true_2 by done. f_equal.
    apply HealthFacts.filter_none. intros e He. destruct e; try done.
    by apply Hrest in He.
  - intros ->. unfold pushLegacy. destruct (updateAgentHealth _ _ _); [done|].
    by destruct (getAgent _ _).
Qed.

(** X16: unregistering a node that is not monitored does nothing.
    Unregistering a monitored node drops its record and its presence
    lease and keeps the other records; it reports the node inactive (to
    the status manager when one is attached, with the legacy store as
    fallback when the update is refused, and to the legacy store
    otherwise) and never announces it online; afterwards a poll of the
    node, or a second unregistration, does nothing at all. *)
Theorem unregistered_agent_is_dropped hm nodeID :
  let out := UnregisterAgent nodeID hm in
  (activeAgents hm !! nodeID = None -> out = (hm, [])) /\
  activeAgents out.1 = delete nodeID (activeAgents hm) /\
  (is_Some (activeAgents hm !! nodeID) ->
     presence out.1 = Presence.Forget nodeID <$> presence hm /\
     (forall sm, statusManager hm = Some sm ->
        head out.2 = Some (UpdateAgentStatus nodeID unregisteredUpdate) /\
        (UpdateAgentHealth nodeID HealthStatusInactive ∈ out.2 <->
           is_Some (sm nodeID unregisteredUpdate))) /\
     (statusManager hm = None ->
        head out.2 = Some (UpdateAgentHealth nodeID HealthStatusInactive))) /\
  (forall n agent, PublishNodeOnline n agent ∉ out.2) /\
  (forall n u, UpdateAgentStatus n u ∈ out.2 -> State u = Some AgentStateInactive) /\
  (forall p, checkAgentHealth out.1 p nodeID = (out.1, [])) /\
  UnregisterAgent nodeID out.1 = (out.1, []).
Proof.
  intros out. subst out. unfold UnregisterAgent.
  destruct (activeAgents hm !! nodeID) as [agent|] eqn:Hl.
  - cbn [fst snd forgetPresence setPresence setActiveAgents activeAgents
         statusManager uiService storage presence].
    split; [done|]. split; [done|]. split; [|split; [|split; [|split]]].
    + intros _. split; [done|]. split.
      * intros sm ->. split; [done|]. destruct (sm nodeID unregisteredUpdate) eqn:E.
        -- split; [by eauto|]. intros _. right. by left.
        -- split; [|by intros [? ?]]. intros H. not_among H.
      * by intros ->.
    + intros n a H. destruct (statusManager hm) as [sm|].
      * destruct (sm nodeID unregisteredUpdate); not_among H.
      * destruct (uiService hm); [destruct (getAgent _ _)|]; not_among H.
    + intros n u H. destruct (statusManager hm) as [sm|].
      * apply elem_of_cons in H as [[= -> ->]|H]; [done|].
        destruct (sm nodeID unregisteredUpdate); not_among H.
      * destruct (uiService hm); [destruct (getAgent _ _)|]; not_among H.
    + intros p. apply checkAgentHealth_unknown. cbn. apply lookup_delete_eq.
    + cbn. by rewrite lookup_delete_eq.
  - cbn [fst snd]. split; [done|]. split; [by rewrite delete_id|].
    split; [by intros [? ?]|]. split; [intros n a H; by apply elem_of_nil in H|].
    split; [intros n u H; by apply elem_of_nil in H|].
    split; [intros p; by apply checkAgentHealth_unknown|].
    by rewrite Hl.
Qed.

Lemma checkAgents_cons polls agent agents hm :
  checkAgents polls (agent :: agents) hm =
  let step := checkAgentHealth hm (polls (NodeID agent)) (NodeID agent) in
  ((checkAgents polls agents step.1).1, step.2 ++ (checkAgents polls agents step.1).2).
Proof.
  cbn [checkAgents]. destruct (checkAgentHealth _ _ _) as [hm1 e1]. cbn [fst snd].
  by destruct (checkAgents polls agents hm1).
Qed.

(** The loop polls the listed agents one after the other and leaves the
    other records alone. *)
Lemma checkAgents_records polls agents : forall hm,
  NoDup (NodeID <$> agents) ->
  (forall agent, agent ∈ agents -> activeAgents hm !! NodeID agent = Some agent) ->
  (forall agent, agent ∈ agents ->
     activeAgents (checkAgents polls agents hm).1 !! NodeID agent =
       Some (polled (polls (NodeID agent)) agent)) /\
  (forall n, n ∉ NodeID <$> agents ->
     activeAgents (checkAgents polls agents hm).1 !! n = activeAgents hm !! n).
Proof.
  induction agents as [|a agents IH]; intros hm Hnd Hreg.
  { split; [|done]. intros agent H. by apply elem_of_nil in H. }
  rewrite fmap_cons in Hnd. apply NoDup_cons in Hnd as [Ha Hnd].
  rewrite checkAgents_cons. cbv zeta. cbn [fst].
  set (hm1 := (checkAgentHealth hm (polls (NodeID a)) (NodeID a)).1).
  assert (Hother : forall n, n <> NodeID a ->
            activeAgents hm1 !! n = activeAgents hm !! n).
  { intros n Hne. subst hm1. rewrite checkAgentHealth_registry.
    destruct (activeAgents hm !! NodeID a); [|done]. by rewrite lookup_insert_ne. }
  assert (Hhead : activeAgents hm1 !! NodeID a = Some (polled (polls (NodeID a)) a)).
  { subst hm1. apply checkAgentHealth_records. apply Hreg. by left. }
  destruct (IH hm1 Hnd) as [IH1 IH2].
  { intros agent Hin. rewrite Hother; [apply Hreg; by right|].
    intros Heq. apply Ha. rewrite <- Heq. by apply list_elem_of_fmap_2. }
  split.
  - intros agent Hin. apply elem_of_cons in Hin as [->|Hin].
    + by rewrite IH2.
    + by apply IH1.
  - intros n Hn. rewrite fmap_cons in Hn. apply not_elem_of_cons in Hn as [Hne Hn].
    rewrite IH2 by done. by apply Hother.
Qed.

(** X17: one round of [checkActiveAgents] over a registry that keeps
    every record under its own node id polls each monitored agent once:
    afterwards each record carries the status mapped from its own
    probe, and no agent has been added or dropped. *)
Theorem round_polls_every_agent polls hm :
  keyed hm ->
  forall nodeID,
    activeAgents (checkActiveAgents polls hm).1 !! nodeID =
    polled (polls nodeID) <$> activeAgents hm !! nodeID.
Proof.
  intros Hk nodeID. unfold checkActiveAgents. cbv zeta.
  destruct (length (map_to_list (activeAgents hm)).*2 =? 0)%nat eqn:Elen.
  - apply Nat.eqb_eq in Elen. rewrite length_fmap in Elen.
    apply nil_length_inv in Elen. apply map_to_list_empty_iff in Elen.
    cbn [fst]. by rewrite Elen, !lookup_empty.
  - clear Elen.
    assert (Hin : forall agent, agent ∈ (map_to_list (activeAgents hm)).*2 ->
              activeAgents hm !! NodeID agent = Some agent).
    { intros agent ([k a] & -> & Hka)%list_elem_of_fmap. cbn [snd].
      apply elem_of_map_to_list in Hka. by rewrite (Hk k a Hka). }
    assert (Hids : NodeID <$> (map_to_list (activeAgents hm)).*2 =
                   (map_to_list (activeAgents hm)).*1).
    { rewrite <- list_fmap_compose. apply Forall_fmap_ext_1, Forall_forall.
      intros [k a] Hka. cbn. apply elem_of_map_to_list in Hka.
      by apply Hk. }
    destruct (checkAgents_records polls (map_to_list (activeAgents hm)).*2 hm)
      as [H1 H2]; [rewrite Hids; apply NoDup_fst_map_to_list|exact Hin|].
    destruct (activeAgents hm !! nodeID) as [agent|] eqn:Hl.
    + cbn [fmap option_fmap option_map].
      assert (Hmem : agent ∈ (map_to_list (activeAgents hm)).*2).
      { apply list_elem_of_fmap. exists (nodeID, agent). split; [done|].
        by apply elem_of_map_to_list. }
      pose proof (H1 agent Hmem) as H. by rewrite (Hk nodeID agent Hl) in H.
    + cbn [fmap option_fmap option_map]. rewrite H2; [done|].
      rewrite Hids. intros ([k a] & Hk' & Hka)%list_elem_of_fmap. cbn in Hk'. subst k.
      apply elem_of_map_to_list in Hka. congruence.
Qed.

Lemma round_polls_every_agent_witness :
  let hm := RegisterAgent "node-2" "http://node-2:8001" 0
              (RegisterAgent "node-1" "http://node-1:8001" 0 legacyMonitor) in
  let polls := fun nodeID : string =>
    Scenario.poll (if bool_decide (nodeID = "node-1") then Storage.Ok "running"
                   else Storage.Err "connection refused") (10 * Second) in
  LastStatus <$> activeAgents (checkActiveAgents polls hm).1 !! "node-1"
    = Some HealthStatusActive /\
  LastStatus <$> activeAgents (checkActiveAgents polls hm).1 !! "node-2"
    = Some HealthStatusInactive.
Proof.
  intros hm polls.
  assert (Hk : keyed hm).
  { intros n agent. subst hm. unfold RegisterAgent, touchPresence. cbn.
    destruct (decide (n = "node-2")) as [->|H2].
    - rewrite lookup_insert_eq. by intros [= <-].
    - rewrite lookup_insert_ne by done.
      destruct (decide (n = "node-1")) as [->|H1].
      + rewrite lookup_insert_eq. by intros [= <-].
      + rewrite lookup_insert_ne by done. by rewrite lookup_empty. }
  split.
  - rewrite (round_polls_every_agent polls hm Hk "node-1"). vm_compute. reflexivity.
  - rewrite (round_polls_every_agent polls hm Hk "node-2"). vm_compute. reflexivity.
Defined.

End RegistryFacts.

(** ** The dashboard builders *)

Module OverviewFacts.

Import Go Overview.

(** *** Sorting and cutting *)

Lemma mergeSort_sorts {A} (less : A -> A -> bool) :
  Transitive (ordered less) -> base.Total (ordered less) -> sorts less (mergeSort less).
Proof.
  intros Htrans Htotal l. unfold mergeSort. split.
  - apply merge_sort_Permutation.
  - by apply StronglySorted_merge_sort.
Qed.

(** The first [n] elements of a sorted slice: as many as asked for if
    there are that many, all drawn from the slice, in order, and ahead
    of every element left out. *)
Lemma sorted_prefix {A} (less : A -> A -> bool) (sortSlice : list A -> list A)
    (l : list A) (n : nat) :
  sorts less sortSlice ->
  let items := take n (sortSlice l) in
  length items = (n `min` length l)%nat /\
  (forall x, x ∈ items -> x ∈ l) /\
  StronglySorted (ordered less) items /\
  (forall x, x ∈ l -> x ∉ items -> forall y, y ∈ items -> ordered less y x).
Proof.
  intros Hsorts items. destruct (Hsorts l) as [Hperm Hsorted].
  rewrite <- (take_drop n) in Hsorted.
  apply StronglySorted_app in Hsorted as (Hle & Htake & _).
  split; [|split; [|split]].
  - subst items. by rewrite length_take, Hperm.
  - intros x Hx. rewrite <- Hperm. subst items.
    rewrite <- (take_drop n (sortSlice l)). apply elem_of_app. by left.
  - exact Htake.
  - intros x Hx Hnot y Hy. apply Hle; [exact Hy|].
    rewrite <- Hperm, <- (take_drop n (sortSlice l)) in Hx.
    apply elem_of_app in Hx as [Hx|Hx]; [by destruct Hnot|exact Hx].
Qed.

Lemma StronglySorted_weaken {A} (R R' : A -> A -> Prop) (l : list A) :
  (forall x y, R x y -> R' x y) -> StronglySorted R l -> StronglySorted R' l.
Proof.
  intros Himpl. induction 1 as [|x l Hs IH Hall]; constructor; [done|].
  eapply Forall_impl; [exact Hall|]. intros y. apply Himpl.
Qed.

Lemma startedAfter_trans : Transitive (ordered startedAfter).
Proof.
  intros a b c. unfold ordered, startedAfter, After. rewrite !Z.ltb_ge. lia.
Qed.

Lemma startedAfter_total : base.Total (ordered startedAfter).
Proof.
  intros a b. unfold ordered, startedAfter, After. rewrite !Z.ltb_ge. lia.
Qed.

Lemma moreUrgent_ordered a b :
  ordered moreUrgent a b <->
  priority (itemStatus a) < priority (itemStatus b) \/
  (priority (itemStatus a) = priority (itemStatus b) /\
   itemLastHeartbeat b <= itemLastHeartbeat a).
Proof.
  unfold ordered, moreUrgent, After. cbv zeta.
  destruct (Z.eqb_spec (priority (itemStatus b)) (priority (itemStatus a))) as [E|E].
  - rewrite Z.ltb_ge. lia.
  - rewrite Z.ltb_ge. lia.
Qed.

Lemma moreUrgent_trans : Transitive (ordered moreUrgent).
Proof. intros a b c. rewrite !moreUrgent_ordered. lia. Qed.

Lemma moreUrgent_total : base.Total (ordered moreUrgent).
Proof. intros a b. rewrite !moreUrgent_ordered. lia. Qed.

(** *** maxTime *)

Lemma maxTime_max current candidate :
  zeroTime <= current -> zeroTime <= candidate ->
  maxTime current candidate = Z.max current candidate.
Proof.
  intros Hc Hd. unfold maxTime, Records.IsZero, After.
  case_bool_decide as Hz; [lia|].
  destruct (Z.ltb_spec current candidate); lia.
Qed.

Lemma foldl_maxTime times : forall current,
  zeroTime <= current -> Forall (fun t => zeroTime <= t) times ->
  let latest := foldl maxTime current times in
  current <= latest /\ Forall (fun t => t <= latest) times /\
  (latest = current \/ latest ∈ times).
Proof.
  induction times as [|t times IH]; intros current Hc Hts; cbn [foldl]; cbv zeta.
  { split; [lia|]. split; [constructor|by left]. }
  apply Forall_cons in Hts as [Ht Hts].
  rewrite (maxTime_max current t) by done.
  pose proof (IH (Z.max current t)) as IH'. cbv zeta in IH'.
  destruct IH' as (Hle & Hall & Hmem); [lia|done|].
  split; [lia|]. split.
  - apply Forall_cons. split; [lia|done].
  - destruct Hmem as [Heq|Hin]; [|right; by right].
    destruct (Z.max_spec current t) as [[_ Hm]|[_ Hm]]; rewrite Hm in Heq |- *.
    + right. rewrite Heq. by left.
    + by left.
Qed.

(** X18: folded over the start times of a workflow's executions, from
    the zero time, [maxTime] yields the latest of them: no time in the
    list is later than the result, and the result is one of them (the
    zero time for none).  The times are taken not to lie before the
    zero time, year 1. *)
Theorem maxTime_folds_to_latest times :
  Forall (fun t => zeroTime <= t) times ->
  let latest := foldl maxTime zeroTime times in
  Forall (fun t => t <= latest) times /\
  (times = [] -> latest = zeroTime) /\
  (times <> [] -> latest ∈ times).
Proof.
  intros Hts latest.
  pose proof (foldl_maxTime times zeroTime (Z.le_refl _) Hts) as H.
  cbv zeta in H. destruct H as (Hle & Hall & Hmem). subst latest.
  split; [exact Hall|]. split; [by intros ->|].
  intros Hne. destruct Hmem as [Heq|Hin]; [|exact Hin].
  destruct times as [|t times]; [done|].
  apply Forall_cons in Hts as [Ht _]. apply Forall_cons in Hall as [Ht' _].
  rewrite Heq in Ht' |- *. assert (t = zeroTime) as -> by lia. by left.
Qed.

Lemma maxTime_folds_to_latest_witness :
  foldl maxTime zeroTime [5 * Second; 9 * Second; 7 * Second] ∈
    [5 * Second; 9 * Second; 7 * Second].
Proof.
  apply (maxTime_folds_to_latest [5 * Second; 9 * Second; 7 * Second]).
  - repeat constructor; vm_compute; discriminate.
  - discriminate.
Defined.

(** *** buildIncidentItems *)

Lemma incidents_elem normalize executions item :
  item ∈ executions ≫= (fun exec =>
            if skipped normalize exec then [] else [incidentItem exec]) <->
  exists exec, exec ∈ executions /\ skipped normalize exec = false /\
               item = incidentItem exec.
Proof.
  rewrite list_elem_of_bind. split.
  - intros (exec & Hin & Hexec). exists exec. split; [done|].
    destruct (skipped normalize exec); [by apply elem_of_nil in Hin|].
    apply list_elem_of_singleton in Hin. by split.
  - intros (exec & Hexec & Hs & ->). exists exec. split; [|done].
    rewrite Hs. by apply list_elem_of_singleton.
Qed.

Lemma incidents_length normalize executions :
  length (executions ≫= (fun exec =>
            if skipped normalize exec then [] else [incidentItem exec])) =
  length (List.filter (fun exec => negb (skipped normalize exec)) executions).
Proof.
  induction executions as [|exec executions IH]; [done|].
  rewrite bind_cons, length_app, IH. cbn [List.filter].
  by destruct (skipped normalize exec).
Qed.

Lemma skipped_false normalize exec :
  skipped normalize exec = false <->
  normalize (Storage.Status exec) ∈
    [Storage.ExecutionStatusFailed; Storage.ExecutionStatusTimeout;
     Storage.ExecutionStatusCancelled].
Proof.
  unfold skipped. cbv zeta. rewrite !elem_of_cons, elem_of_nil.
  repeat case_bool_decide; cbn;
    destruct (decide (normalize (Storage.Status exec) = Storage.ExecutionStatusFailed)),
             (decide (normalize (Storage.Status exec) = Storage.ExecutionStatusTimeout)),
             (decide (normalize (Storage.Status exec) = Storage.ExecutionStatusCancelled));
    split; intros; try done; tauto.
Qed.

(** X19: [buildIncidentItems] panics on a limit that is negative or
    beyond what [make] grants.  Otherwise, whatever order [sort.Slice]
    leaves among executions started at the same instant, it returns as
    many items as the limit allows of the executions whose normalized
    status is failed, timeout or cancelled, built from such executions
    only, the latest started first; and any such execution that is left
    out started no later than every one listed. *)
Theorem incidents_are_latest_failures normalize sortSlice maxCap executions limit :
  sorts startedAfter sortSlice ->
  let failed := fun exec =>
    normalize (Storage.Status exec) ∈
      [Storage.ExecutionStatusFailed; Storage.ExecutionStatusTimeout;
       Storage.ExecutionStatusCancelled] in
  (limit < 0 \/ maxCap < limit ->
     buildIncidentItems normalize sortSlice maxCap executions limit = None) /\
  (0 <= limit <= maxCap ->
     exists items,
       buildIncidentItems normalize sortSlice maxCap executions limit = Some items /\
       length items =
         (Z.to_nat limit `min`
          length (List.filter (fun exec => negb (skipped normalize exec)) executions))%nat /\
       (forall item, item ∈ items ->
          exists exec, exec ∈ executions /\ failed exec /\ item = incidentItem exec) /\
       StronglySorted (fun a b => StartedAt b <= StartedAt a) items /\
       (forall exec, exec ∈ executions -> failed exec -> incidentItem exec ∉ items ->
          forall item, item ∈ items -> Storage.StartedAt exec <= StartedAt item)).
Proof.
  intros Hsorts failed. unfold buildIncidentItems. split.
  - intros H. destruct (Z.ltb_spec limit 0); [done|].
    destruct (Z.ltb_spec maxCap limit); [done|lia].
  - intros [H0 Hcap].
    destruct (Z.ltb_spec limit 0); [lia|]. destruct (Z.ltb_spec maxCap limit); [lia|].
    cbn [orb]. cbv zeta.
    set (incidents := executions ≫= _).
    destruct (sorted_prefix startedAfter sortSlice incidents (Z.to_nat limit) Hsorts)
      as (Hlen & Hin & Hsorted & Hout).
    exists (take (Z.to_nat limit) (sortSlice incidents)). split.
    { f_equal. destruct (Z.ltb_spec limit (Z.of_nat (length (sortSlice incidents))));
        [done|]. rewrite take_ge; [done|lia]. }
    split; [|split; [|split]].
    + rewrite Hlen. subst incidents. by rewrite incidents_length.
    + intros item Hitem. apply Hin, incidents_elem in Hitem as (exec & He & Hs & ->).
      exists exec. split; [done|]. split; [by apply skipped_false|done].
    + eapply StronglySorted_weaken; [|exact Hsorted].
      intros a b. unfold ordered, startedAfter, After. by rewrite Z.ltb_ge.
    + intros exec He Hf Hnot item Hitem.
      assert (Hord : ordered startedAfter item (incidentItem exec)).
      { apply Hout; [|done|done]. apply incidents_elem. exists exec.
        split; [done|]. split; [by apply skipped_false|done]. }
      unfold ordered, startedAfter, After in Hord. apply Z.ltb_ge in Hord.
      exact Hord.
Qed.

Lemma incidents_are_latest_failures_witness :
  exists items,
    buildIncidentItems (fun s => s) (mergeSort startedAfter) (2 ^ 31)
      [Storage.scanRow (Scenario.execution "exec-1" "failed" 3);
       Storage.scanRow (Scenario.execution "exec-2" "succeeded" 5);
       Storage.scanRow (Scenario.execution "exec-3" "timeout" 8)] 1 = Some items /\
    length items = 1%nat.
Proof.
  destruct (incidents_are_latest_failures (fun s => s) (mergeSort startedAfter) (2 ^ 31)
              [Storage.scanRow (Scenario.execution "exec-1" "failed" 3);
               Storage.scanRow (Scenario.execution "exec-2" "succeeded" 5);
               Storage.scanRow (Scenario.execution "exec-3" "timeout" 8)] 1
              (mergeSort_sorts startedAfter startedAfter_trans startedAfter_total))
    as [_ H].
  destruct H as (items & Hb & Hlen & _); [vm_compute; split; discriminate|].
  exists items. split; [exact Hb|]. rewrite Hlen. vm_compute. reflexivity.
Defined.

(** *** buildAgentHealthSummary *)

(** The loop over the agents: one item per agent, in order, and one
    counter raised per agent. *)
Lemma countAgent_loop h agents : forall summary items,
  let out := foldl (countAgent h) (summary, items) agents in
  Total out.1 = Total summary /\
  Active out.1 + Degraded out.1 + Offline out.1 =
    Active summary + Degraded summary + Offline summary + Z.of_nat (length agents) /\
  Active out.1 =
    Active summary +
    Z.of_nat (length (List.filter
                        (fun agent => negb (isDegraded h agent) && running h agent)
                        agents)) /\
  Offline summary <= Offline out.1 /\
  Degraded out.1 =
    Degraded summary + Z.of_nat (length (List.filter (isDegraded h) agents)) /\
  exists added,
    out.2 = items ++ added /\
    Forall2 (fun agent item => exists status uptime,
               item = healthItem agent status uptime /\
               classified h agent status uptime) agents added.
Proof.
  induction agents as [|agent agents IH]; intros summary items out.
  { subst out. cbn. repeat split; try lia. exists []. by rewrite app_nil_r. }
  subst out. cbn [foldl].
  assert (Hstep : exists summary1 status uptime,
            countAgent h (summary, items) agent =
              (summary1, items ++ [healthItem agent status uptime]) /\
            classified h agent status uptime /\ Total summary1 = Total summary /\
            Active summary1 + Degraded summary1 + Offline summary1 =
              Active summary + Degraded summary + Offline summary + 1 /\
            Active summary1 =
              Active summary +
              (if negb (isDegraded h agent) && running h agent then 1 else 0) /\
            Offline summary <= Offline summary1 /\
            Degraded summary1 =
              Degraded summary + (if isDegraded h agent then 1 else 0)).
  { unfold countAgent, classified, running. destruct (isDegraded h agent) eqn:Ed.
    - do 3 eexists. split; [reflexivity|]. cbn. repeat split; lia.
    - destruct (GetAgentStatus h (ID agent)) as [[status|]|err].
      + destruct (IsRunning status);
          do 3 eexists; (split; [reflexivity|]); cbn; repeat split; lia.
      + do 3 eexists. split; [reflexivity|]. cbn. repeat split; lia.
      + do 3 eexists. split; [reflexivity|]. cbn. repeat split; lia. }
  destruct Hstep as (summary1 & status & uptime & -> & Hitem & Ht & Hsum & Ha & Ho & Hd).
  destruct (IH summary1 (items ++ [healthItem agent status uptime]))
    as (IHt & IHsum & IHa & IHo & IHd & added & IHe & IHf).
  split; [congruence|]. split; [rewrite IHsum, length_cons; lia|].
  split; [|split; [lia|split]].
  - rewrite IHa, Ha. cbn [List.filter].
    destruct (negb (isDegraded h agent) && running h agent); cbn [length]; lia.
  - rewrite IHd, Hd. cbn [List.filter]. destruct (isDegraded h agent); cbn [length]; lia.
  - exists (healthItem agent status uptime :: added).
    split; [by rewrite IHe, <- app_assoc|].
    constructor; [by eauto|done].
Qed.

Lemma classified_status h agent status uptime :
  classified h agent status uptime ->
  status ∈ ["degraded"; "offline"; "running"] /\
  (isDegraded h agent = true -> status = "degraded").
Proof.
  unfold classified. destruct (isDegraded h agent).
  - intros [-> _]. split; [by left|done].
  - destruct (GetAgentStatus h (ID agent)) as [[st|]|err]; intros [-> _];
      (split; [|done]); try (by right; left).
    destruct (IsRunning st); [by right; right; left|by right; left].
Qed.

(** X20: the agent health summary counts every agent once: the active,
    degraded and offline counts are non-negative and add up to the
    total, the number of agents given; the degraded count is the
    number of agents whose lifecycle is degraded or whose health is
    inactive, the active count the number of the others the agent
    service finds running.  The list holds at most 12 items, each built from one of
    the agents: degraded if its lifecycle or health says so, otherwise
    running or offline by the answer of the agent service (offline when
    it fails or answers nothing).  Whatever order [sort.Slice] leaves
    among equals, degraded agents come before offline ones and those
    before running ones, the latest heartbeat first within a class, and
    an agent left out ranks no higher than any agent listed. *)
Theorem agent_health_counts_every_agent h sortSlice agents :
  sorts moreUrgent sortSlice ->
  let summary := buildAgentHealthSummary h sortSlice agents in
  let ranked := fun a b =>
    priority (itemStatus a) < priority (itemStatus b) \/
    (priority (itemStatus a) = priority (itemStatus b) /\
     itemLastHeartbeat b <= itemLastHeartbeat a) in
  Total summary = Z.of_nat (length agents) /\
  Active summary + Degraded summary + Offline summary = Total summary /\
  0 <= Offline summary /\
  Active summary =
    Z.of_nat (length (List.filter
                        (fun agent => negb (isDegraded h agent) && running h agent)
                        agents)) /\
  Degraded summary = Z.of_nat (length (List.filter (isDegraded h) agents)) /\
  length (Agents summary) = (12 `min` length agents)%nat /\
  (forall item, item ∈ Agents summary ->
     exists agent status uptime,
       agent ∈ agents /\ item = healthItem agent status uptime /\
       classified h agent status uptime /\
       status ∈ ["degraded"; "offline"; "running"]) /\
  StronglySorted ranked (Agents summary) /\
  (forall agent status uptime,
     agent ∈ agents -> classified h agent status uptime ->
     healthItem agent status uptime ∉ Agents summary ->
     forall item, item ∈ Agents summary -> ranked item (healthItem agent status uptime)).
Proof.
  intros Hsorts summary ranked. subst summary. unfold buildAgentHealthSummary.
  pose proof (countAgent_loop h agents
                {| Total := Z.of_nat (length agents); Active := 0; Degraded := 0;
                   Offline := 0; Agents := [] |} []) as Hloop.
  cbv zeta in Hloop.
  destruct (foldl (countAgent h) _ agents) as [summary items].
  cbn [fst snd Total Active Degraded Offline] in Hloop.
  destruct Hloop as (Ht & Hsum & Ha & Ho & Hd & added & -> & Hadded).
  cbn [app].
  assert (Hclamp : (Offline summary <? 0) = false) by (apply Z.ltb_ge; lia).
  rewrite Hclamp.
  assert (Hitems : (if (12 <? length (sortSlice added))%nat
                    then take 12 (sortSlice added) else sortSlice added) =
                   take 12 (sortSlice added)).
  { destruct (Nat.ltb_spec 12 (length (sortSlice added))); [done|].
    by rewrite take_ge. }
  rewrite Hitems. cbn [Total Active Degraded Offline Agents].
  destruct (sorted_prefix moreUrgent sortSlice added 12 Hsorts)
    as (Hlen & Hin & Hsorted & Hout).
  split; [done|]. split; [lia|]. split; [lia|]. split; [lia|]. split; [lia|].
  split; [|split; [|split]].
  - rewrite Hlen. by rewrite <- (Forall2_length _ _ _ Hadded).
  - intros item Hitem. apply Hin in Hitem.
    apply list_elem_of_lookup in Hitem as [i Hi].
    destruct (Forall2_lookup_r _ _ _ _ _ Hadded Hi) as (agent & Hagent & Hc).
    destruct Hc as (status & uptime & -> & Hc).
    exists agent, status, uptime. split; [by eapply list_elem_of_lookup_2|].
    split; [done|]. split; [done|]. by apply (classified_status h agent status uptime).
  - eapply StronglySorted_weaken; [|exact Hsorted].
    intros a b. by rewrite moreUrgent_ordered.
  - intros agent status uptime Hagent Hclass Hnot item Hitem.
    apply moreUrgent_ordered. apply Hout; [|done|done].
    apply list_elem_of_lookup in Hagent as [i Hi].
    destruct (Forall2_lookup_l _ _ _ _ _ Hadded Hi) as (item' & Hitem' & Hc).
    apply list_elem_of_lookup_2 in Hitem'.
    destruct Hc as (status' & uptime' & -> & Hc).
    enough (status' = status /\ uptime' = uptime) as [-> ->] by done.
    unfold classified in Hclass, Hc. destruct (isDegraded h agent).
    + destruct Hclass as [-> ->], Hc as [-> ->]. done.
    + destruct (GetAgentStatus h (ID agent)) as [[st|]|err];
        destruct Hclass as [-> ->], Hc as [-> ->]; done.
Qed.

Lemma agent_health_counts_every_agent_witness :
  let summary := buildAgentHealthSummary services (mergeSort moreUrgent)
                   [agent "node-1" "active" 5; agent "node-2" "inactive" 7;
                    agent "node-3" "active" 9] in
  Active summary + Degraded summary + Offline summary = 3 /\
  length (Agents summary) = 3%nat.
Proof.
  intros summary.
  destruct (agent_health_counts_every_agent services (mergeSort moreUrgent)
              [agent "node-1" "active" 5; agent "node-2" "inactive" 7;
               agent "node-3" "active" 9]
              (mergeSort_sorts moreUrgent moreUrgent_trans moreUrgent_total))
    as (Ht & Hsum & _ & _ & _ & Hlen & _).
  fold summary in Ht, Hsum, Hlen. split.
  - rewrite Hsum, Ht. reflexivity.
  - rewrite Hlen. reflexivity.
Defined.

Lemma buildAgentHealthSummary_active h sortSlice agents :
  Active (buildAgentHealthSummary h sortSlice agents) =
  Z.of_nat (length (List.filter
                      (fun agent => negb (isDegraded h agent) && running h agent)
                      agents)).
Proof.
  unfold buildAgentHealthSummary.
  pose proof (countAgent_loop h agents
                {| Total := Z.of_nat (length agents); Active := 0; Degraded := 0;
                   Offline := 0; Agents := [] |} []) as Hloop.
  cbv zeta in Hloop.
  destruct (foldl (countAgent h) _ agents) as [summary items].
  cbn [fst snd Total Active Degraded Offline] in Hloop.
  destruct Hloop as (_ & _ & Ha & _).
  destruct (Offline summary <? 0); cbn [Active]; lia.
Qed.

(** *** getAgentsSummary *)

Lemma countRunning_spec h agents : forall count,
  match countRunning h agents count with
  | Some n =>
      n = count + Z.of_nat (length (List.filter (running h) agents)) /\
      Forall (fun agent => GetAgentStatus h (ID agent) <> Storage.Ok None) agents
  | None => Exists (fun agent => GetAgentStatus h (ID agent) = Storage.Ok None) agents
  end.
Proof.
  induction agents as [|agent agents IH]; intros count; cbn [countRunning List.filter].
  { split; [cbn; lia|constructor]. }
  unfold running at 1.
  destruct (GetAgentStatus h (ID agent)) as [[status|]|err] eqn:E.
  - specialize (IH (if IsRunning status then count + 1 else count)).
    destruct (countRunning h agents _) as [n|].
    + destruct IH as [-> Hall]. split; [|constructor; [congruence|done]].
      destruct (IsRunning status); cbn [length]; lia.
    + by apply Exists_cons_tl.
  - by apply Exists_cons_hd.
  - specialize (IH count). destruct (countRunning h agents count) as [n|].
    + destruct IH as [-> Hall]. split; [done|]. constructor; [congruence|done].
    + by apply Exists_cons_tl.
Qed.

Lemma filter_running_le h agents :
  (length (List.filter (fun agent => negb (isDegraded h agent) && running h agent) agents)
   <= length (List.filter (running h) agents))%nat.
Proof.
  induction agents as [|agent agents IH]; [done|]. cbn [List.filter].
  destruct (isDegraded h agent), (running h agent); cbn [negb andb length]; lia.
Qed.

Lemma filter_running_eq h agents :
  List.filter (isDegraded h) agents = [] ->
  List.filter (fun agent => negb (isDegraded h agent) && running h agent) agents =
  List.filter (running h) agents.
Proof.
  induction agents as [|agent agents IH]; [done|]. cbn [List.filter].
  destruct (isDegraded h agent); [done|]. intros H. cbn [negb andb].
  by rewrite IH.
Qed.

(** X21: [getAgentsSummary] passes on the error of the agent listing.
    It panics when the agent service answers neither a status nor an
    error for some agent, a case [buildAgentHealthSummary] counts as
    offline.  Otherwise it counts every agent in the total and the
    agents found running among them, so that running never exceeds the
    total; the active count of the health summary over the same agents
    never exceeds that running count, and equals it when no agent is
    degraded. *)
Theorem agents_summary_counts_running h sortSlice agents :
  (forall err, getAgentsSummary h (Storage.Err err) = Some (Storage.Err err)) /\
  (Exists (fun agent => GetAgentStatus h (ID agent) = Storage.Ok None) agents ->
     getAgentsSummary h (Storage.Ok agents) = None) /\
  (Forall (fun agent => GetAgentStatus h (ID agent) <> Storage.Ok None) agents ->
     exists summary,
       getAgentsSummary h (Storage.Ok agents) = Some (Storage.Ok summary) /\
       summaryTotal summary = Z.of_nat (length agents) /\
       summaryRunning summary = Z.of_nat (length (List.filter (running h) agents)) /\
       0 <= summaryRunning summary <= summaryTotal summary /\
       Active (buildAgentHealthSummary h sortSlice agents) <= summaryRunning summary /\
       (List.filter (isDegraded h) agents = [] ->
          Active (buildAgentHealthSummary h sortSlice agents) = summaryRunning summary)).
Proof.
  split; [done|].
  pose proof (countRunning_spec h agents 0) as Hspec.
  pose proof (buildAgentHealthSummary_active h sortSlice agents) as Hactive.
  unfold getAgentsSummary. split.
  - intros Hex. destruct (countRunning h agents 0) as [n|]; [|done].
    destruct Hspec as [_ Hall]. apply Exists_exists in Hex as (agent & Hin & Hnone).
    rewrite Forall_forall in Hall. by destruct (Hall agent Hin).
  - intros Hall. destruct (countRunning h agents 0) as [n|].
    + destruct Hspec as [-> _]. eexists. split; [reflexivity|].
      cbn [summaryTotal summaryRunning]. split; [done|]. split; [lia|].
      pose proof (filter_length (running h) agents) as Hle.
      pose proof (filter_running_le h agents) as Hle'.
      split; [lia|]. split; [lia|].
      intros Hnone. rewrite Hactive, (filter_running_eq h agents Hnone). lia.
    + apply Exists_exists in Hspec as (agent & Hin & Hnone).
      rewrite Forall_forall in Hall. by destruct (Hall agent Hin).
Qed.

Lemma agents_summary_counts_running_witness :
  exists summary,
    getAgentsSummary services
      (Storage.Ok [agent "node-1" "active" 5; agent "node-2" "inactive" 7;
                   agent "node-3" "active" 9]) = Some (Storage.Ok summary) /\
    summaryRunning summary = 2 /\
    Active (buildAgentHealthSummary services (mergeSort moreUrgent)
              [agent "node-1" "active" 5; agent "node-2" "inactive" 7;
               agent "node-3" "active" 9]) <= summaryRunning summary.
Proof.
  destruct (agents_summary_counts_running services (mergeSort moreUrgent)
              [agent "node-1" "active" 5; agent "node-2" "inactive" 7;
               agent "node-3" "active" 9])
    as (_ & _ & H).
  destruct H as (summary & Hs & _ & Hr & _ & Ha & _).
  - repeat constructor; vm_compute; discriminate.
  - exists summary. split; [exact Hs|]. split; [rewrite Hr; reflexivity|exact Ha].
Defined.

(** *** computeMedian *)

(** X22: the median does not depend on the order of the samples. *)
Theorem computeMedian_ignores_order (values values' : list Z) :
  values ≡ₚ values' ->
  Dashboard.computeMedian values = Dashboard.computeMedian values'.
Proof.
  intros Hp. unfold Dashboard.computeMedian.
  assert (Hs : Dashboard.sortSlice values' = Dashboard.sortSlice values).
  { apply DashboardFacts.sortSlice_unique.
    - unfold Dashboard.sortSlice. apply Sorted_merge_sort; apply _.
    - unfold Dashboard.sortSlice. by rewrite merge_sort_Permutation. }
  by rewrite Hs, (Permutation_length Hp).
Qed.

Lemma computeMedian_ignores_order_witness :
  Dashboard.computeMedian [30; 10; 20] = Dashboard.computeMedian [10; 20; 30].
Proof.
  apply computeMedian_ignores_order.
  apply (Permutation_trans (l' := [10; 30; 20])).
  - apply perm_swap.
  - apply perm_skip, perm_swap.
Defined.

End OverviewFacts.

(** ** The response caches *)

Module CacheFacts.

Import Go Cache.

Lemma written_snoc {Response} (writes : list (Time * option Response)) t response :
  written (writes ++ [(t, response)]) =
    {| data := response; timestamp := t; ttl := 30 * Second |}.
Proof.
  unfold written. rewrite foldl_app. cbn [foldl Set_ fst snd]. f_equal.
  induction writes as [|w writes IH] using rev_ind; [done|].
  by rewrite foldl_app.
Qed.

(** X23: a cache serves the response of the last [Set], and only while
    less than 30 s have passed since that call: a new cache misses, an
    earlier response is never served again once another was stored,
    and a stored nil response is a miss.  A miss returns no response. *)
Theorem cache_serves_last_write_within_ttl {Response}
    (writes : list (Time * option Response)) (now : Time) :
  match Get now (written writes) with
  | (Some response, true) =>
      exists earlier t, writes = earlier ++ [(t, Some response)] /\
                        Sub now t < 30 * Second
  | (None, false) =>
      writes = [] \/
      exists earlier t response, writes = earlier ++ [(t, response)] /\
        (response = None \/ 30 * Second <= Sub now t)
  | _ => False
  end.
Proof.
  destruct writes as [|w writes _] using rev_ind; [by left|].
  destruct w as [t r]. rewrite written_snoc. unfold Get. cbn [data timestamp ttl].
  destruct r as [r|].
  - destruct (Z.ltb_spec (Sub now t) (30 * Second)) as [Hlt|Hge].
    + by exists writes, t.
    + right. exists writes, t, (Some r). split; [done|by right].
  - right. exists writes, t, None. split; [done|by left].
Qed.

End CacheFacts.
